(** * EasyLocal++: a shallow embedding of the local-search core

    The development follows the C++ sources: cost structures
    (coststructure.hh), the tabu list manager (TabuListManager.hh), the
    simulated annealing runners, the best-move selection of the parallel
    neighborhood explorer and the multi-modal neighborhood explorers
    (multimodalneighborhoodexplorer.hh); then the comparison operators of
    the cost structures, the state manager (statemanager.hh), runs of the
    tabu list manager, the bimodal runners, the generation of moves by the
    composite explorers, the URL codec (url.hh) and the neighborhood
    iterators.

    Conventions.
    - [unsigned int] and [unsigned long] values are integers in [Z] with
      the wrap-around written out ([to_uint], [to_ulong]).
    - The cost type [CFtype] is a template parameter; it is instantiated
      with exact integers [Z].
    - A [std::vector] is a [list]; [v[i]] is the lookup [v !! i] and an
      out-of-range read makes the operation undefined ([None]).
    - A function that throws returns [None] or an explicit outcome.
    - A heterogeneous tuple of (explorer, move) pairs is a list over one
      move type, the level being the index in the list. *)

From Stdlib Require Import ZArith List Bool Lia QArith Qcanon.
From Stdlib.Strings Require Byte.
From stdpp Require Import base list gmap.
Import ListNotations.
Open Scope Z_scope.

(** ** Machine integers *)

Definition to_uint (x : Z) : Z := x mod 2 ^ 32.
Definition to_ulong (x : Z) : Z := x mod 2 ^ 64.

(** Modelled from the spec: utils/Types.hh only declares the comparison
    helpers ([LessThan], [EqualTo], ...), their definitions are not part of
    the sources.  On an integral cost type they are the plain order; the
    float epsilon only concerns floating-point cost types. *)
Definition LessThan (value1 value2 : Z) : bool := value1 <? value2.

Lemma to_uint_small x : 0 <= x < 2 ^ 32 -> to_uint x = x.
Proof. intros H. unfold to_uint. now apply Z.mod_small. Qed.

Lemma to_ulong_small x : 0 <= x < 2 ^ 64 -> to_ulong x = x.
Proof. intros H. unfold to_ulong. now apply Z.mod_small. Qed.

(** ** Cost structures (coststructure.hh) *)

Module CostStructure.

(** [std::vector::resize(n, x)]. *)
Definition resize (v : list Z) (n : nat) (x : Z) : list Z :=
  take n v ++ replicate (n - length v) x.

(** One round of [this->all_components[i] += other.all_components[i]]
    (respectively [-=]). *)
Definition update_at (op : Z -> Z -> Z) (other : list Z) (this : list Z) (i : nat)
  : list Z :=
  match this !! i, other !! i with
  | Some a, Some b => <[i := op a b]> this
  | _, _ => this
  end.

(** The component part of [operator+=] and [operator-=]: the resize guarded
    by the size test, then the loop [for (i = 0; i < other.size(); i++)]. *)
Definition components_update (op : Z -> Z -> Z) (this other : list Z) : list Z :=
  let this1 :=
    if (length this <? length other)%nat
    then resize this (length other) 0 else this in
  fold_left (update_at op other) (seq 0 (length other)) this1.

(** The body of the loop of the hierarchical comparison [operator<]:
    [n] rounds are left, [i] is the loop index. *)
Fixpoint hier_lt_loop (n i : nat) (c1 c2 : list Z) : option bool :=
  match n with
  | O => Some false
  | S n' =>
      match c1 !! i, c2 !! i with
      | Some x, Some y =>
          if x <? y then Some true
          else if x >? y then Some false
          else hier_lt_loop n' (S i) c1 c2
      | _, _ => None
      end
  end.

(** Lexicographic order on component vectors, as the specification words
    it: the first position where the vectors differ decides. *)
Definition lex_lt_spec (c1 c2 : list Z) : Prop :=
  exists (i : nat) (x y : Z),
    c1 !! i = Some x /\ c2 !! i = Some y /\ x < y /\
    forall j : nat, (j < i)%nat -> c1 !! j = c2 !! j.

Section WithDouble.

(** The type [double] of the weighted scalar and its comparison helper
    [LessThan<double>] are kept abstract. *)
Variable double : Type.
Variable LessThan_double : double -> double -> bool.

Record DefaultCostStructure : Type := mkDefault {
  total : Z;
  violations : Z;
  objective : Z;
  all_components : list Z;
  weighted : double;
  is_weighted : bool
}.

(** [DefaultCostStructure::operator+=] *)
Definition add_assign (this other : DefaultCostStructure) : DefaultCostStructure :=
  {| total := total this + total other;
     violations := violations this + violations other;
     objective := objective this + objective other;
     all_components :=
       components_update Z.add (all_components this) (all_components other);
     weighted := weighted this;
     is_weighted := is_weighted this |}.

(** [DefaultCostStructure::operator-=] *)
Definition sub_assign (this other : DefaultCostStructure) : DefaultCostStructure :=
  {| total := total this - total other;
     violations := violations this - violations other;
     objective := objective this - objective other;
     all_components :=
       components_update Z.sub (all_components this) (all_components other);
     weighted := weighted this;
     is_weighted := is_weighted this |}.

(** [operator+] and [operator-]: copy the left operand, then update it. *)
Definition add (cs1 cs2 : DefaultCostStructure) : DefaultCostStructure :=
  let res := cs1 in add_assign res cs2.

Definition sub (cs1 cs2 : DefaultCostStructure) : DefaultCostStructure :=
  let res := cs1 in sub_assign res cs2.

(** [operator<(DefaultCostStructure, DefaultCostStructure)] *)
Definition lt (cs1 cs2 : DefaultCostStructure) : bool :=
  if is_weighted cs1 && is_weighted cs2
  then LessThan_double (weighted cs1) (weighted cs2)
  else LessThan (total cs1) (total cs2).

Record HierarchicalCostStructure : Type := mkHierarchical {
  h_total : Z;
  h_violations : Z;
  h_objective : Z;
  h_all_components : list Z;
  h_weighted : double;
  h_is_weighted : bool
}.

Definition h_size (cs : HierarchicalCostStructure) : nat :=
  length (h_all_components cs).

(** [operator<(HierarchicalCostStructure, HierarchicalCostStructure)]:
    the loop runs over [cs1.size()] positions and reads [cs2[i]]. *)
Definition h_lt (cs1 cs2 : HierarchicalCostStructure) : option bool :=
  hier_lt_loop (h_size cs1) 0 (h_all_components cs1) (h_all_components cs2).

End WithDouble.

Arguments total {double} _.
Arguments violations {double} _.
Arguments objective {double} _.
Arguments all_components {double} _.
Arguments weighted {double} _.
Arguments is_weighted {double} _.
Arguments mkDefault {double} _ _ _ _ _ _.
Arguments add_assign {double} _ _.
Arguments sub_assign {double} _ _.
Arguments add {double} _ _.
Arguments sub {double} _ _.
Arguments lt {double} _ _ _.
Arguments mkHierarchical {double} _ _ _ _ _ _.
Arguments h_all_components {double} _.
Arguments h_size {double} _.
Arguments h_lt {double} _ _.

(** The cost structures of scenario S6 of the specification. *)
Definition s6_a : HierarchicalCostStructure unit :=
  mkHierarchical 10 0 10 [0; 10] tt false.
Definition s6_b : HierarchicalCostStructure unit :=
  mkHierarchical 1000 1 0 [1; 0] tt false.

(** Two cost structures with a different number of components, the
    components of the first being the first components of the second. *)
Definition c6_short : HierarchicalCostStructure unit :=
  mkHierarchical 1 0 1 [1] tt false.
Definition c6_long : HierarchicalCostStructure unit :=
  mkHierarchical 8 0 8 [1; 7] tt false.

Definition ex_cs1 : DefaultCostStructure unit := mkDefault 1003 1 3 [1; 3] tt false.
Definition ex_cs2 : DefaultCostStructure unit := mkDefault 2005 2 5 [2; 5] tt false.

(** *** The component loop *)

Lemma length_update_at op other this i :
  length (update_at op other this i) = length this.
Proof.
  unfold update_at. destruct (this !! i), (other !! i); auto.
  now rewrite length_insert.
Qed.

Lemma length_fold_update_at op other idx : forall this,
  length (fold_left (update_at op other) idx this) = length this.
Proof.
  induction idx as [|i idx IH]; intros this; simpl; auto.
  now rewrite IH, length_update_at.
Qed.

(** Invariant of the loop after [n] rounds: the positions below [n] are
    updated, the others are untouched. *)
Lemma lookup_fold_update_at op other : forall (n : nat) this (i : nat),
  (n <= length other)%nat -> (length other <= length this)%nat ->
  fold_left (update_at op other) (seq 0 n) this !! i =
    if (i <? n)%nat
    then match this !! i, other !! i with
         | Some a, Some b => Some (op a b)
         | _, _ => None
         end
    else this !! i.
Proof.
  induction n as [|n IH]; intros this i Hn Hlen.
  - simpl. reflexivity.
  - rewrite seq_S, fold_left_app. simpl.
    set (acc := fold_left (update_at op other) (seq 0 n) this).
    assert (Hacc : length acc = length this)
      by (unfold acc; apply length_fold_update_at).
    assert (Hn' : (n <= length other)%nat) by lia.
    pose proof (IH this n Hn' Hlen) as Hat. fold acc in Hat.
    rewrite Nat.ltb_irrefl in Hat.
    destruct (lookup_lt_is_Some_2 this n ltac:(lia)) as [a Ha].
    destruct (lookup_lt_is_Some_2 other n ltac:(lia)) as [b Hb].
    unfold update_at. rewrite Hat, Ha, Hb.
    destruct (Nat.eq_dec i n) as [->|Hne].
    + rewrite list_lookup_insert_eq by lia.
      replace (n <? S n)%nat with true by (symmetry; apply Nat.ltb_lt; lia).
      now rewrite Ha, Hb.
    + rewrite list_lookup_insert_ne by congruence.
      unfold acc. rewrite (IH this i Hn' Hlen).
      destruct (i <? n)%nat eqn:E1, (i <? S n)%nat eqn:E2; auto;
        apply Nat.ltb_lt in E1 || apply Nat.ltb_ge in E1;
        apply Nat.ltb_lt in E2 || apply Nat.ltb_ge in E2; lia.
Qed.

Lemma length_resize v n x : length (resize v n x) = n.
Proof.
  unfold resize. rewrite length_app, length_take, length_replicate. lia.
Qed.

Lemma lookup_resize_ext v n x (i : nat) :
  (length v <= n)%nat -> (i < n)%nat ->
  resize v n x !! i = Some (nth i v x).
Proof.
  intros Hv Hi. unfold resize. rewrite take_ge by lia.
  destruct (Nat.lt_ge_cases i (length v)) as [Hlt|Hge].
  - rewrite lookup_app_l by lia.
    destruct (lookup_lt_is_Some_2 v i Hlt) as [a Ha]. rewrite Ha.
    f_equal. symmetry. apply nth_lookup_Some with (d := x) in Ha. exact Ha.
  - rewrite lookup_app_r by lia.
    rewrite lookup_replicate_2 by lia.
    f_equal. symmetry. apply nth_overflow. lia.
Qed.

Lemma length_components_update op this other :
  length (components_update op this other) = Nat.max (length this) (length other).
Proof.
  unfold components_update. rewrite length_fold_update_at.
  destruct (length this <? length other)%nat eqn:E.
  - apply Nat.ltb_lt in E. rewrite length_resize. lia.
  - apply Nat.ltb_ge in E. lia.
Qed.

(** Pointwise reading of the updated vector: a missing entry of either
    side counts as [0]. *)
Lemma nth_components_update op this other (i : nat) :
  op 0 0 = 0 -> (forall a, op a 0 = a) ->
  nth i (components_update op this other) 0 = op (nth i this 0) (nth i other 0).
Proof.
  intros Hop0 Hopr.
  destruct (Nat.lt_ge_cases i (Nat.max (length this) (length other))) as [Hlt|Hge].
  2:{ rewrite !nth_overflow; try lia; auto.
      rewrite length_components_update. lia. }
  apply nth_lookup_Some with (d := 0).
  unfold components_update.
  destruct (length this <? length other)%nat eqn:E.
  - apply Nat.ltb_lt in E.
    rewrite lookup_fold_update_at by (rewrite ?length_resize; lia).
    replace (i <? length other)%nat with true by (symmetry; apply Nat.ltb_lt; lia).
    rewrite lookup_resize_ext by lia.
    destruct (lookup_lt_is_Some_2 other i ltac:(lia)) as [b Hb]. rewrite Hb.
    apply nth_lookup_Some with (d := 0) in Hb. now rewrite Hb.
  - apply Nat.ltb_ge in E.
    rewrite lookup_fold_update_at by lia.
    destruct (lookup_lt_is_Some_2 this i ltac:(lia)) as [a Ha].
    rewrite Ha. pose proof Ha as Ha'.
    apply nth_lookup_Some with (d := 0) in Ha'. rewrite Ha'.
    destruct (i <? length other)%nat eqn:E2.
    + apply Nat.ltb_lt in E2.
      destruct (lookup_lt_is_Some_2 other i E2) as [b Hb]. rewrite Hb.
      apply nth_lookup_Some with (d := 0) in Hb. now rewrite Hb.
    + apply Nat.ltb_ge in E2.
      rewrite (nth_overflow other) by lia. now rewrite Hopr.
Qed.

Lemma components_add_sub this other :
  (length other <= length this)%nat ->
  components_update Z.sub (components_update Z.add this other) other = this.
Proof.
  intros Hlen. apply list_eq. intros i.
  assert (Hl1 : length (components_update Z.add this other) = length this)
    by (rewrite length_components_update; lia).
  assert (Hl2 : length (components_update Z.sub
                          (components_update Z.add this other) other) = length this)
    by (rewrite length_components_update; lia).
  destruct (Nat.lt_ge_cases i (length this)) as [Hlt|Hge].
  - destruct (lookup_lt_is_Some_2 this i Hlt) as [a Ha]. rewrite Ha.
    destruct (lookup_lt_is_Some_2 _ i ltac:(rewrite Hl2; exact Hlt)) as [c Hc].
    rewrite Hc. f_equal.
    apply nth_lookup_Some with (d := 0) in Hc.
    apply nth_lookup_Some with (d := 0) in Ha.
    rewrite nth_components_update in Hc by (intros; lia).
    rewrite nth_components_update in Hc by (intros; lia).
    lia.
  - rewrite !lookup_ge_None_2; auto; lia.
Qed.

(** *** The hierarchical loop *)

Lemma hier_lt_loop_spec : forall (n i : nat) (c1 c2 : list Z),
  length c1 = (i + n)%nat -> length c2 = (i + n)%nat ->
  exists r : bool, hier_lt_loop n i c1 c2 = Some r /\
    (r = true <->
     exists (k : nat) (x y : Z), (i <= k)%nat /\
       c1 !! k = Some x /\ c2 !! k = Some y /\ x < y /\
       forall j : nat, (i <= j < k)%nat -> c1 !! j = c2 !! j).
Proof.
  induction n as [|n IH]; intros i c1 c2 H1 H2.
  - exists false. split; [reflexivity|]. split; [discriminate|].
    intros (k & x & y & Hk & Hx & _).
    apply lookup_lt_Some in Hx. lia.
  - simpl.
    destruct (lookup_lt_is_Some_2 c1 i ltac:(lia)) as [x Hx].
    destruct (lookup_lt_is_Some_2 c2 i ltac:(lia)) as [y Hy].
    rewrite Hx, Hy.
    destruct (x <? y) eqn:Elt.
    + apply Z.ltb_lt in Elt. exists true. split; [reflexivity|].
      split; [intros _|reflexivity].
      exists i, x, y. repeat split; auto. intros j Hj. lia.
    + apply Z.ltb_ge in Elt. destruct (x >? y) eqn:Egt.
      * apply Z.gtb_lt in Egt. exists false. split; [reflexivity|].
        split; [discriminate|].
        intros (k & x' & y' & Hk & Hx' & Hy' & Hlt & Hpre).
        destruct (Nat.eq_dec k i) as [->|Hne].
        -- rewrite Hx in Hx'. rewrite Hy in Hy'. simplify_eq. lia.
        -- specialize (Hpre i ltac:(lia)). rewrite Hx, Hy in Hpre.
           simplify_eq. lia.
      * assert (x = y) by (rewrite Z.gtb_ltb in Egt;
                           apply Z.ltb_ge in Egt; lia). subst y.
        destruct (IH (S i) c1 c2 ltac:(lia) ltac:(lia)) as (r & Hr & Hiff).
        exists r. split; [exact Hr|]. rewrite Hiff. split.
        -- intros (k & x' & y' & Hk & Hx' & Hy' & Hlt & Hpre).
           exists k, x', y'. repeat split; auto; try lia.
           intros j Hj. destruct (Nat.eq_dec j i) as [->|Hne].
           ++ now rewrite Hx, Hy.
           ++ apply Hpre. lia.
        -- intros (k & x' & y' & Hk & Hx' & Hy' & Hlt & Hpre).
           destruct (Nat.eq_dec k i) as [->|Hne].
           ++ rewrite Hx in Hx'. rewrite Hy in Hy'. simplify_eq. lia.
           ++ exists k, x', y'. repeat split; auto; try lia.
              intros j Hj. apply Hpre. lia.
Qed.

Lemma hier_lt_loop_ties : forall (n i : nat) (c1 c2 : list Z),
  length c1 = (i + n)%nat ->
  (forall j : nat, c1 !! j = c2 !! j) ->
  hier_lt_loop n i c1 c2 = Some false.
Proof.
  induction n as [|n IH]; intros i c1 c2 H1 Heq; simpl; auto.
  destruct (lookup_lt_is_Some_2 c1 i ltac:(lia)) as [x Hx].
  rewrite <- Heq, Hx.
  rewrite Z.ltb_irrefl.
  replace (x >? x) with false by (symmetry; rewrite Z.gtb_ltb; apply Z.ltb_irrefl).
  apply IH; auto. lia.
Qed.

(** *** Ordering and arithmetic of cost structures *)

(** C6. Aggregated regime: [a < b] compares the weighted scalars when both
    operands carry weights and the totals otherwise.  Hierarchical regime:
    on component vectors of the same size the comparison is the
    lexicographic order, and two structures whose components agree at every
    position are equal (neither is less than the other). *)
Theorem ordering_regimes {double : Type} (LessThan_double : double -> double -> bool)
  (a b : DefaultCostStructure double) (ha hb : HierarchicalCostStructure double) :
  (is_weighted a = true -> is_weighted b = true ->
   lt LessThan_double a b = LessThan_double (weighted a) (weighted b)) /\
  (is_weighted a = false \/ is_weighted b = false ->
   lt LessThan_double a b = (total a <? total b)) /\
  (h_size ha = h_size hb ->
   exists r : bool, h_lt ha hb = Some r /\
     (r = true <-> lex_lt_spec (h_all_components ha) (h_all_components hb))) /\
  ((forall i : nat, h_all_components ha !! i = h_all_components hb !! i) ->
   h_lt ha hb = Some false /\ h_lt hb ha = Some false).
Proof.
  repeat split.
  - intros Ha Hb. unfold lt. now rewrite Ha, Hb.
  - intros [H|H]; unfold lt, LessThan; rewrite H; simpl; auto.
    now rewrite andb_false_r.
  - intros Hsz. unfold h_lt, h_size in *.
    destruct (hier_lt_loop_spec (length (h_all_components ha)) 0
                (h_all_components ha) (h_all_components hb)) as (r & Hr & Hiff);
      [reflexivity | now rewrite Hsz |].
    exists r. split; [exact Hr|]. rewrite Hiff. unfold lex_lt_spec. split.
    + intros (k & x & y & _ & Hx & Hy & Hlt & Hpre).
      exists k, x, y. repeat split; auto. intros j Hj. apply Hpre. lia.
    + intros (k & x & y & Hx & Hy & Hlt & Hpre).
      exists k, x, y. repeat split; auto; try lia. intros j Hj. apply Hpre. lia.
  - unfold h_lt, h_size. apply hier_lt_loop_ties; auto.
  - unfold h_lt, h_size. apply hier_lt_loop_ties; auto.
Qed.

Lemma ordering_regimes_s6 :
  h_size s6_a = h_size s6_b /\
  exists r : bool, h_lt s6_a s6_b = Some r /\
    (r = true <-> lex_lt_spec (h_all_components s6_a) (h_all_components s6_b)).
Proof.
  split; [reflexivity|].
  apply (proj1 (proj2 (proj2
    (ordering_regimes (fun _ _ : unit => false) ex_cs1 ex_cs2 s6_a s6_b)))).
  reflexivity.
Defined.

(** C6, for structures with a different number of components: the
    hierarchical comparison is not the lexicographic order.  With the longer
    structure on the left the loop reads [cs2[1]], which does not exist, and
    the comparison has no result; with the shorter one on the left the
    answer is false, although the component vectors differ. *)
Lemma ordering_regimes_sizes :
  h_lt c6_long c6_short = None /\
  h_lt c6_short c6_long = Some false /\
  h_size c6_short <> h_size c6_long /\
  h_all_components c6_short <> h_all_components c6_long.
Proof. repeat split; discriminate. Qed.

(** C8. Addition is pointwise on violations, objective and components, a
    missing component counting as zero and the longer vector giving the
    size, and totals sum; [+=] and [+] agree.  With component vectors of the
    same size, [(a + b) - b] is [a], field by field. *)
Theorem add_pointwise_sub_inverse {double : Type} (a b : DefaultCostStructure double) :
  total (add a b) = total a + total b /\
  violations (add a b) = violations a + violations b /\
  objective (add a b) = objective a + objective b /\
  length (all_components (add a b)) =
    Nat.max (length (all_components a)) (length (all_components b)) /\
  (forall i : nat,
     nth i (all_components (add a b)) 0 =
     nth i (all_components a) 0 + nth i (all_components b) 0) /\
  add_assign a b = add a b /\
  (length (all_components a) = length (all_components b) ->
   sub (add a b) b = a).
Proof.
  repeat split; auto.
  - simpl. apply length_components_update.
  - intros i. simpl. apply nth_components_update; intros; lia.
  - intros Hlen. destruct a as [t v o c w iw]. unfold sub, add, sub_assign, add_assign.
    simpl in *. f_equal; try lia.
    apply components_add_sub. lia.
Qed.

Lemma add_pointwise_sub_inverse_ex :
  length (all_components ex_cs1) = length (all_components ex_cs2) /\
  sub (add ex_cs1 ex_cs2) ex_cs2 = ex_cs1.
Proof.
  split; [reflexivity|].
  apply (add_pointwise_sub_inverse ex_cs1 ex_cs2). reflexivity.
Defined.

End CostStructure.

(** ** The tabu list manager (TabuListManager.hh, TabuListItem.hh) *)

Module TabuList.

Section WithMove.

Variable Move : Type.

(** [Inverse] is pure virtual: it is supplied by the application. *)
Variable Inverse : Move -> Move -> bool.

(** [TabuListItem]: the move and the iteration at which it leaves. *)
Record TabuListItem : Type := mkItem {
  elem : Move;
  out_iter : Z
}.

(** The data members of [TabuListManager]; [min_tenure] and [max_tenure]
    are [unsigned int], [iter] is [unsigned long]. *)
Record TabuListManager : Type := mkManager {
  min_tenure : Z;
  max_tenure : Z;
  iter : Z;
  tlist : list TabuListItem;
  current_state_cost : Z;
  best_state_cost : Z
}.

Definition set_tlist (tl : TabuListManager) (l : list TabuListItem) :=
  mkManager (min_tenure tl) (max_tenure tl) (iter tl) l
            (current_state_cost tl) (best_state_cost tl).

Definition set_iter (tl : TabuListManager) (i : Z) :=
  mkManager (min_tenure tl) (max_tenure tl) i (tlist tl)
            (current_state_cost tl) (best_state_cost tl).

(** [SetLength] *)
Definition SetLength (tl : TabuListManager) (min max : Z) :=
  mkManager min max (iter tl) (tlist tl)
            (current_state_cost tl) (best_state_cost tl).

(** [Clean]: [tlist.clear(); iter = 0]. *)
Definition Clean (tl : TabuListManager) := set_iter (set_tlist tl []) 0.

(** The loop of [PurgeList]: an item with [out_iter <= iter] is erased,
    the others are kept in order. *)
Fixpoint purge (it : Z) (l : list TabuListItem) : list TabuListItem :=
  match l with
  | [] => []
  | p :: l' => if out_iter p <=? it then purge it l' else p :: purge it l'
  end.

Definition PurgeList (tl : TabuListManager) := set_tlist tl (purge (iter tl) (tlist tl)).

(** [UpdateIteration() { PurgeList(); iter++; }] *)
Definition UpdateIteration (tl : TabuListManager) :=
  let tl1 := PurgeList tl in set_iter tl1 (to_ulong (iter tl1 + 1)).

(** [InsertIntoList]; [r] is the value returned by
    [Random::Int(min_tenure, max_tenure)]. *)
Definition InsertIntoList (tl : TabuListManager) (mv : Move) (r : Z) :=
  let tenure := to_uint r in
  let li := mkItem mv (to_ulong (iter tl + tenure)) in
  let tl1 := set_tlist tl (li :: tlist tl) in
  UpdateIteration tl1.

(** [UpdateAspirationFunction] *)
Definition UpdateAspirationFunction (tl : TabuListManager) (curr_cost best_cost : Z) :=
  mkManager (min_tenure tl) (max_tenure tl) (iter tl) (tlist tl) curr_cost best_cost.

(** [InsertMove]; the state argument is not used by the manager. *)
Definition InsertMove (tl : TabuListManager) (mv : Move) (mv_cost curr best : Z) (r : Z) :=
  let tl1 := InsertIntoList tl mv r in
  UpdateAspirationFunction tl1 curr best.

(** [Aspiration], the default criterion. *)
Definition Aspiration (tl : TabuListManager) (mv_cost : Z) : bool :=
  LessThan (current_state_cost tl + mv_cost) (best_state_cost tl).

(** The loop of [ListMember]. *)
Fixpoint list_member (mv : Move) (l : list TabuListItem) : bool :=
  match l with
  | [] => false
  | p :: l' => if Inverse mv (elem p) then true else list_member mv l'
  end.

Definition ListMember (tl : TabuListManager) (mv : Move) : bool :=
  list_member mv (tlist tl).

(** [ProhibitedMove] *)
Definition ProhibitedMove (tl : TabuListManager) (mv : Move) (mv_cost : Z) : bool :=
  negb (Aspiration tl mv_cost) && ListMember tl mv.

(** [k] calls of [UpdateIteration]. *)
Definition ticks (k : nat) (tl : TabuListManager) : TabuListManager :=
  Nat.iter k UpdateIteration tl.

End WithMove.

Arguments mkItem {Move} _ _.
Arguments elem {Move} _.
Arguments out_iter {Move} _.
Arguments mkManager {Move} _ _ _ _ _ _.
Arguments min_tenure {Move} _.
Arguments max_tenure {Move} _.
Arguments iter {Move} _.
Arguments tlist {Move} _.
Arguments current_state_cost {Move} _.
Arguments best_state_cost {Move} _.
Arguments set_tlist {Move} _ _.
Arguments set_iter {Move} _ _.
Arguments SetLength {Move} _ _ _.
Arguments Clean {Move} _.
Arguments purge {Move} _ _.
Arguments PurgeList {Move} _.
Arguments UpdateIteration {Move} _.
Arguments InsertIntoList {Move} _ _ _.
Arguments UpdateAspirationFunction {Move} _ _ _.
Arguments InsertMove {Move} _ _ _ _ _ _.
Arguments Aspiration {Move} _ _.
Arguments list_member {Move} _ _ _.
Arguments ListMember {Move} _ _ _.
Arguments ProhibitedMove {Move} _ _ _ _.
Arguments ticks {Move} _ _.

(** Scenario S3 of the specification: moves are numbers, a move is
    prohibited by its own presence, the tenure is 5 and the manager has
    just been cleaned. *)
Definition s3_start : TabuListManager nat :=
  Clean (SetLength (mkManager 0 1 0 [] 0 0) 5 5).

Definition s3_inserted : TabuListManager nat := InsertMove s3_start 7%nat 0 0 0 5.

(** A manager holding one older item. *)
Definition ex_manager : TabuListManager nat :=
  mkManager 2 4 10 [mkItem 3%nat 12] 50 40.

(** *** Purging and membership *)

Lemma in_purge {Move} (it : Z) (l : list (TabuListItem Move)) p :
  In p (purge it l) <-> In p l /\ it < out_iter p.
Proof.
  induction l as [|q l IH]; simpl.
  - tauto.
  - destruct (out_iter q <=? it) eqn:E.
    + apply Z.leb_le in E. rewrite IH. split.
      * intros [H1 H2]. auto.
      * intros [[->|H1] H2]; [lia | auto].
    + apply Z.leb_gt in E. simpl. rewrite IH. split.
      * intros [->|[H1 H2]]; auto.
      * intros [[->|H1] H2]; auto.
Qed.

Lemma purge_filter {Move} (it : Z) (l : list (TabuListItem Move)) :
  purge it l = List.filter (fun p => it <? out_iter p) l.
Proof.
  induction l as [|q l IH]; simpl; auto.
  rewrite IH. destruct (out_iter q <=? it) eqn:E1, (it <? out_iter q) eqn:E2; auto.
  - apply Z.leb_le in E1. apply Z.ltb_lt in E2. lia.
  - apply Z.leb_gt in E1. apply Z.ltb_ge in E2. lia.
Qed.

Lemma purge_purge {Move} (a b : Z) (l : list (TabuListItem Move)) :
  a <= b -> purge b (purge a l) = purge b l.
Proof.
  intros Hab. induction l as [|q l IH]; simpl; auto.
  destruct (out_iter q <=? a) eqn:E1.
  - apply Z.leb_le in E1.
    replace (out_iter q <=? b) with true by (symmetry; apply Z.leb_le; lia).
    exact IH.
  - simpl. rewrite IH. reflexivity.
Qed.

Lemma list_member_true {Move} (Inverse : Move -> Move -> bool) mv l :
  list_member Inverse mv l = true <->
  exists item, In item l /\ Inverse mv (elem item) = true.
Proof.
  induction l as [|q l IH]; simpl.
  - split; [discriminate | intros (? & [] & _)].
  - destruct (Inverse mv (elem q)) eqn:E.
    + split; auto. intros _. exists q. auto.
    + rewrite IH. split.
      * intros (item & Hin & Hinv). exists item. auto.
      * intros (item & [->|Hin] & Hinv); [congruence|]. exists item. auto.
Qed.

(** [n + 1] iteration updates from a counter that does not overflow: the
    counter advances by [n + 1] and exactly the items whose expiry is
    above [iter + n] are left. *)
Lemma ticks_succ {Move} (n : nat) (tl : TabuListManager Move) :
  0 <= iter tl -> iter tl + Z.of_nat n + 1 < 2 ^ 64 ->
  ticks (S n) tl =
  mkManager (min_tenure tl) (max_tenure tl) (iter tl + Z.of_nat n + 1)
            (purge (iter tl + Z.of_nat n) (tlist tl))
            (current_state_cost tl) (best_state_cost tl).
Proof.
  induction n as [|n IH]; intros H0 Hov.
  - unfold ticks. simpl. unfold UpdateIteration, PurgeList, set_iter, set_tlist. simpl.
    rewrite to_ulong_small by lia.
    rewrite Z.add_0_r. reflexivity.
  - unfold ticks in *. rewrite Nat.iter_succ. rewrite IH by lia.
    unfold UpdateIteration, PurgeList, set_iter, set_tlist. simpl.
    rewrite to_ulong_small by lia.
    rewrite purge_purge by lia.
    f_equal; try lia. f_equal. lia.
Qed.

Lemma ticks_UpdateAspirationFunction {Move} (k : nat) (tl : TabuListManager Move) c b :
  ticks k (UpdateAspirationFunction tl c b) = UpdateAspirationFunction (ticks k tl) c b.
Proof.
  induction k as [|k IH]; unfold ticks in *; simpl.
  - reflexivity.
  - rewrite IH. reflexivity.
Qed.

(** An insertion followed by [k] iteration updates. *)
Lemma insert_then_ticks {Move} (tl : TabuListManager Move) mv mv_cost curr best r (k : nat) :
  0 <= iter tl -> 0 <= r < 2 ^ 32 -> iter tl + Z.of_nat k + 1 < 2 ^ 64 ->
  iter tl + r < 2 ^ 64 ->
  ticks k (InsertMove tl mv mv_cost curr best r) =
  mkManager (min_tenure tl) (max_tenure tl) (iter tl + Z.of_nat k + 1)
            (purge (iter tl + Z.of_nat k) (mkItem mv (iter tl + r) :: tlist tl))
            curr best.
Proof.
  intros H0 Hr Hov Hov'.
  unfold InsertMove. rewrite ticks_UpdateAspirationFunction.
  unfold InsertIntoList.
  unfold ticks at 1. rewrite <- Nat.iter_succ_r.
  change (Nat.iter (S k) UpdateIteration ?x) with (ticks (S k) x).
  rewrite ticks_succ by (simpl; lia).
  unfold UpdateAspirationFunction, set_tlist. simpl.
  rewrite to_uint_small by lia. rewrite to_ulong_small by lia.
  reflexivity.
Qed.

(** *** Prohibition, aspiration and tenure *)

(** C1 (as amended).  A move [m] is inserted when the internal iteration is
    [t], with drawn tenure [r]; the expiry of its item is [t + r].  The
    insertion itself advances the internal iteration to [t + 1].  After [k]
    further iteration updates the internal iteration is [t + 1 + k]; absent
    aspiration, a move whose [Inverse] matches [m] is prohibited for every
    [k < r], that is at the internal iterations [t + 1 .. t + r].  After [r]
    updates, at internal iteration [t + r + 1], the item has been removed
    together with every item whose expiry is at most [t + r], and the move
    is not prohibited unless another remaining item matches it. *)
Theorem tabu_window {Move : Type} (Inverse : Move -> Move -> bool)
  (tl : TabuListManager Move) (m mv : Move) (m_cost mv_cost curr best r : Z) (k : nat) :
  0 <= iter tl -> 0 <= r < 2 ^ 32 -> iter tl + r + 1 < 2 ^ 64 ->
  Inverse mv m = true ->
  ~ curr + mv_cost < best ->
  Z.of_nat k <= r ->
  let tl_k := ticks k (InsertMove tl m m_cost curr best r) in
  iter tl_k = iter tl + 1 + Z.of_nat k /\
  (Z.of_nat k < r -> ProhibitedMove Inverse tl_k mv mv_cost = true) /\
  (Z.of_nat k = r ->
   (forall p, In p (tlist tl_k) -> In p (tlist tl) /\ iter tl + r < out_iter p) /\
   ((forall p, In p (tlist tl) -> iter tl + r < out_iter p ->
               Inverse mv (elem p) = false) ->
    ProhibitedMove Inverse tl_k mv mv_cost = false)).
Proof.
  intros H0 Hr Hov Hinv Hasp Hk tl_k.
  assert (Heq : tl_k =
    mkManager (min_tenure tl) (max_tenure tl) (iter tl + Z.of_nat k + 1)
      (purge (iter tl + Z.of_nat k) (mkItem m (iter tl + r) :: tlist tl)) curr best)
    by (unfold tl_k; apply insert_then_ticks; lia).
  clearbody tl_k. subst tl_k.
  assert (Hno : (curr + mv_cost <? best) = false) by (apply Z.ltb_ge; lia).
  unfold ProhibitedMove, Aspiration, LessThan, ListMember.
  cbn [tlist iter current_state_cost best_state_cost]. rewrite Hno.
  split; [lia|]. split.
  - intros Hlt. simpl negb. rewrite andb_true_l. apply list_member_true.
    exists (mkItem m (iter tl + r)). split; [|exact Hinv].
    apply in_purge. split; [left; reflexivity|]. simpl. lia.
  - intros Hkr. split.
    + intros p Hp. apply in_purge in Hp. destruct Hp as [[<-|Hin] Hout].
      * simpl in Hout. lia.
      * split; [exact Hin|lia].
    + intros Hothers. simpl negb. rewrite andb_true_l.
      match goal with |- ?b = false => destruct b eqn:E; [|reflexivity] end.
      apply list_member_true in E. destruct E as (p & Hp & Hpinv).
      apply in_purge in Hp. destruct Hp as [[<-|Hin] Hout].
      * simpl in Hout. lia.
      * rewrite (Hothers p Hin) in Hpinv by lia. discriminate.
Qed.

(** Scenario S3 through the theorem: after the insertion and five updates
    the counter is 6 and the move is free again. *)
Lemma tabu_window_s3 :
  iter (ticks 5 s3_inserted) = 6 /\
  ProhibitedMove Nat.eqb (ticks 5 s3_inserted) 7%nat 0 = false.
Proof.
  pose proof (tabu_window Nat.eqb s3_start 7%nat 7%nat 0 0 0 0 5 5) as H.
  assert (H1 : 0 <= iter s3_start) by (vm_compute; discriminate).
  assert (H2 : 0 <= 5 < 2 ^ 32) by lia.
  assert (H3 : iter s3_start + 5 + 1 < 2 ^ 64) by (vm_compute; reflexivity).
  assert (H4 : Nat.eqb 7 7 = true) by reflexivity.
  assert (H5 : ~ 0 + 0 < 0) by lia.
  assert (H6 : Z.of_nat 5 <= 5) by lia.
  destruct (H H1 H2 H3 H4 H5 H6) as (Hiter & _ & Hfree).
  split; [exact Hiter|].
  apply (proj2 (Hfree eq_refl)). intros p [].
Defined.

(** Scenario S3 counted in iteration updates after the insertion. *)
Example s3_sequence :
  map (fun k => ProhibitedMove Nat.eqb (ticks k s3_inserted) 7%nat 0)
      [0; 1; 2; 3; 4; 5]%nat
  = [true; true; true; true; true; false] /\
  map (fun k => iter (ticks k s3_inserted)) [0; 1; 2; 3; 4; 5]%nat
  = [1; 2; 3; 4; 5; 6].
Proof. vm_compute. split; reflexivity. Qed.

(** C1 as stated fails: in scenario S3 the move is inserted at internal
    iteration 0 with tenure 5 (expiry 5); when the internal iteration is
    [0 + 5] aspiration does not hold and the move is still prohibited. *)
Lemma tabu_window_shifted :
  iter s3_start = 0 /\
  tlist s3_inserted = [mkItem 7%nat (0 + 5)] /\
  iter (ticks 4 s3_inserted) = 0 + 5 /\
  Aspiration (ticks 4 s3_inserted) 0 = false /\
  ProhibitedMove Nat.eqb (ticks 4 s3_inserted) 7%nat 0 = true.
Proof. vm_compute. repeat split. Qed.

(** C5. When the current cost plus the move cost is below the recorded best
    cost, [ProhibitedMove] answers [false] whatever the list holds;
    otherwise it answers [true] exactly when some item of the list is an
    inverse of the move. *)
Theorem ProhibitedMove_aspiration {Move : Type} (Inverse : Move -> Move -> bool)
  (tl : TabuListManager Move) (mv : Move) (mv_cost : Z) :
  (current_state_cost tl + mv_cost < best_state_cost tl ->
   ProhibitedMove Inverse tl mv mv_cost = false) /\
  (~ current_state_cost tl + mv_cost < best_state_cost tl ->
   (ProhibitedMove Inverse tl mv mv_cost = true <->
    exists item, In item (tlist tl) /\ Inverse mv (elem item) = true)).
Proof.
  unfold ProhibitedMove, Aspiration, LessThan, ListMember. split.
  - intros H. apply Z.ltb_lt in H. now rewrite H.
  - intros H. apply Z.ltb_nlt in H. rewrite H. simpl.
    apply list_member_true.
Qed.

Lemma ProhibitedMove_aspiration_ex :
  ProhibitedMove Nat.eqb ex_manager 3%nat (-20) = false /\
  (ProhibitedMove Nat.eqb ex_manager 3%nat 0 = true <->
   exists item, In item (tlist ex_manager) /\ Nat.eqb 3 (elem item) = true).
Proof.
  split.
  - apply (proj1 (ProhibitedMove_aspiration Nat.eqb ex_manager 3%nat (-20))).
    vm_compute. reflexivity.
  - apply (proj2 (ProhibitedMove_aspiration Nat.eqb ex_manager 3%nat 0)).
    vm_compute. discriminate.
Defined.

(** C10. [InsertMove] pushes the new item, whose expiry is the current
    iteration plus the drawn tenure, in front of the list, then runs one
    iteration update: every item whose expiry is at most the current
    iteration is erased and the counter is incremented; finally the current
    and best costs are recorded for the aspiration test. *)
Theorem InsertMove_acts_as_tick {Move : Type} (tl : TabuListManager Move)
  (mv : Move) (mv_cost curr best r : Z) :
  let li := mkItem mv (to_ulong (iter tl + to_uint r)) in
  let tl' := InsertMove tl mv mv_cost curr best r in
  tl' = UpdateAspirationFunction
          (UpdateIteration (set_tlist tl (li :: tlist tl))) curr best /\
  tlist tl' = List.filter (fun p => iter tl <? out_iter p) (li :: tlist tl) /\
  (forall p, In p (tlist tl') <-> In p (li :: tlist tl) /\ ~ out_iter p <= iter tl) /\
  iter tl' = to_ulong (iter tl + 1) /\
  current_state_cost tl' = curr /\ best_state_cost tl' = best /\
  (forall c, Aspiration tl' c = (curr + c <? best)) /\
  min_tenure tl' = min_tenure tl /\ max_tenure tl' = max_tenure tl /\
  (0 <= iter tl -> iter tl + 1 < 2 ^ 64 -> 0 <= r < 2 ^ 32 -> iter tl + r < 2 ^ 64 ->
   out_iter li = iter tl + r /\ iter tl' = iter tl + 1).
Proof.
  intros li tl'.
  assert (Hl : tlist tl' = purge (iter tl) (li :: tlist tl)) by reflexivity.
  split; [reflexivity|].
  split; [rewrite Hl; apply purge_filter|].
  split.
  { intros p. rewrite Hl, in_purge. split; intros [Hp Hout]; split; auto; lia. }
  split; [reflexivity|].
  split; [reflexivity|].
  split; [reflexivity|].
  split; [intros c; reflexivity|].
  split; [reflexivity|].
  split; [reflexivity|].
  intros H0 H1 Hr Hov. split.
  - simpl. rewrite to_uint_small by lia. apply to_ulong_small. lia.
  - change (iter tl') with (to_ulong (iter tl + 1)). apply to_ulong_small. lia.
Qed.

Lemma InsertMove_acts_as_tick_ex :
  out_iter (mkItem 9%nat (to_ulong (iter ex_manager + to_uint 3))) = iter ex_manager + 3 /\
  iter (InsertMove ex_manager 9%nat 0 45 40 3) = iter ex_manager + 1.
Proof.
  apply (InsertMove_acts_as_tick ex_manager 9%nat 0 45 40 3); vm_compute;
    try discriminate; try reflexivity; split; try discriminate; reflexivity.
Defined.

End TabuList.

(** ** Simulated annealing runners
    (SimulatedAnnealing.hh, SimulatedAnnealingWithReheating.hh) *)

Module Annealing.

Section WithDouble.

(** Temperatures are [double]; the type and its product are abstract. *)
Variable double : Type.
Variable dmul : double -> double -> double.

(** The data members the cooling schedule reads and writes; the four
    counters are [unsigned int].  [number_of_iterations] is the counter of
    the base class [MoveRunner]. *)
Record Runner : Type := mkRunner {
  temperature : double;
  cooling_rate : double;
  max_neighbors_sampled : Z;
  neighbors_sampled : Z;
  max_neighbors_accepted : Z;
  neighbors_accepted : Z;
  number_of_iterations : Z
}.

(** [SelectMove]: a random move is drawn and evaluated (neither touches the
    schedule), then [neighbors_sampled++]. *)
Definition SelectMove (s : Runner) : Runner :=
  mkRunner (temperature s) (cooling_rate s)
    (max_neighbors_sampled s) (to_uint (neighbors_sampled s + 1))
    (max_neighbors_accepted s) (neighbors_accepted s) (number_of_iterations s).

(** [neighbors_accepted++] *)
Definition count_accepted (s : Runner) : Runner :=
  mkRunner (temperature s) (cooling_rate s)
    (max_neighbors_sampled s) (neighbors_sampled s)
    (max_neighbors_accepted s) (to_uint (neighbors_accepted s + 1))
    (number_of_iterations s).

(** The block guarded by the threshold test, the same in both runners:
    [temperature *= cooling_rate; neighbors_sampled = 0;
    neighbors_accepted = 0]. *)
Definition cooling_check (s : Runner) : Runner :=
  if (neighbors_sampled s =? max_neighbors_sampled s)
     || (neighbors_accepted s =? max_neighbors_accepted s)
  then mkRunner (dmul (temperature s) (cooling_rate s)) (cooling_rate s)
         (max_neighbors_sampled s) 0 (max_neighbors_accepted s) 0
         (number_of_iterations s)
  else s.

(** [SimulatedAnnealing::CompleteMove] *)
Definition CompleteMove (s : Runner) : Runner :=
  cooling_check (count_accepted s).

(** [SimulatedAnnealingWithReheating::CompleteMove] *)
Definition Reheating_CompleteMove (s : Runner) : Runner := count_accepted s.

(** Modelled from the spec: [MoveRunner::UpdateIterationCounter] is not
    part of the sources; step 5 of the iteration is "iteration += 1". *)
Definition MoveRunner_UpdateIterationCounter (s : Runner) : Runner :=
  mkRunner (temperature s) (cooling_rate s)
    (max_neighbors_sampled s) (neighbors_sampled s)
    (max_neighbors_accepted s) (neighbors_accepted s)
    (number_of_iterations s + 1).

(** [SimulatedAnnealingWithReheating::UpdateIterationCounter] *)
Definition Reheating_UpdateIterationCounter (s : Runner) : Runner :=
  cooling_check (MoveRunner_UpdateIterationCounter s).

(** Modelled from the spec: the iteration of the runner loop
    ([MoveRunner::Go] is not part of the sources).  Section 4.6: 1. the
    move is selected; 2. its acceptability is tested; 3. if it is accepted
    it is applied, which writes the state, its cost and the best state,
    none of them part of the schedule; 4. the completion hook runs;
    5. the iteration counter is updated.  [accepted] is the verdict of
    [AcceptableMove].  The three hooks are the ones the annealing runners
    override. *)
Definition iteration (select complete update : Runner -> Runner)
  (accepted : bool) (s : Runner) : Runner :=
  let s1 := select s in
  (* steps 2 and 3 leave the schedule as it is, whatever [accepted] *)
  let s4 := complete s1 in
  update s4.

(** One iteration of [SimulatedAnnealing]: it does not override the
    iteration counter update. *)
Definition SimulatedAnnealing_iteration :=
  iteration SelectMove CompleteMove MoveRunner_UpdateIterationCounter.

(** One iteration of [SimulatedAnnealingWithReheating]. *)
Definition Reheating_iteration :=
  iteration SelectMove Reheating_CompleteMove Reheating_UpdateIterationCounter.

End WithDouble.

Arguments mkRunner {double} _ _ _ _ _ _ _.
Arguments temperature {double} _.
Arguments cooling_rate {double} _.
Arguments max_neighbors_sampled {double} _.
Arguments neighbors_sampled {double} _.
Arguments max_neighbors_accepted {double} _.
Arguments neighbors_accepted {double} _.
Arguments number_of_iterations {double} _.
Arguments SelectMove {double} _.
Arguments count_accepted {double} _.
Arguments cooling_check {double} _ _.
Arguments CompleteMove {double} _ _.
Arguments Reheating_CompleteMove {double} _.
Arguments MoveRunner_UpdateIterationCounter {double} _.
Arguments Reheating_UpdateIterationCounter {double} _ _.
Arguments SimulatedAnnealing_iteration {double} _ _ _.
Arguments Reheating_iteration {double} _ _ _.

(** *** The cooling step *)

(** What the guarded block does, in both runners. *)
Lemma cooling_check_spec {double : Type} (dmul : double -> double -> double)
  (s : Runner double) :
  (neighbors_sampled s = max_neighbors_sampled s \/
   neighbors_accepted s = max_neighbors_accepted s ->
   temperature (cooling_check dmul s) = dmul (temperature s) (cooling_rate s) /\
   neighbors_sampled (cooling_check dmul s) = 0 /\
   neighbors_accepted (cooling_check dmul s) = 0) /\
  (neighbors_sampled s <> max_neighbors_sampled s /\
   neighbors_accepted s <> max_neighbors_accepted s ->
   cooling_check dmul s = s).
Proof.
  unfold cooling_check. split.
  - intros [H|H].
    + apply Z.eqb_eq in H. rewrite H. simpl. auto.
    + apply Z.eqb_eq in H. rewrite H, orb_true_r. simpl. auto.
  - intros [H1 H2]. apply Z.eqb_neq in H1, H2. now rewrite H1, H2.
Qed.

(** [SimulatedAnnealing::CompleteMove] counts the accepted neighbor, then
    runs the guarded block on the updated counters. *)
Lemma CompleteMove_spec {double : Type} (dmul : double -> double -> double)
  (s : Runner double) :
  let na := to_uint (neighbors_accepted s + 1) in
  (neighbors_sampled s = max_neighbors_sampled s \/ na = max_neighbors_accepted s ->
   temperature (CompleteMove dmul s) = dmul (temperature s) (cooling_rate s) /\
   neighbors_sampled (CompleteMove dmul s) = 0 /\
   neighbors_accepted (CompleteMove dmul s) = 0) /\
  (neighbors_sampled s <> max_neighbors_sampled s /\ na <> max_neighbors_accepted s ->
   CompleteMove dmul s = count_accepted s).
Proof.
  intros na. unfold CompleteMove.
  destruct (cooling_check_spec dmul (count_accepted s)) as [H1 H2]. split.
  - intros H. apply H1. exact H.
  - intros H. apply H2. exact H.
Qed.

(** C7. In an iteration of either annealing runner the two counters are
    incremented ([neighbors_sampled] by [SelectMove], [neighbors_accepted]
    by [CompleteMove]) and the threshold test is evaluated once, on the
    incremented counters, whatever the verdict on the move: when either
    counter equals its maximum the temperature is multiplied by the cooling
    rate and both counters are reset to zero, and otherwise the temperature
    is kept.  [SimulatedAnnealing] runs the test in [CompleteMove], the
    runner with reheating in [UpdateIterationCounter]; the iterations of
    the two runners end in the same schedule. *)
Theorem iteration_cooling_check {double : Type} (dmul : double -> double -> double)
  (accepted : bool) (s : Runner double) :
  let ns := to_uint (neighbors_sampled s + 1) in
  let na := to_uint (neighbors_accepted s + 1) in
  let s' := SimulatedAnnealing_iteration dmul accepted s in
  Reheating_iteration dmul accepted s = s' /\
  (ns = max_neighbors_sampled s \/ na = max_neighbors_accepted s ->
   temperature s' = dmul (temperature s) (cooling_rate s) /\
   neighbors_sampled s' = 0 /\ neighbors_accepted s' = 0) /\
  (ns <> max_neighbors_sampled s /\ na <> max_neighbors_accepted s ->
   temperature s' = temperature s /\
   neighbors_sampled s' = ns /\ neighbors_accepted s' = na) /\
  cooling_rate s' = cooling_rate s /\
  max_neighbors_sampled s' = max_neighbors_sampled s /\
  max_neighbors_accepted s' = max_neighbors_accepted s /\
  number_of_iterations s' = number_of_iterations s + 1.
Proof.
  intros ns na s'.
  unfold s', Reheating_iteration, SimulatedAnnealing_iteration, iteration,
    Reheating_UpdateIterationCounter, CompleteMove, Reheating_CompleteMove.
  destruct (cooling_check_spec dmul (count_accepted (SelectMove s))) as [Hcool Hkeep].
  cbn [count_accepted SelectMove neighbors_sampled neighbors_accepted
       max_neighbors_sampled max_neighbors_accepted temperature cooling_rate]
    in Hcool, Hkeep.
  fold ns na in Hcool, Hkeep.
  assert (Hsame : cooling_check dmul
                    (MoveRunner_UpdateIterationCounter (count_accepted (SelectMove s)))
                  = MoveRunner_UpdateIterationCounter
                      (cooling_check dmul (count_accepted (SelectMove s)))).
  { unfold cooling_check, MoveRunner_UpdateIterationCounter.
    cbn [count_accepted SelectMove neighbors_sampled neighbors_accepted
         max_neighbors_sampled max_neighbors_accepted temperature cooling_rate
         number_of_iterations].
    destruct ((to_uint (neighbors_sampled s + 1) =? max_neighbors_sampled s)
              || (to_uint (neighbors_accepted s + 1) =? max_neighbors_accepted s));
      reflexivity. }
  destruct accepted; (split; [exact Hsame|]);
    (split; [intros H; destruct (Hcool H) as (H1 & H2 & H3); cbn; auto|]);
    (split; [intros H; rewrite (Hkeep H); cbn; auto|]);
    unfold cooling_check;
    destruct ((neighbors_sampled (count_accepted (SelectMove s))
               =? max_neighbors_sampled (count_accepted (SelectMove s)))
              || (neighbors_accepted (count_accepted (SelectMove s))
                  =? max_neighbors_accepted (count_accepted (SelectMove s))));
    cbn; auto.
Qed.

End Annealing.

(** ** Multi-modal neighborhood explorers (multimodalneighborhoodexplorer.hh) *)

Module MultiModal.

(** What a call on behalf of a composite explorer ends in: a frame to go on
    from, or the end of the call. *)
Inductive outcome (A : Type) : Type :=
| Returned (moves : A)
| EmptyNeighborhood
| LogicError.

Arguments Returned {A} _.
Arguments EmptyNeighborhood {A}.
Arguments LogicError {A}.

(** The three places where the loops of [FirstMove] and [RandomMove] are
    cut into steps: the label [loop:], the test of the [while] that follows
    the generation of a move, and the body of the [do ... while] of the
    backtracking branch. *)
Inductive label : Type := AtLoop | AtWhile | AtDoWhile.

(** Iteration of a step function, bounded by [fuel]; [None] when the fuel
    runs out before the call ends. *)
Fixpoint run {C A : Type} (step : C -> C + outcome A) (fuel : nat) (c : C)
  : option (outcome A) :=
  match fuel with
  | O => None
  | S fuel' =>
      match step c with
      | inl c' => run step fuel' c'
      | inr o => Some o
      end
  end.

(** A dispatch on a tuple position that does not exist is a
    [std::logic_error]. *)
Definition dispatch {A B C : Type} (o : option A) (k : A -> B + outcome C)
  : B + outcome C :=
  match o with
  | Some a => k a
  | None => inr LogicError
  end.

Notation "x <-? o ; k" := (dispatch o (fun x => k))
  (at level 200, o at level 100, k at level 200, right associativity).

Section WithTypes.

(** The input is immutable and the same in every call: the explorers are
    taken with it applied.  [Rng] is the state of the random source. *)
Variables State Move Weights Rng double : Type.

(** [operator==] of the move type. *)
Variable Move_eqb : Move -> Move -> bool.

(** The default-constructed move. *)
Variable default_move : Move.

Variable dzero : double.

Definition Cost : Type := CostStructure.DefaultCostStructure double.

(** [ActiveMove<Move>]: the move and its [active] flag. *)
Record ActiveMove : Type := mkActive {
  raw : Move;
  active : bool
}.

(** [operator==] on [ActiveMove]. *)
Definition ActiveMove_eqb (mv1 mv2 : ActiveMove) : bool :=
  if negb (active mv1) && negb (active mv2) then true
  else if negb (eqb (active mv1) (active mv2)) then false
  else Move_eqb (raw mv1) (raw mv2).

(** The interface of a base neighborhood explorer.  [FirstMove] and
    [RandomMove] answer [None] when they throw [EmptyNeighborhood] (the
    move is then never read again before it is generated anew);
    [NextMove] returns its verdict and the move it leaves. *)
Record NeighborhoodExplorer : Type := mkExplorer {
  FirstMove : State -> Move -> option Move;
  NextMove : State -> Move -> bool * Move;
  RandomMove : State -> Move -> Rng -> option Move * Rng;
  MakeMove : State -> Move -> State;
  DeltaCostFunctionComponents : State -> Move -> Weights -> Cost
}.

(** The base explorers of the composite, in tuple order. *)
Variable nhes : list NeighborhoodExplorer.

(** [Modality()] *)
Definition Modality : nat := length nhes.

(** [MoveDispatcher::set_activity_at] *)
Definition set_activity_at (level : nat) (moves : list ActiveMove) (value : bool)
  : list ActiveMove :=
  alter (fun m => mkActive (raw m) value) level moves.

(** The effect of a base call on the move of its level: the payload is
    rewritten, the flag is not touched. *)
Definition set_move_at (level : nat) (moves : list ActiveMove) (m : Move)
  : list ActiveMove :=
  alter (fun am => mkActive m (active am)) level moves.

(** [MoveDispatcher::get_first_active] *)
Fixpoint get_first_active (moves : list ActiveMove) (level : nat) : option nat :=
  match moves with
  | [] => None
  | this_move :: moves_tail =>
      if active this_move then Some level
      else get_first_active moves_tail (S level)
  end.

(** [MoveDispatcher::equal_at] *)
Definition equal_at (level : nat) (moves_1 moves_2 : list ActiveMove) : option bool :=
  match moves_1 !! level, moves_2 !! level with
  | Some this_move_1, Some this_move_2 => Some (ActiveMove_eqb this_move_1 this_move_2)
  | _, _ => None
  end.

(** [MoveDispatcher::copy_move_at]: both [this_target] and [this_source]
    are taken from [target]. *)
Definition copy_move_at (level : nat) (target source : list ActiveMove)
  : list ActiveMove :=
  match target !! level with
  | Some this_source => <[level := this_source]> target
  | None => target
  end.

(** *** SetUnion *)

(** [SetUnionNeighborhoodExplorer::MakeMove] *)
Definition SetUnion_MakeMove (st : State) (moves : list ActiveMove) : option State :=
  match get_first_active moves 0 with
  | Some i =>
      match nhes !! i, moves !! i with
      | Some ne, Some m => Some (MakeMove ne st (raw m))
      | _, _ => None
      end
  | None => None
  end.

(** [SetUnionNeighborhoodExplorer::DeltaCostFunctionComponents] *)
Definition SetUnion_DeltaCostFunctionComponents (st : State)
  (moves : list ActiveMove) (weights : Weights) : option Cost :=
  match get_first_active moves 0 with
  | Some i =>
      match nhes !! i, moves !! i with
      | Some ne, Some m => Some (DeltaCostFunctionComponents ne st (raw m) weights)
      | _, _ => None
      end
  | None => None
  end.

(** *** CartesianProduct *)

(** The entries of [related_funcs] for the move types of the levels [i]
    and [i + 1]: the stateless predicate and the one that reads the
    state. *)
Variable related_funcs : nat -> option (Move -> Move -> bool).
Variable related_state_funcs : nat -> option (State -> Move -> Move -> bool).

(** [MoveDispatcher::are_related] *)
Definition are_related (level : nat) (state : State) (moves : list ActiveMove)
  : option bool :=
  match moves !! level, moves !! S level with
  | Some this_move, Some next_move =>
      Some match related_funcs level, related_state_funcs level with
           | None, None => true
           | Some f, _ => f (raw this_move) (raw next_move)
           | None, Some g => g state (raw this_move) (raw next_move)
           end
  | _, _ => None
  end.

(** The local variables shared by the loops of [FirstMove] and
    [RandomMove]. *)
Record frame : Type := mkFrame {
  cur : Z;
  backtracking : bool;
  moves : list ActiveMove;
  states : list State;
  at_label : label
}.

Definition level (c : frame) : nat := Z.to_nat (cur c).

(** [states[cur] = cur > 0 ? states[cur - 1] : st] *)
Definition reset_state (st : State) (c : frame) : option (list State) :=
  if 0 <? cur c
  then match states c !! (level c - 1)%nat with
       | Some s => Some (<[level c := s]> (states c))
       | None => None
       end
  else Some (<[level c := st]> (states c)).

(** [backtracking = true; set_activity_at(cur, r_moves, false); cur--;
    goto loop] *)
Definition backtrack (c : frame) : frame :=
  mkFrame (cur c - 1) true (set_activity_at (level c) (moves c) false)
          (states c) AtLoop.

(** [backtracking = false;] the base [MakeMove] on [states[cur]];
    [set_activity_at(cur, r_moves, true); cur++; goto loop] *)
Definition advance {A : Type} (c : frame) : frame + outcome A :=
  ne <-? nhes !! level c;
  m <-? moves c !! level c;
  s <-? states c !! level c;
  inl (mkFrame (cur c + 1) false (set_activity_at (level c) (moves c) true)
               (<[level c := MakeMove ne s (raw m)]> (states c)) AtLoop).

(** [cur > 0 && !are_related(cur - 1, in, states[cur - 1], r_moves,
    related_funcs)] *)
Definition not_related (c : frame) : option bool :=
  if 0 <? cur c
  then match states c !! (level c - 1)%nat with
       | Some s => negb <$> are_related (level c - 1) s (moves c)
       | None => None
       end
  else Some false.

(** One step of [CartesianProductNeighborhoodExplorer::FirstMove]. *)
Definition FirstMove_step (st : State) (c : frame)
  : frame + outcome (list ActiveMove) :=
  match at_label c with
  | AtLoop =>
      if cur c <? Z.of_nat Modality then
        if cur c =? -1 then inr EmptyNeighborhood
        else
          states1 <-? reset_state st c;
          if negb (backtracking c) then
            ne <-? nhes !! level c;
            m <-? moves c !! level c;
            match FirstMove ne st (raw m) with
            | Some m' =>
                inl (mkFrame (cur c) (backtracking c)
                             (set_move_at (level c) (moves c) m') states1 AtWhile)
            | None =>
                inl (backtrack (mkFrame (cur c) (backtracking c) (moves c)
                                        states1 AtLoop))
            end
          else inl (mkFrame (cur c) (backtracking c) (moves c) states1 AtDoWhile)
      else inr (Returned (moves c))
  | AtWhile =>
      g <-? not_related c;
      if (g : bool) then
        ne <-? nhes !! level c;
        m <-? moves c !! level c;
        s <-? states c !! level c;
        let (ok, m') := NextMove ne s (raw m) in
        let c1 := mkFrame (cur c) (backtracking c)
                          (set_move_at (level c) (moves c) m') (states c) AtWhile in
        if ok then inl c1 else inl (backtrack c1)
      else advance c
  | AtDoWhile =>
      ne <-? nhes !! level c;
      m <-? moves c !! level c;
      s <-? states c !! level c;
      let (ok, m') := NextMove ne s (raw m) in
      let c1 := mkFrame (cur c) (backtracking c)
                        (set_move_at (level c) (moves c) m') (states c) AtDoWhile in
      if ok then
        g <-? not_related c1;
        if (g : bool) then inl c1 else advance c1
      else inl (backtrack c1)
  end.

(** [std::vector<State> states(length, st); long cur = 0;
    bool backtracking = false;] *)
Definition initial_frame (st : State) (moves0 : list ActiveMove) : frame :=
  mkFrame 0 false moves0 (replicate Modality st) AtLoop.

(** [CartesianProductNeighborhoodExplorer::FirstMove] *)
Definition CartesianProduct_FirstMove (fuel : nat) (st : State)
  (moves0 : list ActiveMove) : option (outcome (list ActiveMove)) :=
  run (FirstMove_step st) fuel (initial_frame st moves0).

(** The further local variables of [RandomMove], and the random source. *)
Record random_frame : Type := mkRandomFrame {
  base : frame;
  initial_moves : list ActiveMove;
  initial_set : list bool;
  rng : Rng
}.

(** The step that follows a [NextMove] (and, after the last move, the
    [FirstMove] that wraps around) in [RandomMove]: the wrap-around test
    [equal_at(cur, r_moves, r_initial_moves)], then the relatedness test of
    the loop the step belongs to. *)
Definition after_next (c1 : frame) (r : random_frame) (in_do_while : bool)
  : random_frame + outcome (list ActiveMove) :=
  e <-? equal_at (level c1) (moves c1) (initial_moves r);
  if (e : bool) then
    inl (mkRandomFrame (backtrack c1) (initial_moves r) (initial_set r) (rng r))
  else if in_do_while then
    g <-? not_related c1;
    if (g : bool) then
      inl (mkRandomFrame c1 (initial_moves r) (initial_set r) (rng r))
    else
      match advance c1 with
      | inl c2 => inl (mkRandomFrame c2 (initial_moves r) (initial_set r) (rng r))
      | inr o => inr o
      end
  else inl (mkRandomFrame c1 (initial_moves r) (initial_set r) (rng r)).

(** One step of [CartesianProductNeighborhoodExplorer::RandomMove]. *)
Definition RandomMove_step (st : State) (r : random_frame)
  : random_frame + outcome (list ActiveMove) :=
  let c := base r in
  match at_label c with
  | AtLoop =>
      if cur c <? Z.of_nat Modality then
        if cur c =? -1 then inr EmptyNeighborhood
        else
          states1 <-? reset_state st c;
          if negb (backtracking c) then
            ne <-? nhes !! level c;
            m <-? moves c !! level c;
            c_cur_st <-? states1 !! level c;
            match RandomMove ne c_cur_st (raw m) (rng r) with
            | (Some m', rng') =>
                let moves1 := set_move_at (level c) (moves c) m' in
                is_set <-? initial_set r !! level c;
                let initial_moves1 :=
                  if negb is_set
                  then copy_move_at (level c) (initial_moves r) moves1
                  else initial_moves r in
                let initial_set1 :=
                  if negb is_set
                  then <[level c := true]> (initial_set r)
                  else initial_set r in
                inl (mkRandomFrame
                       (mkFrame (cur c) (backtracking c) moves1 states1 AtWhile)
                       initial_moves1 initial_set1 rng')
            | (None, rng') =>
                inl (mkRandomFrame
                       (backtrack (mkFrame (cur c) (backtracking c) (moves c)
                                           states1 AtLoop))
                       (initial_moves r) (initial_set r) rng')
            end
          else
            inl (mkRandomFrame
                   (mkFrame (cur c) (backtracking c) (moves c) states1 AtDoWhile)
                   (initial_moves r) (initial_set r) (rng r))
      else inr (Returned (moves c))
  | AtWhile =>
      g <-? not_related c;
      if (g : bool) then
        ne <-? nhes !! level c;
        m <-? moves c !! level c;
        s <-? states c !! level c;
        let (ok, m') := NextMove ne s (raw m) in
        if ok then
          after_next (mkFrame (cur c) (backtracking c)
                              (set_move_at (level c) (moves c) m') (states c) AtWhile)
                     r false
        else
          match FirstMove ne st m' with
          | Some m'' =>
              after_next (mkFrame (cur c) (backtracking c)
                                  (set_move_at (level c) (moves c) m'') (states c)
                                  AtWhile)
                         r false
          | None =>
              inl (mkRandomFrame
                     (backtrack (mkFrame (cur c) (backtracking c)
                                         (set_move_at (level c) (moves c) m')
                                         (states c) AtLoop))
                     (initial_moves r) (initial_set r) (rng r))
          end
      else
        match advance c with
        | inl c2 => inl (mkRandomFrame c2 (initial_moves r) (initial_set r) (rng r))
        | inr o => inr o
        end
  | AtDoWhile =>
      ne <-? nhes !! level c;
      m <-? moves c !! level c;
      s <-? states c !! level c;
      let (ok, m') := NextMove ne s (raw m) in
      if ok then
        after_next (mkFrame (cur c) (backtracking c)
                            (set_move_at (level c) (moves c) m') (states c) AtDoWhile)
                   r true
      else
        match FirstMove ne st m' with
        | Some m'' =>
            after_next (mkFrame (cur c) (backtracking c)
                                (set_move_at (level c) (moves c) m'') (states c)
                                AtDoWhile)
                       r true
        | None => inr EmptyNeighborhood
        end
  end.

(** [typename Super::Moves initial_moves;
    std::vector<bool> initial_set(length, false);] *)
Definition initial_random_frame (st : State) (moves0 : list ActiveMove) (g : Rng)
  : random_frame :=
  mkRandomFrame (initial_frame st moves0)
                (replicate Modality (mkActive default_move false))
                (replicate Modality false) g.

(** [CartesianProductNeighborhoodExplorer::RandomMove] *)
Definition CartesianProduct_RandomMove (fuel : nat) (st : State)
  (moves0 : list ActiveMove) (g : Rng) : option (outcome (list ActiveMove)) :=
  run (RandomMove_step st) fuel (initial_random_frame st moves0 g).

(** One round of the loop of
    [CartesianProductNeighborhoodExplorer::DeltaCostFunctionComponents]. *)
Definition delta_round (st : State) (moves : list ActiveMove) (weights : Weights)
  (acc : option (Cost * list State)) (i : nat) : option (Cost * list State) :=
  match acc with
  | Some (result, states) =>
      match nhes !! i, moves !! i,
            (if (0 <? i)%nat then states !! (i - 1)%nat else Some st) with
      | Some ne, Some m, Some s =>
          let states1 := <[i := s]> states in
          let result1 :=
            CostStructure.add_assign result
              (DeltaCostFunctionComponents ne s (raw m) weights) in
          Some (result1, <[i := MakeMove ne s (raw m)]> states1)
      | _, _, _ => None
      end
  | None => None
  end.

(** The default-constructed cost structure. *)
Definition zero_cost : Cost := CostStructure.mkDefault 0 0 0 [] dzero false.

(** [CartesianProductNeighborhoodExplorer::DeltaCostFunctionComponents] *)
Definition CartesianProduct_DeltaCostFunctionComponents (st : State)
  (moves : list ActiveMove) (weights : Weights) : option Cost :=
  fst <$> fold_left (delta_round st moves weights) (seq 0 Modality)
                    (Some (zero_cost, replicate Modality st)).

(** The intermediate state [state_i]: the first [i] moves of the chain
    applied in turn to [st], each by the explorer of its level. *)
Fixpoint apply_chain (nes : list NeighborhoodExplorer) (ms : list ActiveMove)
  (i : nat) (st : State) {struct i} : State :=
  match i, nes, ms with
  | S i', ne :: nes', m :: ms' => apply_chain nes' ms' i' (MakeMove ne st (raw m))
  | _, _, _ => st
  end.

Definition state_at (i : nat) (st : State) (ms : list ActiveMove) : State :=
  apply_chain nhes ms i st.

(** The chain property: each move is related to the one before it, the
    predicate being read on the state the earlier move led to. *)
Definition chain_related (st : State) (ms : list ActiveMove) : Prop :=
  forall j : nat, (S j < Modality)%nat ->
    are_related j (state_at (S j) st ms) ms = Some true.

(** The sum of the base delta costs along the chain, the term of level
    [i] being evaluated on [state_i]. *)
Definition delta_term (st : State) (ms : list ActiveMove) (weights : Weights)
  (i : nat) : option Cost :=
  match nhes !! i, ms !! i with
  | Some ne, Some m =>
      Some (DeltaCostFunctionComponents ne (state_at i st ms) (raw m) weights)
  | _, _ => None
  end.

(** *** Dispatch in the set union *)

Lemma get_first_active_first : forall (ms : list ActiveMove) (lvl i : nat) (m : ActiveMove),
  ms !! i = Some m -> active m = true ->
  (forall (j : nat) (mj : ActiveMove), (j < i)%nat -> ms !! j = Some mj -> active mj = false) ->
  get_first_active ms lvl = Some (lvl + i)%nat.
Proof.
  induction ms as [|a ms IH]; intros lvl i m Hi Hact Hbefore.
  - discriminate.
  - destruct i as [|i]; simpl in *.
    + injection Hi as ->. rewrite Hact. f_equal. lia.
    + rewrite (Hbefore 0%nat a) by (auto; lia).
      rewrite (IH (S lvl) i m Hi Hact).
      * f_equal. lia.
      * intros j mj Hj Hmj. apply (Hbefore (S j) mj); [lia|exact Hmj].
Qed.

(** C9. When base [i] is the active component of a SetUnion move, the
    composite delta cost is the delta cost of base [i] on its component
    move, and the composite move application is the application of that
    move by base [i] alone. *)
Theorem SetUnion_dispatches_to_active (st : State) (ms : list ActiveMove)
  (weights : Weights) (i : nat) (ne : NeighborhoodExplorer) (m : ActiveMove) :
  nhes !! i = Some ne -> ms !! i = Some m -> active m = true ->
  (forall (j : nat) (mj : ActiveMove), (j < i)%nat -> ms !! j = Some mj -> active mj = false) ->
  SetUnion_DeltaCostFunctionComponents st ms weights
    = Some (DeltaCostFunctionComponents ne st (raw m) weights) /\
  SetUnion_MakeMove st ms = Some (MakeMove ne st (raw m)).
Proof.
  intros Hne Hm Hact Hbefore.
  unfold SetUnion_DeltaCostFunctionComponents, SetUnion_MakeMove.
  rewrite (get_first_active_first ms 0 i m Hm Hact Hbefore). simpl.
  now rewrite Hne, Hm.
Qed.

(** *** Chains of the Cartesian product *)

(** Two tuples of moves with the same payloads below position [k]. *)
Definition same_prefix (k : nat) (ms ms' : list ActiveMove) : Prop :=
  forall j : nat, (j < k)%nat -> raw <$> ms !! j = raw <$> ms' !! j.

(** What the loops maintain for the levels below [k]: the saved state of a
    level is the input state after the moves up to that level, and each
    move is related to the one before it. *)
Definition chain_upto (k : nat) (st : State) (ms : list ActiveMove)
  (sts : list State) : Prop :=
  (forall (j : nat) (s : State),
     (j < k)%nat -> sts !! j = Some s -> s = state_at (S j) st ms) /\
  (forall j : nat, (S j < k)%nat ->
     are_related j (state_at (S j) st ms) ms = Some true).

(** The invariant of the frames of [FirstMove] and [RandomMove]. *)
Definition Inv (st : State) (c : frame) : Prop :=
  -1 <= cur c /\
  chain_upto (level c) st (moves c) (states c) /\
  (at_label c <> AtLoop ->
   0 <= cur c /\
   forall s : State,
     states c !! level c = Some s -> s = state_at (level c) st (moves c)).

Lemma same_prefix_le k k' ms ms' :
  (k' <= k)%nat -> same_prefix k ms ms' -> same_prefix k' ms ms'.
Proof. intros Hle H j Hj. apply H. lia. Qed.

Lemma same_prefix_trans k ms1 ms2 ms3 :
  same_prefix k ms1 ms2 -> same_prefix k ms2 ms3 -> same_prefix k ms1 ms3.
Proof. intros H1 H2 j Hj. now rewrite H1, H2. Qed.

Lemma same_prefix_set_activity_at k l ms v :
  same_prefix k ms (set_activity_at l ms v).
Proof.
  intros j _. unfold set_activity_at.
  destruct (decide (l = j)) as [->|Hne].
  - rewrite list_lookup_alter_eq. destruct (ms !! j); reflexivity.
  - now rewrite list_lookup_alter_ne.
Qed.

Lemma same_prefix_set_move_at l ms m : same_prefix l ms (set_move_at l ms m).
Proof.
  intros j Hj. unfold set_move_at. rewrite list_lookup_alter_ne by lia. reflexivity.
Qed.

Lemma apply_chain_prefix : forall nes (i : nat) ms ms' st,
  same_prefix i ms ms' -> apply_chain nes ms i st = apply_chain nes ms' i st.
Proof.
  induction nes as [|ne nes IH]; intros i ms ms' st H; destruct i as [|i]; simpl; auto.
  destruct ms as [|m ms], ms' as [|m' ms']; auto.
  - specialize (H 0%nat ltac:(lia)). discriminate.
  - specialize (H 0%nat ltac:(lia)). discriminate.
  - pose proof (H 0%nat ltac:(lia)) as H0. simpl in H0. injection H0 as ->.
    apply IH. intros j Hj. apply (H (S j)). lia.
Qed.

Lemma apply_chain_succ : forall nes ms (i : nat) st ne m,
  nes !! i = Some ne -> ms !! i = Some m ->
  apply_chain nes ms (S i) st = MakeMove ne (apply_chain nes ms i st) (raw m).
Proof.
  induction nes as [|a nes IH]; intros ms i st ne m Hne Hm; [discriminate|].
  destruct ms as [|m0 ms]; [discriminate|].
  destruct i as [|i]; simpl in *.
  - injection Hne as ->. injection Hm as ->. destruct nes, ms; reflexivity.
  - now apply IH.
Qed.

Lemma are_related_prefix (j : nat) s ms ms' :
  same_prefix (S (S j)) ms ms' -> are_related j s ms = are_related j s ms'.
Proof.
  intros H. unfold are_related.
  pose proof (H j ltac:(lia)) as H1. pose proof (H (S j) ltac:(lia)) as H2.
  destruct (ms !! j), (ms' !! j), (ms !! S j), (ms' !! S j);
    simpl in *; try discriminate; auto.
  injection H1 as ->. injection H2 as ->. reflexivity.
Qed.

Lemma chain_upto_transport (k k' : nat) st ms ms' sts sts' :
  (k' <= k)%nat -> same_prefix k' ms ms' ->
  (forall j : nat, (j < k')%nat -> sts' !! j = sts !! j) ->
  chain_upto k st ms sts -> chain_upto k' st ms' sts'.
Proof.
  intros Hle Hpre Hsts [Ha Hb]. split.
  - intros j s Hj Hs. rewrite Hsts in Hs by lia.
    rewrite (Ha j s) by (auto; lia).
    unfold state_at. apply apply_chain_prefix.
    eapply same_prefix_le; [|exact Hpre]. lia.
  - intros j Hj. rewrite <- (Hb j) by lia. unfold state_at.
    rewrite <- (apply_chain_prefix nhes (S j) ms ms')
      by (eapply same_prefix_le; [|exact Hpre]; lia).
    symmetry. apply are_related_prefix.
    eapply same_prefix_le; [|exact Hpre]. lia.
Qed.

Lemma lookup_insert_same {A : Type} (l : list A) (i : nat) (x y : A) :
  <[i := x]> l !! i = Some y -> y = x.
Proof.
  intros H. apply list_lookup_insert_Some in H.
  destruct H as [(_ & -> & _)|(Hne & _)]; [reflexivity|congruence].
Qed.

Lemma Inv_initial st moves0 : Inv st (initial_frame st moves0).
Proof.
  unfold Inv, initial_frame, chain_upto, level. simpl.
  split; [lia|]. split; [|congruence].
  split; intros; lia.
Qed.

Lemma Inv_backtrack st c :
  0 <= cur c -> chain_upto (level c) st (moves c) (states c) -> Inv st (backtrack c).
Proof.
  intros H0 Hc. unfold Inv, backtrack, level in *. simpl.
  split; [lia|]. split; [|congruence].
  eapply chain_upto_transport; [| | |exact Hc]; auto.
  - lia.
  - apply same_prefix_set_activity_at.
Qed.

(** Entering a level: the saved state of the level is reset, and the move
    of the level may be generated anew. *)
Lemma Inv_enter st c states1 b ms' lbl :
  Inv st c -> cur c <> -1 -> reset_state st c = Some states1 ->
  same_prefix (level c) (moves c) ms' ->
  0 <= cur c /\
  chain_upto (level c) st ms' states1 /\
  Inv st (mkFrame (cur c) b ms' states1 lbl).
Proof.
  intros (Hge & Hc & _) Hne Hreset Hpre.
  assert (H0 : 0 <= cur c) by lia.
  assert (Hsts : exists s0, states1 = <[level c := s0]> (states c) /\
                            s0 = state_at (level c) st (moves c)).
  { unfold reset_state in Hreset. destruct (0 <? cur c) eqn:E.
    - apply Z.ltb_lt in E.
      destruct (states c !! (level c - 1)%nat) as [s0|] eqn:Es; [|discriminate].
      injection Hreset as <-. exists s0. split; [reflexivity|].
      destruct Hc as [Ha _]. rewrite (Ha (level c - 1)%nat s0); auto.
      + f_equal. unfold level. lia.
      + unfold level. lia.
    - apply Z.ltb_ge in E. injection Hreset as <-. exists st. split; [reflexivity|].
      unfold level. replace (cur c) with 0 by lia. reflexivity. }
  destruct Hsts as (s0 & -> & Hs0).
  assert (Hc' : chain_upto (level c) st ms' (<[level c := s0]> (states c))).
  { eapply chain_upto_transport; [| | |exact Hc]; auto.
    intros j Hj. apply list_lookup_insert_ne. lia. }
  split; [exact H0|]. split; [exact Hc'|].
  unfold Inv. simpl. split; [lia|]. split; [exact Hc'|].
  intros _. split; [exact H0|]. unfold level at 1 3. simpl.
  fold (level c). intros s Hs. apply lookup_insert_same in Hs. subst s.
  rewrite Hs0. unfold state_at. now apply apply_chain_prefix.
Qed.

(** The move of the current level is replaced inside one of the loops. *)
Lemma Inv_set_move st c m' lbl :
  Inv st c -> at_label c <> AtLoop ->
  0 <= cur c /\
  chain_upto (level c) st (set_move_at (level c) (moves c) m') (states c) /\
  Inv st (mkFrame (cur c) (backtracking c)
                  (set_move_at (level c) (moves c) m') (states c) lbl).
Proof.
  intros (Hge & Hc & Hin) Hlbl. destruct (Hin Hlbl) as [H0 Hs].
  assert (Hc' : chain_upto (level c) st (set_move_at (level c) (moves c) m') (states c)).
  { eapply chain_upto_transport; [| | |exact Hc]; auto.
    apply same_prefix_set_move_at. }
  split; [exact H0|]. split; [exact Hc'|].
  unfold Inv. simpl. split; [lia|]. split; [exact Hc'|].
  intros _. split; [exact H0|]. unfold level at 1 3. simpl. fold (level c).
  intros s Hlook. rewrite (Hs s Hlook). unfold state_at.
  apply apply_chain_prefix, same_prefix_set_move_at.
Qed.

(** Leaving a level upwards: the move of the level is related to the one
    before it and is applied to the saved state. *)
Lemma Inv_advance st c c' :
  Inv st c -> at_label c <> AtLoop -> not_related c = Some false ->
  advance (A := list ActiveMove) c = inl c' -> Inv st c'.
Proof.
  intros (Hge & [Ha Hb] & Hin) Hlbl Hrel Hadv. destruct (Hin Hlbl) as [H0 Hs].
  unfold advance, dispatch in Hadv.
  destruct (nhes !! level c) as [ne|] eqn:Ene; [|discriminate].
  destruct (moves c !! level c) as [m|] eqn:Em; [|discriminate].
  destruct (states c !! level c) as [s|] eqn:Es; [|discriminate].
  injection Hadv as <-.
  pose proof (Hs s eq_refl) as ->.
  assert (Hlvl : Z.to_nat (cur c + 1) = S (level c)) by (unfold level; lia).
  unfold Inv. cbn [cur moves states at_label].
  change (level (mkFrame (cur c + 1) ?b ?ms ?sts ?l)) with (Z.to_nat (cur c + 1)).
  rewrite Hlvl.
  split; [lia|]. split; [|congruence].
  eapply (chain_upto_transport (S (level c)) (S (level c)) st (moves c));
    [lia | apply same_prefix_set_activity_at | reflexivity |].
  split.
  - intros j s Hj Hlook. destruct (decide (j = level c)) as [->|Hne].
    + apply lookup_insert_same in Hlook. subst s. unfold state_at.
      symmetry. now apply apply_chain_succ.
    + rewrite list_lookup_insert_ne in Hlook by congruence.
      apply Ha; [lia|exact Hlook].
  - intros j Hj. destruct (decide (S j = level c)) as [Heq|Hne].
    + unfold not_related in Hrel.
      assert (Hpos : (0 <? cur c) = true) by (apply Z.ltb_lt; unfold level in Heq; lia).
      rewrite Hpos in Hrel.
      replace (level c - 1)%nat with j in Hrel by lia.
      destruct (states c !! j) as [s1|] eqn:Es1; [|discriminate].
      rewrite (Ha j s1) in Hrel by (auto; lia).
      destruct (are_related j (state_at (S j) st (moves c)) (moves c)) as [[|]|];
        simpl in Hrel; congruence.
    + apply Hb. lia.
Qed.

Lemma advance_not_Returned c ms :
  advance (A := list ActiveMove) c <> inr (Returned ms).
Proof.
  unfold advance, dispatch.
  destruct (nhes !! level c), (moves c !! level c), (states c !! level c); discriminate.
Qed.

(** Along a run, an invariant of the steps holds when the call returns. *)
Lemma run_invariant {C A : Type} (step : C -> C + outcome A)
  (I : C -> Prop) (Q : A -> Prop) :
  (forall c c', I c -> step c = inl c' -> I c') ->
  (forall c a, I c -> step c = inr (Returned a) -> Q a) ->
  forall (fuel : nat) (c : C) (a : A),
    I c -> run step fuel c = Some (Returned a) -> Q a.
Proof.
  intros Hstep Hret. induction fuel as [|fuel IH]; intros c a Hc Hrun; simpl in Hrun.
  - discriminate.
  - destruct (step c) as [c'|o] eqn:E.
    + eapply IH; [|exact Hrun]. eapply Hstep; eauto.
    + injection Hrun as ->. eapply Hret; eauto.
Qed.

Lemma Inv_Returned st c :
  Inv st c -> (cur c <? Z.of_nat Modality) = false -> chain_related st (moves c).
Proof.
  intros (_ & [_ Hb] & _) Hcur j Hj. apply Z.ltb_ge in Hcur.
  apply Hb. unfold level. lia.
Qed.

Ltac break_step H :=
  match type of H with
  | context [match ?x with _ => _ end] => destruct x eqn:?
  end.

Lemma FirstMove_step_Inv st c c' :
  Inv st c -> FirstMove_step st c = inl c' -> Inv st c'.
Proof.
  intros HI Hstep. unfold FirstMove_step, dispatch in Hstep.
  destruct (at_label c) eqn:Elbl.
  - destruct (cur c <? Z.of_nat Modality); [|discriminate].
    destruct (cur c =? -1) eqn:Em1; [discriminate|]. apply Z.eqb_neq in Em1.
    destruct (reset_state st c) as [states1|] eqn:Er; [|discriminate].
    destruct (negb (backtracking c)).
    + destruct (nhes !! level c) as [ne|]; [|discriminate].
      destruct (moves c !! level c) as [m|]; [|discriminate].
      destruct (FirstMove ne st (raw m)) as [m'|]; injection Hstep as <-.
      * apply (Inv_enter st c states1 _ _ AtWhile HI Em1 Er).
        apply same_prefix_set_move_at.
      * destruct (Inv_enter st c states1 (backtracking c) (moves c) AtLoop HI Em1 Er)
          as (H0 & Hc & _); [intros j _; reflexivity|].
        apply Inv_backtrack; [exact H0|exact Hc].
    + injection Hstep as <-.
      apply (Inv_enter st c states1 _ _ AtDoWhile HI Em1 Er).
      intros j _; reflexivity.
  - destruct (not_related c) as [[|]|] eqn:Eg; [| |discriminate].
    + destruct (nhes !! level c) as [ne|]; [|discriminate].
      destruct (moves c !! level c) as [m|]; [|discriminate].
      destruct (states c !! level c) as [s|]; [|discriminate].
      destruct (NextMove ne s (raw m)) as [ok m'].
      destruct (Inv_set_move st c m' AtWhile HI ltac:(congruence)) as (H0 & Hc & HI').
      destruct ok; injection Hstep as <-.
      * exact HI'.
      * apply Inv_backtrack; [exact H0|exact Hc].
    + eapply Inv_advance; eauto. congruence.
  - destruct (nhes !! level c) as [ne|]; [|discriminate].
    destruct (moves c !! level c) as [m|]; [|discriminate].
    destruct (states c !! level c) as [s|]; [|discriminate].
    destruct (NextMove ne s (raw m)) as [ok m'].
    destruct (Inv_set_move st c m' AtDoWhile HI ltac:(congruence)) as (H0 & Hc & HI').
    destruct ok.
    + match type of Hstep with
      | context [not_related ?c1] => destruct (not_related c1) as [[|]|] eqn:Eg
      end; [| |discriminate].
      * injection Hstep as <-. exact HI'.
      * eapply Inv_advance; [exact HI'| |exact Eg|exact Hstep]. simpl. congruence.
    + injection Hstep as <-. apply Inv_backtrack; [exact H0|exact Hc].
Qed.

Lemma FirstMove_step_Returned st c ms :
  Inv st c -> FirstMove_step st c = inr (Returned ms) -> chain_related st ms.
Proof.
  intros HI Hstep. unfold FirstMove_step, dispatch in Hstep.
  destruct (at_label c).
  - destruct (cur c <? Z.of_nat Modality) eqn:Ecur.
    + repeat (break_step Hstep; try discriminate).
    + injection Hstep as <-. now apply Inv_Returned.
  - repeat (break_step Hstep; try discriminate);
      now apply advance_not_Returned in Hstep.
  - repeat (break_step Hstep; try discriminate);
      now apply advance_not_Returned in Hstep.
Qed.

Lemma after_next_Inv st c1 r dw r' :
  Inv st c1 -> at_label c1 <> AtLoop ->
  after_next c1 r dw = inl r' -> Inv st (base r').
Proof.
  intros HI Hlbl Hstep. pose proof HI as (_ & Hc & Hin).
  destruct (Hin Hlbl) as [H0 _].
  unfold after_next, dispatch in Hstep.
  destruct (equal_at (level c1) (moves c1) (initial_moves r)) as [[|]|];
    [| |discriminate].
  - injection Hstep as <-. simpl. now apply Inv_backtrack.
  - destruct dw.
    + destruct (not_related c1) as [[|]|] eqn:Eg; [| |discriminate].
      * injection Hstep as <-. exact HI.
      * destruct (advance c1) as [c2|o] eqn:Ea; [|discriminate].
        injection Hstep as <-. simpl. eapply Inv_advance; eauto.
    + injection Hstep as <-. exact HI.
Qed.

Lemma after_next_not_Returned c1 r dw ms :
  after_next c1 r dw <> inr (Returned ms).
Proof.
  unfold after_next, dispatch. intros Hstep.
  repeat (break_step Hstep; try discriminate).
  injection Hstep as ->.
  match goal with H : advance _ = inr _ |- _ =>
    now apply advance_not_Returned in H end.
Qed.

Lemma RandomMove_step_Inv st r r' :
  Inv st (base r) -> RandomMove_step st r = inl r' -> Inv st (base r').
Proof.
  intros HI Hstep. unfold RandomMove_step, dispatch in Hstep.
  set (c := base r) in *.
  destruct (at_label c) eqn:Elbl.
  - destruct (cur c <? Z.of_nat Modality); [|discriminate].
    destruct (cur c =? -1) eqn:Em1; [discriminate|]. apply Z.eqb_neq in Em1.
    destruct (reset_state st c) as [states1|] eqn:Er; [|discriminate].
    destruct (negb (backtracking c)).
    + destruct (nhes !! level c) as [ne|]; [|discriminate].
      destruct (moves c !! level c) as [m|]; [|discriminate].
      destruct (states1 !! level c) as [c_cur_st|]; [|discriminate].
      destruct (RandomMove ne c_cur_st (raw m) (rng r)) as [[m'|] rng'].
      * destruct (initial_set r !! level c) as [is_set|]; [|discriminate].
        injection Hstep as <-. simpl.
        apply (Inv_enter st c states1 _ _ AtWhile HI Em1 Er).
        apply same_prefix_set_move_at.
      * injection Hstep as <-. simpl.
        destruct (Inv_enter st c states1 (backtracking c) (moves c) AtLoop HI Em1 Er)
          as (H0 & Hc & _); [intros j _; reflexivity|].
        apply Inv_backtrack; [exact H0|exact Hc].
    + injection Hstep as <-. simpl.
      apply (Inv_enter st c states1 _ _ AtDoWhile HI Em1 Er).
      intros j _; reflexivity.
  - destruct (not_related c) as [[|]|] eqn:Eg; [| |discriminate].
    + destruct (nhes !! level c) as [ne|]; [|discriminate].
      destruct (moves c !! level c) as [m|]; [|discriminate].
      destruct (states c !! level c) as [s|]; [|discriminate].
      destruct (NextMove ne s (raw m)) as [ok m'].
      destruct ok.
      * eapply after_next_Inv; [| |exact Hstep]; [|simpl; congruence].
        apply (Inv_set_move st c m' AtWhile HI). congruence.
      * destruct (FirstMove ne st m') as [m''|].
        -- eapply after_next_Inv; [| |exact Hstep]; [|simpl; congruence].
           apply (Inv_set_move st c m'' AtWhile HI). congruence.
        -- injection Hstep as <-. simpl.
           destruct (Inv_set_move st c m' AtLoop HI ltac:(congruence)) as (H0 & Hc & _).
           apply Inv_backtrack; [exact H0|exact Hc].
    + destruct (advance c) as [c2|o] eqn:Ea; [|discriminate].
      injection Hstep as <-. simpl. eapply Inv_advance; eauto. congruence.
  - destruct (nhes !! level c) as [ne|]; [|discriminate].
    destruct (moves c !! level c) as [m|]; [|discriminate].
    destruct (states c !! level c) as [s|]; [|discriminate].
    destruct (NextMove ne s (raw m)) as [ok m'].
    destruct ok.
    + eapply after_next_Inv; [| |exact Hstep]; [|simpl; congruence].
      apply (Inv_set_move st c m' AtDoWhile HI). congruence.
    + destruct (FirstMove ne st m') as [m''|]; [|discriminate].
      eapply after_next_Inv; [| |exact Hstep]; [|simpl; congruence].
      apply (Inv_set_move st c m'' AtDoWhile HI). congruence.
Qed.

Lemma RandomMove_step_Returned st r ms :
  Inv st (base r) -> RandomMove_step st r = inr (Returned ms) -> chain_related st ms.
Proof.
  intros HI Hstep. unfold RandomMove_step, dispatch in Hstep.
  set (c := base r) in *.
  destruct (at_label c).
  - destruct (cur c <? Z.of_nat Modality) eqn:Ecur.
    + repeat (break_step Hstep; try discriminate).
    + injection Hstep as <-. now apply Inv_Returned.
  - repeat (break_step Hstep; try discriminate);
      try (now apply after_next_not_Returned in Hstep).
    injection Hstep as ->.
    match goal with H : advance _ = inr _ |- _ =>
      now apply advance_not_Returned in H end.
  - repeat (break_step Hstep; try discriminate);
      now apply after_next_not_Returned in Hstep.
Qed.

(** *** The composite delta cost *)

(** The sum of a list of cost structures, by [operator+] from the
    default-constructed structure. *)
Definition cost_sum (terms : list Cost) : Cost :=
  fold_left CostStructure.add terms zero_cost.

Lemma total_fold_add (terms : list Cost) : forall z : Cost,
  CostStructure.total (fold_left CostStructure.add terms z) =
    CostStructure.total z + foldr Z.add 0 (CostStructure.total <$> terms) /\
  CostStructure.violations (fold_left CostStructure.add terms z) =
    CostStructure.violations z + foldr Z.add 0 (CostStructure.violations <$> terms) /\
  CostStructure.objective (fold_left CostStructure.add terms z) =
    CostStructure.objective z + foldr Z.add 0 (CostStructure.objective <$> terms).
Proof.
  induction terms as [|d terms IH]; intros z.
  - simpl. repeat split; lia.
  - rewrite !fmap_cons. cbn [fold_left foldr].
    destruct (IH (CostStructure.add z d)) as (H1 & H2 & H3).
    rewrite H1, H2, H3. unfold CostStructure.add, CostStructure.add_assign.
    cbn [CostStructure.total CostStructure.violations CostStructure.objective].
    repeat split; lia.
Qed.

(** The component vector of a sum: the longest vector gives the size, and a
    position holds the sum of the entries at it, a missing entry counting
    as zero.  [operator+=] does not touch the weighted scalar or its
    flag. *)
Lemma components_fold_add (terms : list Cost) : forall z : Cost,
  length (CostStructure.all_components (fold_left CostStructure.add terms z)) =
    Nat.max (length (CostStructure.all_components z))
            (foldr Nat.max 0%nat
                   ((fun t => length (CostStructure.all_components t)) <$> terms)) /\
  (forall k : nat,
     nth k (CostStructure.all_components (fold_left CostStructure.add terms z)) 0 =
       nth k (CostStructure.all_components z) 0 +
       foldr Z.add 0 ((fun t => nth k (CostStructure.all_components t) 0) <$> terms)) /\
  CostStructure.weighted (fold_left CostStructure.add terms z) = CostStructure.weighted z /\
  CostStructure.is_weighted (fold_left CostStructure.add terms z)
    = CostStructure.is_weighted z.
Proof.
  induction terms as [|d terms IH]; intros z.
  - simpl. split; [lia|]. split; [intros k; lia|]. split; reflexivity.
  - rewrite !fmap_cons. cbn [fold_left foldr].
    destruct (IH (CostStructure.add z d)) as (H1 & H2 & H3 & H4).
    rewrite H1, H3, H4. unfold CostStructure.add, CostStructure.add_assign.
    cbn [CostStructure.all_components CostStructure.weighted CostStructure.is_weighted].
    rewrite CostStructure.length_components_update.
    split; [lia|]. split; [|split; reflexivity].
    intros k. rewrite H2. unfold CostStructure.add, CostStructure.add_assign.
    cbn [CostStructure.all_components].
    rewrite CostStructure.nth_components_update by (intros; lia).
    rewrite fmap_cons. cbn [foldr]. lia.
Qed.

(** The loop of the composite delta cost after [n] rounds. *)
Lemma delta_rounds st ms weights : length ms = Modality ->
  forall n : nat, (n <= Modality)%nat ->
  exists (terms : list Cost) (sts : list State),
    fold_left (delta_round st ms weights) (seq 0 n)
              (Some (zero_cost, replicate Modality st))
      = Some (cost_sum terms, sts) /\
    length terms = n /\ length sts = Modality /\
    (forall i : nat, (i < n)%nat -> delta_term st ms weights i = terms !! i) /\
    (forall i : nat, (i < n)%nat -> sts !! i = Some (state_at (S i) st ms)).
Proof.
  intros Hms. induction n as [|n IH]; intros Hn.
  - exists [], (replicate Modality st). simpl.
    repeat split; auto; try (intros; lia). apply length_replicate.
  - destruct (IH ltac:(lia)) as (terms & sts & Hfold & Hlt & Hls & Hterms & Hsts).
    rewrite seq_S, fold_left_app, Hfold. simpl.
    destruct (lookup_lt_is_Some_2 nhes n ltac:(unfold Modality in Hn; lia)) as [ne Hne].
    destruct (lookup_lt_is_Some_2 ms n ltac:(lia)) as [m Hm].
    rewrite Hne, Hm.
    assert (Hprev : (if (0 <? n)%nat then sts !! (n - 1)%nat else Some st)
                    = Some (state_at n st ms)).
    { destruct (0 <? n)%nat eqn:E.
      - apply Nat.ltb_lt in E. rewrite Hsts by lia. do 2 f_equal. lia.
      - apply Nat.ltb_ge in E. replace n with 0%nat by lia. reflexivity. }
    rewrite Hprev.
    set (d := DeltaCostFunctionComponents ne (state_at n st ms) (raw m) weights).
    exists (terms ++ [d]). eexists. split.
    { unfold cost_sum. rewrite fold_left_app. simpl. reflexivity. }
    split; [rewrite length_app; simpl; lia|].
    split; [now rewrite !length_insert|].
    split.
    + intros i Hi. destruct (decide (i = n)) as [->|Hne'].
      * rewrite lookup_app_r by lia. rewrite Hlt, Nat.sub_diag. simpl.
        unfold delta_term. now rewrite Hne, Hm.
      * rewrite lookup_app_l by lia. apply Hterms. lia.
    + intros i Hi. destruct (decide (i = n)) as [->|Hne'].
      * rewrite list_lookup_insert_eq by (rewrite length_insert; lia).
        f_equal. unfold state_at. symmetry. now apply apply_chain_succ.
      * rewrite !list_lookup_insert_ne by congruence. apply Hsts. lia.
Qed.

(** C3. A chain returned by [FirstMove] or by [RandomMove] of the Cartesian
    product has every move related to the one before it (by the registered
    predicate, read on the state the earlier moves lead to; a pair without
    predicate counts as related), and the composite delta cost of a chain
    is the sum of the base delta costs, the term of level [i] being
    evaluated on the input state after the moves of the levels below [i]:
    its total, violations and objective are the sums of the terms', its
    component vector has the size of the longest term's and holds at each
    position the sum of the terms' entries (a missing entry counting as
    zero), and its weighted scalar is the default-constructed one, which
    the sum does not accumulate. *)
Theorem CartesianProduct_chain (st : State) (moves0 ms : list ActiveMove)
  (fuel : nat) (g : Rng) (weights : Weights) :
  (CartesianProduct_FirstMove fuel st moves0 = Some (Returned ms) ->
   chain_related st ms) /\
  (CartesianProduct_RandomMove fuel st moves0 g = Some (Returned ms) ->
   chain_related st ms) /\
  (length ms = Modality ->
   exists terms : list Cost,
     length terms = Modality /\
     (forall i : nat, (i < Modality)%nat -> delta_term st ms weights i = terms !! i) /\
     CartesianProduct_DeltaCostFunctionComponents st ms weights
       = Some (cost_sum terms) /\
     CostStructure.total (cost_sum terms)
       = foldr Z.add 0 (CostStructure.total <$> terms) /\
     CostStructure.violations (cost_sum terms)
       = foldr Z.add 0 (CostStructure.violations <$> terms) /\
     CostStructure.objective (cost_sum terms)
       = foldr Z.add 0 (CostStructure.objective <$> terms) /\
     length (CostStructure.all_components (cost_sum terms))
       = foldr Nat.max 0%nat
               ((fun t => length (CostStructure.all_components t)) <$> terms) /\
     (forall k : nat,
        nth k (CostStructure.all_components (cost_sum terms)) 0
          = foldr Z.add 0
                  ((fun t => nth k (CostStructure.all_components t) 0) <$> terms)) /\
     CostStructure.weighted (cost_sum terms) = dzero /\
     CostStructure.is_weighted (cost_sum terms) = false).
Proof.
  split; [|split].
  - unfold CartesianProduct_FirstMove.
    apply (run_invariant (FirstMove_step st) (Inv st) (chain_related st)).
    + apply FirstMove_step_Inv.
    + apply FirstMove_step_Returned.
    + apply Inv_initial.
  - unfold CartesianProduct_RandomMove.
    apply (run_invariant (RandomMove_step st) (fun r => Inv st (base r))
                         (chain_related st)).
    + apply RandomMove_step_Inv.
    + apply RandomMove_step_Returned.
    + apply Inv_initial.
  - intros Hms.
    destruct (delta_rounds st ms weights Hms Modality (le_n _))
      as (terms & sts & Hfold & Hlt & _ & Hterms & _).
    exists terms. split; [exact Hlt|]. split; [exact Hterms|].
    split.
    + unfold CartesianProduct_DeltaCostFunctionComponents. now rewrite Hfold.
    + unfold cost_sum. destruct (total_fold_add terms zero_cost) as (H1 & H2 & H3).
      destruct (components_fold_add terms zero_cost) as (H4 & H5 & H6 & H7).
      rewrite H1, H2, H3, H4, H6, H7. simpl.
      do 3 (split; [lia|]). split; [reflexivity|].
      split; [|split; reflexivity].
      intros k. rewrite H5. simpl. destruct k; lia.
Qed.

(** *** The remembered initial move *)

(** [copy_move_at] never changes its target: nothing of [source] is
    read. *)
Lemma copy_move_at_target (lvl : nat) (target source : list ActiveMove) :
  copy_move_at lvl target source = target.
Proof.
  unfold copy_move_at. destruct (target !! lvl) as [m|] eqn:E; [|reflexivity].
  now apply list_insert_id.
Qed.

(** A run that stays inside a set of frames closed under the step never
    ends. *)
Lemma run_closed {C A : Type} (step : C -> C + outcome A) (P : C -> Prop) :
  (forall c, P c -> exists c', step c = inl c' /\ P c') ->
  forall (fuel : nat) (c : C), P c -> run step fuel c = None.
Proof.
  intros Hclosed. induction fuel as [|fuel IH]; intros c Hc; simpl; auto.
  destruct (Hclosed c Hc) as (c' & -> & Hc'). now apply IH.
Qed.

End WithTypes.

Arguments mkActive {Move} _ _.
Arguments raw {Move} _.
Arguments active {Move} _.
Arguments mkExplorer {State Move Weights Rng double} _ _ _ _ _.
Arguments mkFrame {State Move} _ _ _ _ _.
Arguments mkRandomFrame {State Move Rng} _ _ _ _.

(** Scenario S4 of the specification: two neighborhoods over a state of
    three bits, each flipping one bit; two flips are related when they
    concern different bits.  The random source is a list of draws. *)
Definition flip_delta (st : list bool) (m : nat) (_ : unit)
  : CostStructure.DefaultCostStructure unit :=
  let d := match st !! m with Some true => -1 | _ => 1 end in
  CostStructure.mkDefault d 0 d [d] tt false.

Definition flip : NeighborhoodExplorer (list bool) nat unit (list nat) unit :=
  mkExplorer
    (fun _ _ => Some 0%nat)
    (fun _ m => if (m <? 2)%nat then (true, S m) else (false, m))
    (fun _ m g => match g with
                  | x :: g' => (Some (x mod 3)%nat, g')
                  | [] => (Some 0%nat, [])
                  end)
    (fun st m => alter negb m st)
    flip_delta.

Definition s4_related (i : nat) : option (nat -> nat -> bool) :=
  Some (fun m1 m2 => negb (m1 =? m2)%nat).

Definition s4_state : list bool := [false; false; false].

Definition s4_chain : list (ActiveMove nat) :=
  [mkActive 0%nat true; mkActive 1%nat true].

(** A freshly constructed tuple of two moves. *)
Definition fresh_moves : list (ActiveMove nat) :=
  [mkActive 0%nat false; mkActive 0%nat false].

(** Two neighborhoods of a single move each, no two moves being related:
    the product neighborhood is empty. *)
Definition single : NeighborhoodExplorer unit nat unit unit unit :=
  mkExplorer
    (fun _ _ => Some 0%nat)
    (fun _ m => (false, m))
    (fun _ _ g => (Some 0%nat, g))
    (fun st _ => st)
    (fun _ _ _ => CostStructure.mkDefault 0 0 0 [] tt false).

Definition never_related (i : nat) : option (nat -> nat -> bool) :=
  Some (fun _ _ => false).

Definition no_related_state {S : Type} (i : nat) : option (S -> nat -> nat -> bool) :=
  None.

Definition single_step :=
  RandomMove_step unit nat unit unit unit Nat.eqb [single; single]
                  never_related no_related_state tt.

Definition single_start : random_frame unit nat unit :=
  initial_random_frame unit nat unit unit unit 0%nat [single; single] tt fresh_moves tt.

(** The frames the run on [single_start] goes through. *)
Fixpoint frames_from (n : nat) (r : random_frame unit nat unit)
  : list (random_frame unit nat unit) :=
  match n with
  | O => []
  | S n' => r :: match single_step r with
                 | inl r' => frames_from n' r'
                 | inr _ => []
                 end
  end.

(** The active component of a SetUnion move over the two flips. *)
Definition union_moves : list (ActiveMove nat) :=
  [mkActive 2%nat false; mkActive 1%nat true].

Lemma SetUnion_dispatches_to_active_ex :
  SetUnion_DeltaCostFunctionComponents _ _ _ _ _ [flip; flip] s4_state union_moves tt
    = Some (flip_delta s4_state 1%nat tt) /\
  SetUnion_MakeMove _ _ _ _ _ [flip; flip] s4_state union_moves
    = Some [false; true; false].
Proof.
  apply (SetUnion_dispatches_to_active _ _ _ _ _ [flip; flip] s4_state union_moves tt
           1%nat flip (mkActive 1%nat true)); try reflexivity.
  intros j mj Hj Hmj. destruct j as [|j]; [|lia].
  injection Hmj as <-. reflexivity.
Defined.

Lemma CartesianProduct_chain_s4 :
  (CartesianProduct_FirstMove _ _ _ _ _ [flip; flip] s4_related no_related_state
     20 s4_state fresh_moves = Some (Returned s4_chain) /\
   chain_related _ _ _ _ _ [flip; flip] s4_related no_related_state s4_state s4_chain) /\
  (CartesianProduct_RandomMove _ _ _ _ _ Nat.eqb 0%nat [flip; flip] s4_related
     no_related_state 20 s4_state fresh_moves [0; 1]%nat = Some (Returned s4_chain) /\
   chain_related _ _ _ _ _ [flip; flip] s4_related no_related_state s4_state s4_chain) /\
  (length s4_chain = Modality _ _ _ _ _ [flip; flip] /\
   exists terms : list (Cost unit),
     CartesianProduct_DeltaCostFunctionComponents _ _ _ _ _ tt [flip; flip]
       s4_state s4_chain tt = Some (cost_sum unit tt terms) /\
     CostStructure.total (cost_sum unit tt terms)
       = foldr Z.add 0 (CostStructure.total <$> terms) /\
     (forall k : nat,
        nth k (CostStructure.all_components (cost_sum unit tt terms)) 0
          = foldr Z.add 0
                  ((fun t => nth k (CostStructure.all_components t) 0) <$> terms))).
Proof.
  pose proof (CartesianProduct_chain _ _ _ _ _ Nat.eqb 0%nat tt [flip; flip]
                s4_related no_related_state s4_state fresh_moves s4_chain
                20%nat [0; 1]%nat tt) as (Hfirst & Hrandom & Hdelta).
  assert (H1 : CartesianProduct_FirstMove _ _ _ _ _ [flip; flip] s4_related
                 no_related_state 20 s4_state fresh_moves = Some (Returned s4_chain))
    by (vm_compute; reflexivity).
  assert (H2 : CartesianProduct_RandomMove _ _ _ _ _ Nat.eqb 0%nat [flip; flip]
                 s4_related no_related_state 20 s4_state fresh_moves [0; 1]%nat
               = Some (Returned s4_chain))
    by (vm_compute; reflexivity).
  split; [split; [exact H1|exact (Hfirst H1)]|].
  split; [split; [exact H2|exact (Hrandom H2)]|].
  split; [reflexivity|].
  destruct (Hdelta eq_refl) as (terms & _ & _ & Hsum & Htotal & _ & _ & _ & Hcomp & _).
  exists terms. split; [exact Hsum|]. split; [exact Htotal|exact Hcomp].
Defined.

(** C4 on the empty product of the two single-move neighborhoods, from a
    fresh tuple of moves: [RandomMove] neither returns nor throws, whatever
    the number of steps, while [FirstMove] throws [EmptyNeighborhood]. *)
Theorem RandomMove_never_ends :
  (forall fuel : nat,
     CartesianProduct_RandomMove unit nat unit unit unit Nat.eqb 0%nat
       [single; single] never_related no_related_state fuel tt fresh_moves tt
     = None) /\
  CartesianProduct_FirstMove unit nat unit unit unit
    [single; single] never_related no_related_state 20 tt fresh_moves
  = Some EmptyNeighborhood.
Proof.
  split; [|vm_compute; reflexivity].
  intros fuel. unfold CartesianProduct_RandomMove.
  apply (run_closed single_step (fun r => In r (frames_from 8 single_start))).
  - intros r Hr. vm_compute in Hr.
    repeat (destruct Hr as [<-|Hr];
            [eexists; split; [vm_compute; reflexivity|vm_compute; tauto]|]).
    destruct Hr.
  - vm_compute. tauto.
Qed.

End MultiModal.

(** ** Best-move selection (parallelneighborhoodexplorer.hh) *)

Module Selection.

(** Finite probability distributions: outcomes with rational weights. *)
Definition dist (A : Type) : Type := list (A * Qc).

Definition dret {A : Type} (a : A) : dist A := [(a, 1%Qc)].

Definition dbind {A B : Type} (d : dist A) (f : A -> dist B) : dist B :=
  flat_map (fun ap => map (fun bq => (fst bq, (snd ap * snd bq)%Qc)) (f (fst ap))) d.

(** The expectation of [g], and the probability of the event [P]. *)
Definition expect {A : Type} (g : A -> Qc) (d : dist A) : Qc :=
  foldr (fun ap acc => (snd ap * g (fst ap) + acc)%Qc) 0%Qc d.

Definition prob {A : Type} (P : A -> bool) (d : dist A) : Qc :=
  expect (fun a => if P a then 1%Qc else 0%Qc) d.

(** Modelled from the spec: [Random::Int(a, b)] (utils/Random.hh is not part
    of the sources) draws an integer uniformly in the closed range
    [a .. b]. *)
Definition Random_Int (a b : Z) : dist Z :=
  let n := Z.to_nat (b - a + 1) in
  map (fun i : nat => (a + Z.of_nat i, (/ Qc_of_Z (Z.of_nat n))%Qc)) (seq 0 n).

Section WithMove.

Variables State Move : Type.
Context `{EqDecision Move}.

(** The delta cost of a move on the state, for the weights of the call; the
    cost type is the integral [CFtype]. *)
Variable DeltaCostFunctionComponents : State -> Move -> Z.

(** [EvaluatedMove] *)
Record EvaluatedMove : Type := mkEvaluated {
  move : Move;
  cost : Z;
  is_valid : bool
}.

(** [EvaluatedMove::empty] and the default-constructed evaluated move. *)
Variable empty : EvaluatedMove.
Variable default_move : EvaluatedMove.

(** The variables the lambda of [SelectBest] and [RandomBest] captures by
    reference; [number_of_bests] is [unsigned int]. *)
Record selection : Type := mkSelection {
  best_move : EvaluatedMove;
  number_of_bests : Z;
  explored : Z
}.

(** The body of the lambda, from the evaluation of the move to the end of
    the critical section. *)
Definition visit (st : State) (AcceptMove : Move -> Z -> bool)
  (sel : selection) (m : Move) : dist selection :=
  let mv := mkEvaluated m (DeltaCostFunctionComponents st m) true in
  let explored1 := explored sel + 1 in
  if AcceptMove (move mv) (cost mv) then
    if number_of_bests sel =? 0 then dret (mkSelection mv 1 explored1)
    else if cost mv <? cost (best_move sel) then dret (mkSelection mv 1 explored1)
    else if cost mv =? cost (best_move sel) then
      dbind (Random_Int 0 (number_of_bests sel))
            (fun r => dret (mkSelection
                              (if r =? 0 then mv else best_move sel)
                              (to_uint (number_of_bests sel + 1)) explored1))
    else dret (mkSelection (best_move sel) (number_of_bests sel) explored1)
  else dret (mkSelection (best_move sel) (number_of_bests sel) explored1).

(** The critical sections run one after the other, in some order of the
    moves handed out by the iterator: [visits] is that order. *)
Definition visit_all (st : State) (AcceptMove : Move -> Z -> bool)
  (visits : list Move) : dist selection :=
  fold_left (fun d m => dbind d (fun sel => visit st AcceptMove sel m))
            visits (dret (mkSelection default_move 0 0)).

Definition result (sel : selection) : EvaluatedMove :=
  if number_of_bests sel =? 0 then empty else best_move sel.

(** [ParallelNeighborhoodExplorer::SelectBest]: [visits] is the whole
    neighborhood of the state. *)
Definition SelectBest (st : State) (AcceptMove : Move -> Z -> bool)
  (visits : list Move) : dist EvaluatedMove :=
  dbind (visit_all st AcceptMove visits) (fun sel => dret (result sel)).

(** [ParallelNeighborhoodExplorer::RandomBest]: [samples] are the moves
    drawn by the sample iterator. *)
Definition RandomBest (st : State) (AcceptMove : Move -> Z -> bool)
  (samples : list Move) : dist EvaluatedMove :=
  dbind (visit_all st AcceptMove samples) (fun sel => dret (result sel)).

(** The accepted moves of a list of visits, and those among them whose
    delta cost is [c]. *)
Definition accepted (st : State) (AcceptMove : Move -> Z -> bool)
  (visits : list Move) : list Move :=
  List.filter (fun m => AcceptMove m (DeltaCostFunctionComponents st m)) visits.

Definition tied_at (st : State) (c : Z) (ms : list Move) : list Move :=
  List.filter (fun m => DeltaCostFunctionComponents st m =? c) ms.

(** What the deterministic part of the selection knows after a list of
    visits: the least delta cost of an accepted move and the accepted moves
    that attain it, in the order of their visits. *)
Definition track (st : State) (AcceptMove : Move -> Z -> bool)
  (s : option (Z * list Move)) (m : Move) : option (Z * list Move) :=
  let c := DeltaCostFunctionComponents st m in
  if AcceptMove m c then
    match s with
    | None => Some (c, [m])
    | Some (c0, t) =>
        if c <? c0 then Some (c, [m])
        else if c =? c0 then Some (c0, t ++ [m])
        else s
    end
  else s.

Definition summary (st : State) (AcceptMove : Move -> Z -> bool)
  (visits : list Move) : option (Z * list Move) :=
  fold_left (track st AcceptMove) visits None.

(** The number of copies of [m] in a list of moves. *)
Definition copies (m : Move) (t : list Move) : nat :=
  length (List.filter (fun m' => bool_decide (m' = m)) t).

(** *** Expectations *)

Lemma expect_app {A : Type} (g : A -> Qc) (d1 d2 : dist A) :
  expect g (d1 ++ d2) = (expect g d1 + expect g d2)%Qc.
Proof.
  unfold expect. induction d1 as [|ap d1 IH]; simpl.
  - ring.
  - rewrite IH. ring.
Qed.

Lemma expect_scale {B : Type} (g : B -> Qc) (p : Qc) (d : dist B) :
  expect g (map (fun bq => (fst bq, (p * snd bq)%Qc)) d) = (p * expect g d)%Qc.
Proof.
  unfold expect. induction d as [|bq d IH]; simpl.
  - ring.
  - rewrite IH. ring.
Qed.

Lemma expect_dret {A : Type} (g : A -> Qc) (a : A) : expect g (dret a) = g a.
Proof. unfold expect, dret. simpl. ring. Qed.

Lemma expect_dbind {A B : Type} (g : B -> Qc) (d : dist A) (f : A -> dist B) :
  expect g (dbind d f) = expect (fun a => expect g (f a)) d.
Proof.
  unfold dbind. induction d as [|ap d IH]; simpl.
  - reflexivity.
  - rewrite expect_app, IH, expect_scale. reflexivity.
Qed.

Lemma expect_ext {A : Type} (g h : A -> Qc) (d : dist A) :
  (forall a p, In (a, p) d -> g a = h a) -> expect g d = expect h d.
Proof.
  unfold expect. induction d as [|[a p] d IH]; intros Hgh; simpl.
  - reflexivity.
  - rewrite (Hgh a p) by (now left). rewrite IH; auto.
    intros a' p' Hin. apply (Hgh a' p'). now right.
Qed.

Lemma expect_linear {A : Type} (g h : A -> Qc) (x y : Qc) (d : dist A) :
  expect (fun a => (x * g a + y * h a)%Qc) d = (x * expect g d + y * expect h d)%Qc.
Proof.
  unfold expect. induction d as [|[a p] d IH]; simpl.
  - ring.
  - rewrite IH. ring.
Qed.

Lemma in_dbind {A B : Type} (d : dist A) (f : A -> dist B) (b : B) (q : Qc) :
  In (b, q) (dbind d f) ->
  exists (a : A) (p q' : Qc), In (a, p) d /\ In (b, q') (f a).
Proof.
  unfold dbind. intros Hin. apply in_flat_map in Hin.
  destruct Hin as ([a p] & Hd & Hin). apply in_map_iff in Hin.
  destruct Hin as ([b' q'] & Heq & Hin). simpl in Heq. injection Heq as -> _.
  exists a, p, q'. auto.
Qed.

(** The draw of [Random::Int(0, n)] is [0] with probability
    [1 / (n + 1)]. *)
Lemma expect_seq_nonzero (x y w : Qc) : forall (len s : nat), (1 <= s)%nat ->
  expect (fun r : Z => if r =? 0 then x else y)
         (map (fun i : nat => (0 + Z.of_nat i, w)) (seq s len))
  = (w * (Qc_of_Z (Z.of_nat len) * y))%Qc.
Proof.
  induction len as [|len IH]; intros s Hs.
  - cbn [seq map]. unfold expect. cbn [foldr].
    change (Z.of_nat 0) with 0. rewrite Z2Qc_inj_0. ring.
  - cbn [seq map]. unfold expect in *. cbn [foldr fst snd].
    rewrite IH by lia.
    replace (0 + Z.of_nat s =? 0) with false by (symmetry; apply Z.eqb_neq; lia).
    rewrite Nat2Z.inj_succ, <- Z.add_1_r, Z2Qc_inj_add, Z2Qc_inj_1. ring.
Qed.

Lemma expect_Random_Int (x y : Qc) (n : Z) : 0 <= n ->
  (expect (fun r : Z => if r =? 0 then x else y) (Random_Int 0 n)
   * Qc_of_Z (n + 1) = x + Qc_of_Z n * y)%Qc.
Proof.
  intros Hn. unfold Random_Int.
  replace (Z.to_nat (n - 0 + 1)) with (S (Z.to_nat n)) by lia.
  cbn [seq map]. unfold expect at 1. cbn [foldr fst snd].
  fold (expect (fun r : Z => if r =? 0 then x else y)
          (map (fun i : nat =>
                  (0 + Z.of_nat i, (/ Qc_of_Z (Z.of_nat (S (Z.to_nat n))))%Qc))
               (seq 1 (Z.to_nat n)))).
  rewrite expect_seq_nonzero by lia.
  replace (Z.of_nat (S (Z.to_nat n))) with (n + 1) by lia.
  replace (Z.of_nat (Z.to_nat n)) with n by lia.
  change (0 + Z.of_nat 0 =? 0) with true. cbv iota.
  assert (Hnz : Qc_of_Z (n + 1) <> 0%Qc).
  { rewrite <- Z2Qc_inj_0. intros H. apply Z2Qc_inj in H. lia. }
  field. exact Hnz.
Qed.

Lemma expect_const {A : Type} (c : Qc) (d : dist A) :
  expect (fun _ => c) d = (c * expect (fun _ => 1%Qc) d)%Qc.
Proof.
  unfold expect. induction d as [|[a p] d IH]; simpl.
  - ring.
  - rewrite IH. ring.
Qed.

Lemma expect_scale_r {A : Type} (g : A -> Qc) (c : Qc) (d : dist A) :
  (expect g d * c)%Qc = expect (fun a => (g a * c)%Qc) d.
Proof.
  unfold expect. induction d as [|[a p] d IH]; simpl.
  - ring.
  - rewrite <- IH. ring.
Qed.

Lemma mass_Random_Int (n : Z) : 0 <= n -> expect (fun _ => 1%Qc) (Random_Int 0 n) = 1%Qc.
Proof.
  intros Hn.
  rewrite (expect_ext _ (fun r : Z => if r =? 0 then 1%Qc else 1%Qc))
    by (intros a p _; destruct (a =? 0); reflexivity).
  pose proof (expect_Random_Int 1 1 n Hn) as H.
  assert (Hnz : Qc_of_Z (n + 1) <> 0%Qc).
  { rewrite <- Z2Qc_inj_0. intros H0. apply Z2Qc_inj in H0. lia. }
  rewrite Z2Qc_inj_add, Z2Qc_inj_1 in H, Hnz.
  set (e := expect _ _) in *.
  replace e with (e * (Qc_of_Z n + 1) / (Qc_of_Z n + 1))%Qc by (field; exact Hnz).
  rewrite H. field. exact Hnz.
Qed.

(** A step that does not draw. *)
Lemma dbind_det {A B : Type} (d : dist A) (f : A -> dist B) (u : A -> B) :
  (forall a p, In (a, p) d -> f a = dret (u a)) ->
  (forall g : B -> Qc, expect g (dbind d f) = expect (fun a => g (u a)) d) /\
  (forall b q, In (b, q) (dbind d f) -> exists a p, In (a, p) d /\ b = u a).
Proof.
  intros Hf. split.
  - intros g. rewrite expect_dbind. apply expect_ext.
    intros a p Hin. rewrite (Hf a p Hin). apply expect_dret.
  - intros b q Hin. apply in_dbind in Hin.
    destruct Hin as (a & p & q' & Ha & Hb). rewrite (Hf a p Ha) in Hb.
    destruct Hb as [Heq|[]]. injection Heq as <- _. eauto.
Qed.

(** *** The four cases of a visit *)

Section Visits.

Variable st : State.
Variable AcceptMove : Move -> Z -> bool.

Let delta (m : Move) : Z := DeltaCostFunctionComponents st m.
Let evaluated (m : Move) : EvaluatedMove := mkEvaluated m (delta m) true.

Lemma visit_reject sel x : AcceptMove x (delta x) = false ->
  visit st AcceptMove sel x =
    dret (mkSelection (best_move sel) (number_of_bests sel) (explored sel + 1)).
Proof. intros H. unfold visit. simpl. fold (delta x). now rewrite H. Qed.

Lemma visit_first sel x :
  AcceptMove x (delta x) = true -> number_of_bests sel = 0 ->
  visit st AcceptMove sel x = dret (mkSelection (evaluated x) 1 (explored sel + 1)).
Proof.
  intros H H0. unfold visit. simpl. fold (delta x). now rewrite H, H0.
Qed.

Lemma visit_better sel x :
  AcceptMove x (delta x) = true -> number_of_bests sel <> 0 ->
  delta x < cost (best_move sel) ->
  visit st AcceptMove sel x = dret (mkSelection (evaluated x) 1 (explored sel + 1)).
Proof.
  intros H H0 Hlt. unfold visit. simpl. fold (delta x). rewrite H.
  apply Z.eqb_neq in H0. apply Z.ltb_lt in Hlt. now rewrite H0, Hlt.
Qed.

Lemma visit_tie sel x :
  AcceptMove x (delta x) = true -> number_of_bests sel <> 0 ->
  delta x = cost (best_move sel) ->
  visit st AcceptMove sel x =
    dbind (Random_Int 0 (number_of_bests sel))
          (fun r => dret (mkSelection
                            (if r =? 0 then evaluated x else best_move sel)
                            (to_uint (number_of_bests sel + 1)) (explored sel + 1))).
Proof.
  intros H H0 Heq. unfold visit. simpl. fold (delta x). rewrite H.
  apply Z.eqb_neq in H0. rewrite H0, Heq, Z.ltb_irrefl, Z.eqb_refl.
  rewrite <- Heq. reflexivity.
Qed.

Lemma visit_worse sel x :
  AcceptMove x (delta x) = true -> number_of_bests sel <> 0 ->
  cost (best_move sel) < delta x ->
  visit st AcceptMove sel x =
    dret (mkSelection (best_move sel) (number_of_bests sel) (explored sel + 1)).
Proof.
  intros H H0 Hlt. unfold visit. simpl. fold (delta x). rewrite H.
  apply Z.eqb_neq in H0. rewrite H0.
  replace (delta x <? cost (best_move sel)) with false
    by (symmetry; apply Z.ltb_ge; lia).
  replace (delta x =? cost (best_move sel)) with false
    by (symmetry; apply Z.eqb_neq; lia).
  reflexivity.
Qed.

(** The event "the best move is [m]". *)
Definition best_is (m : Move) (sel : selection) : bool :=
  bool_decide (move (best_move sel) = m).

Definition indicator (b : bool) : Qc := if b then 1%Qc else 0%Qc.

(** What holds of the distribution of the selection after visits whose
    summary is [s], [n] being a bound on the number of visits. *)
Definition sel_inv (n : nat) (s : option (Z * list Move)) (d : dist selection) : Prop :=
  expect (fun _ => 1%Qc) d = 1%Qc /\
  match s with
  | None => forall sel p, In (sel, p) d -> number_of_bests sel = 0
  | Some (c, t) =>
      (1 <= length t <= n)%nat /\
      (forall sel p, In (sel, p) d ->
         number_of_bests sel = Z.of_nat (length t) /\
         best_move sel = evaluated (move (best_move sel)) /\
         cost (best_move sel) = c /\
         In (move (best_move sel)) t) /\
      (forall m : Move,
         (prob (best_is m) d * Qc_of_Z (Z.of_nat (length t)))%Qc
         = Qc_of_Z (Z.of_nat (copies m t)))
  end.

Lemma copies_snoc m t x :
  copies m (t ++ [x]) = (copies m t + (if bool_decide (x = m) then 1 else 0))%nat.
Proof.
  unfold copies. rewrite List.filter_app, length_app. simpl.
  destruct (bool_decide (x = m)); reflexivity.
Qed.

Lemma sel_inv_reset (n : nat) (d : dist selection) x (u : selection -> selection) :
  expect (fun _ => 1%Qc) d = 1%Qc ->
  (forall sel, best_move (u sel) = evaluated x /\ number_of_bests (u sel) = 1) ->
  (forall sel p, In (sel, p) d -> visit st AcceptMove sel x = dret (u sel)) ->
  sel_inv (S n) (Some (delta x, [x]))
          (dbind d (fun sel => visit st AcceptMove sel x)).
Proof.
  intros Hmass Hu Hvisit.
  destruct (dbind_det d (fun sel => visit st AcceptMove sel x) u Hvisit) as [He Hs].
  split; [now rewrite He|].
  split; [simpl; lia|]. split.
  - intros sel' p' Hin. destruct (Hs sel' p' Hin) as (sel & p & _ & ->).
    destruct (Hu sel) as [-> ->]. simpl. auto.
  - intros m. unfold prob. rewrite He.
    rewrite (expect_ext _ (fun _ => indicator (bool_decide (x = m)))).
    + rewrite expect_const, Hmass. unfold copies. simpl.
      change (Z.of_nat 1) with 1. rewrite Z2Qc_inj_1.
      destruct (bool_decide (x = m)); unfold indicator.
      * change (Z.of_nat (length [x])) with 1. rewrite Z2Qc_inj_1. ring.
      * change (Z.of_nat (length (@nil Move))) with 0. rewrite Z2Qc_inj_0. ring.
    + intros sel p _. unfold best_is. destruct (Hu sel) as [-> _]. reflexivity.
Qed.

Lemma sel_inv_keep (n : nat) s (d : dist selection) x (u : selection -> selection) :
  sel_inv n s d ->
  (forall sel, best_move (u sel) = best_move sel /\
               number_of_bests (u sel) = number_of_bests sel) ->
  (forall sel p, In (sel, p) d -> visit st AcceptMove sel x = dret (u sel)) ->
  sel_inv (S n) s (dbind d (fun sel => visit st AcceptMove sel x)).
Proof.
  intros [Hmass Hinv] Hu Hvisit.
  destruct (dbind_det d (fun sel => visit st AcceptMove sel x) u Hvisit) as [He Hs].
  split; [now rewrite He|].
  destruct s as [[c t]|].
  - destruct Hinv as (Hlen & Hsupp & Hprob). split; [lia|]. split.
    + intros sel' p' Hin. destruct (Hs sel' p' Hin) as (sel & p & Hin' & ->).
      destruct (Hu sel) as [-> ->]. eauto.
    + intros m. rewrite <- (Hprob m). f_equal. unfold prob. rewrite He.
      apply expect_ext. intros sel p _. unfold best_is.
      destruct (Hu sel) as [-> _]. reflexivity.
  - intros sel' p' Hin. destruct (Hs sel' p' Hin) as (sel & p & Hin' & ->).
    destruct (Hu sel) as [_ ->]. eauto.
Qed.

Lemma sel_inv_tie (n : nat) c t (d : dist selection) x :
  Z.of_nat (S n) < 2 ^ 32 ->
  sel_inv n (Some (c, t)) d ->
  AcceptMove x (delta x) = true -> delta x = c ->
  sel_inv (S n) (Some (c, t ++ [x]))
          (dbind d (fun sel => visit st AcceptMove sel x)).
Proof.
  intros Hbound (Hmass & Hlen & Hsupp & Hprob) Hacc Hdelta.
  set (k := Z.of_nat (length t)) in *.
  assert (Hk : 1 <= k < 2 ^ 32 - 1) by (unfold k; lia).
  assert (Hvisit : forall sel p, In (sel, p) d ->
            visit st AcceptMove sel x =
            dbind (Random_Int 0 k)
                  (fun r => dret (mkSelection
                                    (if r =? 0 then evaluated x else best_move sel)
                                    (k + 1) (explored sel + 1)))).
  { intros sel p Hin. destruct (Hsupp sel p Hin) as (Hnob & _ & Hcost & _).
    rewrite visit_tie by (auto; lia). rewrite Hnob.
    now rewrite (to_uint_small (k + 1)) by lia. }
  split; [|split; [|split]].
  - rewrite expect_dbind.
    transitivity (expect (fun _ => 1%Qc) d); [|exact Hmass].
    apply expect_ext.
    intros sel p Hin. rewrite (Hvisit sel p Hin), expect_dbind.
    transitivity (expect (fun _ => 1%Qc) (Random_Int 0 k));
      [|apply mass_Random_Int; lia].
    apply expect_ext. intros r q _. exact (expect_dret (fun _ => 1%Qc) _).
  - rewrite length_app. simpl. lia.
  - intros sel' p' Hin. apply in_dbind in Hin.
    destruct Hin as (sel & p & q & Hin & Hin').
    rewrite (Hvisit sel p Hin) in Hin'. apply in_dbind in Hin'.
    destruct Hin' as (r & pr & q' & _ & [Heq|[]]). injection Heq as <- _.
    destruct (Hsupp sel p Hin) as (Hnob & Hbest & Hcost & Hmem). simpl.
    split; [rewrite length_app; simpl; unfold k; lia|].
    destruct (r =? 0); simpl.
    + repeat split; auto. apply in_or_app. right. now left.
    + repeat split; auto. apply in_or_app. now left.
  - intros m. rewrite length_app. simpl length.
    replace (Z.of_nat (length t + 1)) with (k + 1) by (unfold k; lia).
    unfold prob. rewrite expect_dbind, expect_scale_r.
    rewrite (expect_ext _
      (fun sel => (indicator (bool_decide (x = m)) * 1
                   + Qc_of_Z k * indicator (best_is m sel))%Qc)).
    + rewrite expect_linear, Hmass.
      change (expect (fun a => indicator (best_is m a)) d) with (prob (best_is m) d).
      rewrite (Qcmult_comm (Qc_of_Z k)), Hprob, copies_snoc.
      rewrite Nat2Z.inj_add, Z2Qc_inj_add.
      destruct (bool_decide (x = m)); unfold indicator;
        [change (Z.of_nat 1) with 1; rewrite Z2Qc_inj_1
        |change (Z.of_nat 0) with 0; rewrite Z2Qc_inj_0]; ring.
    + intros sel p Hin. rewrite (Hvisit sel p Hin), expect_dbind.
      rewrite <- (expect_Random_Int _ _ k) by lia. f_equal.
      apply expect_ext. intros r q _. rewrite expect_dret. unfold best_is. simpl.
      destruct (r =? 0); simpl; [|reflexivity].
      rewrite Qcmult_1_r. reflexivity.
Qed.

Lemma sel_inv_step (n : nat) s (d : dist selection) x :
  Z.of_nat (S n) < 2 ^ 32 -> sel_inv n s d ->
  sel_inv (S n) (track st AcceptMove s x)
          (dbind d (fun sel => visit st AcceptMove sel x)).
Proof.
  intros Hbound Hinv. unfold track. fold (delta x).
  destruct (AcceptMove x (delta x)) eqn:Hacc.
  - destruct s as [[c t]|].
    + pose proof Hinv as (Hmass & Hlen & Hsupp & _).
      destruct (delta x <? c) eqn:Hlt; [|destruct (delta x =? c) eqn:Heq].
      * apply Z.ltb_lt in Hlt.
        apply (sel_inv_reset n d x
                 (fun sel => mkSelection (evaluated x) 1 (explored sel + 1))); auto.
        intros sel p Hin. destruct (Hsupp sel p Hin) as (Hnob & _ & Hcost & _).
        apply visit_better; auto; lia.
      * apply Z.eqb_eq in Heq. now apply sel_inv_tie.
      * apply Z.ltb_ge in Hlt. apply Z.eqb_neq in Heq.
        apply (sel_inv_keep n _ d x
                 (fun sel => mkSelection (best_move sel) (number_of_bests sel)
                                         (explored sel + 1))); auto.
        intros sel p Hin. destruct (Hsupp sel p Hin) as (Hnob & _ & Hcost & _).
        apply visit_worse; auto; lia.
    + destruct Hinv as [Hmass Hsupp].
      apply (sel_inv_reset n d x
               (fun sel => mkSelection (evaluated x) 1 (explored sel + 1))); auto.
      intros sel p Hin. apply visit_first; auto. eapply Hsupp; eauto.
  - apply (sel_inv_keep n _ d x
             (fun sel => mkSelection (best_move sel) (number_of_bests sel)
                                     (explored sel + 1))); auto.
    intros sel p _. now apply visit_reject.
Qed.

Lemma visit_all_inv : forall visits : list Move,
  Z.of_nat (length visits) < 2 ^ 32 ->
  sel_inv (length visits) (summary st AcceptMove visits)
          (visit_all st AcceptMove visits).
Proof.
  induction visits as [|x visits IH] using rev_ind; intros Hbound.
  - split; [exact (expect_dret (fun _ => 1%Qc) _)|]. simpl.
    intros sel p [Heq|[]]. injection Heq as <- _. reflexivity.
  - unfold summary, visit_all. rewrite !fold_left_app. simpl.
    rewrite length_app in *. simpl in *.
    replace (length visits + 1)%nat with (S (length visits)) in * by lia.
    apply sel_inv_step; [lia|]. apply IH. lia.
Qed.

(** The summary is the least accepted delta cost and the accepted moves
    that attain it. *)
Lemma tied_at_none c (ms : list Move) :
  (forall m, In m ms -> delta m <> c) -> tied_at st c ms = [].
Proof.
  intros H. unfold tied_at. induction ms as [|m ms IH]; simpl; auto.
  fold (delta m).
  replace (delta m =? c) with false
    by (symmetry; apply Z.eqb_neq; apply H; now left).
  apply IH. intros m' Hin. apply H. now right.
Qed.

Lemma summary_spec : forall visits : list Move,
  match summary st AcceptMove visits with
  | None => accepted st AcceptMove visits = []
  | Some (c, t) =>
      t = tied_at st c (accepted st AcceptMove visits) /\
      (forall m, In m (accepted st AcceptMove visits) -> c <= delta m)
  end.
Proof.
  induction visits as [|x visits IH] using rev_ind; [reflexivity|].
  unfold summary, accepted in *. rewrite fold_left_app, List.filter_app. simpl.
  unfold track at 1. fold (delta x).
  destruct (AcceptMove x (delta x)) eqn:Hacc.
  - destruct (fold_left (track st AcceptMove) visits None) as [[c t]|].
    + destruct IH as [-> Hmin].
      destruct (delta x <? c) eqn:Hlt; [|destruct (delta x =? c) eqn:Heq].
      * apply Z.ltb_lt in Hlt. split.
        -- unfold tied_at at 1. rewrite List.filter_app. simpl.
           fold (delta x). rewrite Z.eqb_refl.
           fold (tied_at st (delta x)
                   (List.filter (fun m => AcceptMove m (DeltaCostFunctionComponents st m))
                                visits)).
           rewrite tied_at_none; [reflexivity|].
           intros m Hin. specialize (Hmin m Hin). lia.
        -- intros m Hin. apply in_app_or in Hin. destruct Hin as [Hin|[<-|[]]].
           ++ specialize (Hmin m Hin). lia.
           ++ lia.
      * apply Z.eqb_eq in Heq. split.
        -- unfold tied_at. rewrite List.filter_app. simpl. fold (delta x).
           replace (delta x =? c) with true by (symmetry; apply Z.eqb_eq; exact Heq).
           reflexivity.
        -- intros m Hin. apply in_app_or in Hin.
           destruct Hin as [Hin|[<-|[]]]; auto; lia.
      * apply Z.ltb_ge in Hlt. apply Z.eqb_neq in Heq. split.
        -- unfold tied_at. rewrite List.filter_app. simpl. fold (delta x).
           replace (delta x =? c) with false by (symmetry; apply Z.eqb_neq; exact Heq).
           now rewrite app_nil_r.
        -- intros m Hin. apply in_app_or in Hin.
           destruct Hin as [Hin|[<-|[]]]; auto; lia.
    + rewrite IH. simpl. split.
      * unfold tied_at. simpl. fold (delta x). now rewrite Z.eqb_refl.
      * intros m [<-|[]]. lia.
  - rewrite app_nil_r. exact IH.
Qed.

Lemma in_tied_at c (ms : list Move) m :
  In m (tied_at st c ms) <-> In m ms /\ delta m = c.
Proof.
  unfold tied_at. rewrite List.filter_In. fold (delta m). now rewrite Z.eqb_eq.
Qed.

Lemma copies_NoDup m (t : list Move) : List.NoDup t -> In m t -> copies m t = 1%nat.
Proof.
  unfold copies. induction 1 as [|a t Hnotin Hnd IH]; intros Hin; [destruct Hin|].
  simpl. destruct (bool_decide (a = m)) eqn:E.
  - apply bool_decide_eq_true in E. subst a. simpl. f_equal.
    rewrite (proj2 (List.length_zero_iff_nil _)); [reflexivity|].
    clear IH Hin Hnd. induction t as [|b t IHt]; simpl; auto.
    destruct (bool_decide (b = m)) eqn:Eb.
    + apply bool_decide_eq_true in Eb. subst b. exfalso. apply Hnotin. now left.
    + apply IHt. intros Hin. apply Hnotin. now right.
  - apply bool_decide_eq_false in E. destruct Hin as [->|Hin]; [congruence|].
    now apply IH.
Qed.

(** C2. [SelectBest] (and [RandomBest], over the sampled moves) returns
    the sentinel when no visited move is accepted, and otherwise an
    accepted move whose delta cost is the least among the accepted moves.
    When [k] accepted visits are tied at that least cost, the probability
    that a given move is returned is the number of its visits among them
    over [k]: [1 / k] for each when the visited moves are pairwise
    distinct. *)
Theorem SelectBest_uniform (visits : list Move) :
  Z.of_nat (length visits) < 2 ^ 31 ->
  let acc := accepted st AcceptMove visits in
  let sb := SelectBest st AcceptMove visits in
  RandomBest st AcceptMove visits = sb /\
  expect (fun _ => 1%Qc) sb = 1%Qc /\
  (acc = [] -> forall em p, In (em, p) sb -> em = empty) /\
  (acc <> [] -> forall em p, In (em, p) sb ->
     In (move em) acc /\
     cost em = DeltaCostFunctionComponents st (move em) /\
     is_valid em = true /\
     forall m, In m acc -> cost em <= DeltaCostFunctionComponents st m) /\
  (forall m : Move, In m acc ->
     (forall m', In m' acc ->
        DeltaCostFunctionComponents st m <= DeltaCostFunctionComponents st m') ->
     let tied := tied_at st (DeltaCostFunctionComponents st m) acc in
     (prob (fun em => bool_decide (move em = m)) sb * Qc_of_Z (Z.of_nat (length tied))
      = Qc_of_Z (Z.of_nat (copies m tied)))%Qc /\
     (List.NoDup visits ->
      prob (fun em => bool_decide (move em = m)) sb
      = (/ Qc_of_Z (Z.of_nat (length tied)))%Qc)).
Proof.
  intros Hbound acc sb.
  assert (Hbound' : Z.of_nat (length visits) < 2 ^ 32) by lia.
  pose proof (visit_all_inv visits Hbound') as [Hmass Hinv].
  pose proof (summary_spec visits) as Hspec. fold acc in Hspec.
  set (d := visit_all st AcceptMove visits) in *.
  destruct (dbind_det d (fun sel => dret (result sel)) result
              ltac:(intros; reflexivity)) as [He Hs].
  fold (SelectBest st AcceptMove visits) in He, Hs. fold sb in He, Hs.
  split; [reflexivity|]. split; [now rewrite He|].
  destruct (summary st AcceptMove visits) as [[c t]|].
  - destruct Hinv as (Hlen & Hsupp & Hprob). destruct Hspec as [Ht Hmin].
    assert (Hres : forall sel p, In (sel, p) d -> result sel = best_move sel).
    { intros sel p Hin. destruct (Hsupp sel p Hin) as (Hnob & _).
      unfold result. replace (number_of_bests sel =? 0) with false; auto.
      symmetry. apply Z.eqb_neq. lia. }
    split; [|split].
    + intros Hnil. rewrite Hnil in Ht. subst t. simpl in Hlen. lia.
    + intros _ em p Hin. destruct (Hs em p Hin) as (sel & q & Hin' & ->).
      rewrite (Hres sel q Hin').
      destruct (Hsupp sel q Hin') as (_ & Hbest & Hcost & Hmem).
      rewrite Ht in Hmem. apply in_tied_at in Hmem. destruct Hmem as [Hmem Hd].
      pose proof (f_equal cost Hbest) as Hc1.
      pose proof (f_equal is_valid Hbest) as Hv. simpl in Hc1, Hv.
      split; [exact Hmem|]. split; [exact Hc1|]. split; [exact Hv|].
      intros m Hm. rewrite Hcost. now apply Hmin.
    + intros m Hm Hleast tied.
      assert (Hc : delta m = c).
      { destruct t as [|m0 t']; [simpl in Hlen; lia|].
        assert (Hm0 : In m0 (tied_at st c acc)) by (rewrite <- Ht; now left).
        apply in_tied_at in Hm0. destruct Hm0 as [Hm0 Hd0].
        specialize (Hleast m0 Hm0). specialize (Hmin m Hm). unfold delta in *. lia. }
      assert (Htied : tied = t) by (unfold tied; fold (delta m); rewrite Hc; auto).
      assert (Hp : prob (fun em => bool_decide (move em = m)) sb = prob (best_is m) d).
      { unfold prob. rewrite He. apply expect_ext. intros sel p Hin.
        now rewrite (Hres sel p Hin). }
      rewrite Hp, Htied. split; [apply Hprob|].
      intros Hnd.
      assert (Hone : copies m t = 1%nat).
      { apply copies_NoDup.
        - rewrite Ht. unfold tied_at, acc, accepted. now do 2 apply List.NoDup_filter.
        - rewrite Ht. apply in_tied_at. auto. }
      pose proof (Hprob m) as Hpm. rewrite Hone in Hpm.
      change (Z.of_nat 1) with 1 in Hpm. rewrite Z2Qc_inj_1 in Hpm.
      assert (Hnz : Qc_of_Z (Z.of_nat (length t)) <> 0%Qc).
      { rewrite <- Z2Qc_inj_0. intros H0. apply Z2Qc_inj in H0. lia. }
      set (k := Qc_of_Z (Z.of_nat (length t))) in *.
      set (pr := prob (best_is m) d) in *.
      replace pr with (pr * k / k)%Qc by (field; exact Hnz).
      rewrite Hpm. field. exact Hnz.
  - split; [|split].
    + intros _ em p Hin. destruct (Hs em p Hin) as (sel & q & Hin' & ->).
      unfold result. now rewrite (Hinv sel q Hin').
    + intros Hne. contradiction.
    + intros m Hm. rewrite Hspec in Hm. destruct Hm.
Qed.

End Visits.

End WithMove.

Arguments mkEvaluated {Move} _ _ _.
Arguments move {Move} _.
Arguments cost {Move} _.

(** Three swaps of cost 4, 2 and 2, all accepted: the last two are tied at
    the least cost. *)
Definition ex_delta (_ : unit) (m : nat) : Z :=
  match m with O => 4 | _ => 2 end.

Definition ex_visits : list nat := [0; 1; 2]%nat.

Definition ex_empty : EvaluatedMove nat := mkEvaluated 99%nat 0 false.

Lemma SelectBest_uniform_ex :
  prob (fun em => bool_decide (move em = 2%nat))
       (SelectBest unit nat ex_delta ex_empty ex_empty tt (fun _ _ => true) ex_visits)
  = (/ Qc_of_Z 2)%Qc.
Proof.
  pose proof (SelectBest_uniform unit nat ex_delta ex_empty ex_empty tt
                (fun _ _ => true) ex_visits) as H.
  assert (Hbound : Z.of_nat (length ex_visits) < 2 ^ 31) by (vm_compute; reflexivity).
  destruct (H Hbound) as (_ & _ & _ & _ & Htie).
  assert (Hin : In 2%nat (accepted unit nat ex_delta tt (fun _ _ => true) ex_visits))
    by (vm_compute; tauto).
  assert (Hleast : forall m', In m' (accepted unit nat ex_delta tt (fun _ _ => true) ex_visits) ->
                              ex_delta tt 2%nat <= ex_delta tt m').
  { intros m' Hm'. vm_compute in Hm'.
    destruct Hm' as [<-|[<-|[<-|[]]]]; vm_compute; discriminate. }
  destruct (Htie 2%nat Hin Hleast) as [_ Hnodup].
  apply Hnodup. repeat constructor; simpl; intuition lia.
Defined.

End Selection.

(** ** The comparison operators of the cost structures (coststructure.hh) *)

Module CostOrder.

Import CostStructure.

(** The loop of the ordered comparisons of [HierarchicalCostStructure]
    ([operator<=], [operator>=], [operator>]; [operator<] has the same
    shape): [if (cs1[i] yes cs2[i]) return true; else if (cs1[i] no cs2[i])
    return false;] and [return at_end;] after the loop.  [n] rounds are
    left, [i] is the loop index. *)
Fixpoint hier_loop (yes no : Z -> Z -> bool) (at_end : bool) (n i : nat)
  (c1 c2 : list Z) : option bool :=
  match n with
  | O => Some at_end
  | S n' =>
      match c1 !! i, c2 !! i with
      | Some x, Some y =>
          if yes x y then Some true
          else if no x y then Some false
          else hier_loop yes no at_end n' (S i) c1 c2
      | _, _ => None
      end
  end.

(** The loop of [operator==]: [if (cs1[i] != cs2[i]) return false;]. *)
Fixpoint hier_eq_loop (n i : nat) (c1 c2 : list Z) : option bool :=
  match n with
  | O => Some true
  | S n' =>
      match c1 !! i, c2 !! i with
      | Some x, Some y =>
          if negb (x =? y) then Some false else hier_eq_loop n' (S i) c1 c2
      | _, _ => None
      end
  end.

Section WithDouble.

Variable double : Type.

(** [operator<=], [operator>=], [operator>], [operator==] and
    [operator!=] of two hierarchical cost structures: every loop runs over
    [cs1.size()] positions and reads [cs2[i]]. *)
Definition h_le (cs1 cs2 : HierarchicalCostStructure double) : option bool :=
  hier_loop Z.ltb Z.gtb true (h_size cs1) 0 (h_all_components cs1) (h_all_components cs2).

Definition h_ge (cs1 cs2 : HierarchicalCostStructure double) : option bool :=
  hier_loop Z.gtb Z.ltb true (h_size cs1) 0 (h_all_components cs1) (h_all_components cs2).

Definition h_gt (cs1 cs2 : HierarchicalCostStructure double) : option bool :=
  hier_loop Z.gtb Z.ltb false (h_size cs1) 0 (h_all_components cs1) (h_all_components cs2).

Definition h_eq (cs1 cs2 : HierarchicalCostStructure double) : option bool :=
  hier_eq_loop (h_size cs1) 0 (h_all_components cs1) (h_all_components cs2).

Definition h_ne (cs1 cs2 : HierarchicalCostStructure double) : option bool :=
  negb <$> h_eq cs1 cs2.

End WithDouble.

Arguments h_le {double} _ _.
Arguments h_ge {double} _ _.
Arguments h_gt {double} _ _.
Arguments h_eq {double} _ _.
Arguments h_ne {double} _ _.

(** The first position at which two vectors differ, among the positions of
    the first one, decides; [Eq] when there is none. *)
Fixpoint lex_compare (c1 c2 : list Z) : comparison :=
  match c1, c2 with
  | x :: c1', y :: c2' =>
      match x ?= y with
      | Eq => lex_compare c1' c2'
      | r => r
      end
  | _, _ => Eq
  end.

Definition ex_short : HierarchicalCostStructure unit := mkHierarchical 0 0 0 [1] tt false.
Definition ex_long : HierarchicalCostStructure unit := mkHierarchical 0 0 0 [1; 7] tt false.
Definition ex_c : HierarchicalCostStructure unit := mkHierarchical 0 0 0 [1; 5] tt false.

(** Three aggregated costs: [ex_wa] and [ex_wc] carry weights, [ex_ub]
    does not. *)
Definition ex_wa : DefaultCostStructure Z := mkDefault 10 0 10 [10] 1 true.
Definition ex_ub : DefaultCostStructure Z := mkDefault 5 0 5 [5] 5 false.
Definition ex_wc : DefaultCostStructure Z := mkDefault 0 0 0 [0] 2 true.

(** *** The loops as a three-way comparison *)

Lemma hier_lt_loop_hier_loop : forall (n i : nat) (c1 c2 : list Z),
  hier_lt_loop n i c1 c2 = hier_loop Z.ltb Z.gtb false n i c1 c2.
Proof.
  induction n as [|n IH]; intros i c1 c2; simpl; [reflexivity|].
  destruct (c1 !! i), (c2 !! i); try reflexivity.
  now rewrite IH.
Qed.

Lemma drop_lookup_cons {A : Type} (l : list A) (i : nat) (x : A) :
  l !! i = Some x -> drop i l = x :: drop (S i) l.
Proof.
  revert i. induction l as [|a l IH]; intros [|i] H; simplify_eq/=; auto.
Qed.

Lemma hier_loop_lt_compare (at_end : bool) : forall (n i : nat) (c1 c2 : list Z),
  length c1 = (i + n)%nat -> (i + n <= length c2)%nat ->
  hier_loop Z.ltb Z.gtb at_end n i c1 c2 =
  Some match lex_compare (drop i c1) (drop i c2) with
       | Lt => true | Gt => false | Eq => at_end
       end.
Proof.
  induction n as [|n IH]; intros i c1 c2 H1 H2.
  - simpl. rewrite drop_ge by lia. reflexivity.
  - simpl.
    destruct (lookup_lt_is_Some_2 c1 i ltac:(lia)) as [x Hx].
    destruct (lookup_lt_is_Some_2 c2 i ltac:(lia)) as [y Hy].
    rewrite Hx, Hy, (drop_lookup_cons _ _ _ Hx), (drop_lookup_cons _ _ _ Hy).
    cbn [lex_compare]. rewrite Z.gtb_ltb.
    destruct (Z.compare_spec x y) as [->|Hlt|Hgt].
    + rewrite Z.ltb_irrefl. apply IH; lia.
    + replace (x <? y) with true by (symmetry; apply Z.ltb_lt; lia). reflexivity.
    + replace (x <? y) with false by (symmetry; apply Z.ltb_ge; lia).
      replace (y <? x) with true by (symmetry; apply Z.ltb_lt; lia). reflexivity.
Qed.

Lemma hier_loop_gt_compare (at_end : bool) : forall (n i : nat) (c1 c2 : list Z),
  length c1 = (i + n)%nat -> (i + n <= length c2)%nat ->
  hier_loop Z.gtb Z.ltb at_end n i c1 c2 =
  Some match lex_compare (drop i c1) (drop i c2) with
       | Gt => true | Lt => false | Eq => at_end
       end.
Proof.
  induction n as [|n IH]; intros i c1 c2 H1 H2.
  - simpl. rewrite drop_ge by lia. reflexivity.
  - simpl.
    destruct (lookup_lt_is_Some_2 c1 i ltac:(lia)) as [x Hx].
    destruct (lookup_lt_is_Some_2 c2 i ltac:(lia)) as [y Hy].
    rewrite Hx, Hy, (drop_lookup_cons _ _ _ Hx), (drop_lookup_cons _ _ _ Hy).
    cbn [lex_compare]. rewrite Z.gtb_ltb.
    destruct (Z.compare_spec x y) as [->|Hlt|Hgt].
    + rewrite Z.ltb_irrefl. apply IH; lia.
    + replace (y <? x) with false by (symmetry; apply Z.ltb_ge; lia).
      replace (x <? y) with true by (symmetry; apply Z.ltb_lt; lia). reflexivity.
    + replace (y <? x) with true by (symmetry; apply Z.ltb_lt; lia). reflexivity.
Qed.

Lemma hier_eq_loop_compare : forall (n i : nat) (c1 c2 : list Z),
  length c1 = (i + n)%nat -> (i + n <= length c2)%nat ->
  hier_eq_loop n i c1 c2 =
  Some match lex_compare (drop i c1) (drop i c2) with
       | Eq => true | _ => false
       end.
Proof.
  induction n as [|n IH]; intros i c1 c2 H1 H2.
  - simpl. rewrite drop_ge by lia. reflexivity.
  - simpl.
    destruct (lookup_lt_is_Some_2 c1 i ltac:(lia)) as [x Hx].
    destruct (lookup_lt_is_Some_2 c2 i ltac:(lia)) as [y Hy].
    rewrite Hx, Hy, (drop_lookup_cons _ _ _ Hx), (drop_lookup_cons _ _ _ Hy).
    cbn [lex_compare].
    destruct (Z.compare_spec x y) as [->|Hlt|Hgt].
    + rewrite Z.eqb_refl. apply IH; lia.
    + replace (x =? y) with false by (symmetry; apply Z.eqb_neq; lia). reflexivity.
    + replace (x =? y) with false by (symmetry; apply Z.eqb_neq; lia). reflexivity.
Qed.

Lemma lex_compare_antisym : forall c1 c2 : list Z,
  length c1 = length c2 -> lex_compare c2 c1 = CompOpp (lex_compare c1 c2).
Proof.
  induction c1 as [|x c1 IH]; intros [|y c2] Hlen; simplify_eq/=; auto.
  rewrite (Z.compare_antisym x y).
  destruct (x ?= y); simpl; auto.
Qed.

Lemma lex_compare_Eq : forall c1 c2 : list Z,
  length c1 = length c2 -> (lex_compare c1 c2 = Eq <-> c1 = c2).
Proof.
  induction c1 as [|x c1 IH]; intros [|y c2] Hlen; simplify_eq/=.
  - tauto.
  - destruct (Z.compare_spec x y) as [->|Hlt|Hgt].
    + rewrite IH by auto. split; [now intros ->|now intros [= ->]].
    + split; [discriminate|]. intros [= -> _]. lia.
    + split; [discriminate|]. intros [= -> _]. lia.
Qed.

Lemma lex_compare_Lt_trans : forall c1 c2 c3 : list Z,
  length c1 = length c2 -> length c2 = length c3 ->
  lex_compare c1 c2 = Lt -> lex_compare c2 c3 = Lt -> lex_compare c1 c3 = Lt.
Proof.
  induction c1 as [|x c1 IH]; intros [|y c2] [|z c3] H1 H2; simplify_eq/=; auto.
  intros Ha Hb.
  destruct (x ?= y) eqn:Exy; try discriminate;
    destruct (y ?= z) eqn:Eyz; try discriminate.
  - apply Z.compare_eq in Exy. apply Z.compare_eq in Eyz. subst. rewrite Z.compare_refl. eauto.
  - apply Z.compare_eq in Exy. subst. now rewrite Eyz.
  - apply Z.compare_eq in Eyz. subst. now rewrite Exy.
  - rewrite Z.compare_lt_iff in Exy. rewrite Z.compare_lt_iff in Eyz.
    replace (x ?= z) with Lt by (symmetry; apply Z.compare_lt_iff; lia). reflexivity.
Qed.

Lemma lex_compare_prefix : forall c1 ext : list Z, lex_compare c1 (c1 ++ ext) = Eq.
Proof.
  induction c1 as [|x c1 IH]; intros ext; simpl; auto.
  now rewrite Z.compare_refl.
Qed.

(** A loop that finds the first [n] positions equal and has a further
    round to run reads past the end of the shorter vector. *)
Lemma hier_loop_overrun (yes no : Z -> Z -> bool) (at_end : bool) :
  (forall x, yes x x = false) -> (forall x, no x x = false) ->
  forall (n i : nat) (c1 c2 : list Z),
  (length c2 < i + n)%nat -> (i <= length c2)%nat ->
  (forall j : nat, (i <= j < length c2)%nat -> c1 !! j = c2 !! j) ->
  hier_loop yes no at_end n i c1 c2 = None.
Proof.
  intros Hyes Hno. induction n as [|n IH]; intros i c1 c2 Hlen Hi Hsame; [lia|].
  simpl. destruct (Nat.eq_dec i (length c2)) as [->|Hne].
  - rewrite (lookup_ge_None_2 c2) by lia. now destruct (c1 !! length c2).
  - destruct (lookup_lt_is_Some_2 c2 i ltac:(lia)) as [y Hy].
    rewrite (Hsame i) by lia. rewrite Hy, Hyes, Hno.
    apply IH; try lia. intros j Hj. apply Hsame. lia.
Qed.

Lemma hier_eq_loop_overrun : forall (n i : nat) (c1 c2 : list Z),
  (length c2 < i + n)%nat -> (i <= length c2)%nat ->
  (forall j : nat, (i <= j < length c2)%nat -> c1 !! j = c2 !! j) ->
  hier_eq_loop n i c1 c2 = None.
Proof.
  induction n as [|n IH]; intros i c1 c2 Hlen Hi Hsame; [lia|].
  simpl. destruct (Nat.eq_dec i (length c2)) as [->|Hne].
  - rewrite (lookup_ge_None_2 c2) by lia. now destruct (c1 !! length c2).
  - destruct (lookup_lt_is_Some_2 c2 i ltac:(lia)) as [y Hy].
    rewrite (Hsame i) by lia. rewrite Hy, Z.eqb_refl. cbn [negb].
    apply IH; try lia. intros j Hj. apply Hsame. lia.
Qed.

(** *** The comparison operators of the hierarchical cost structure *)

(** X1. The six operators agree with one another whenever the right operand
    has at least as many components as the left one: exactly one of [<],
    [==], [>] holds, [<=] is [<] or [==], [>=] is [>] or [==], and [!=]
    is the negation of [==]. *)
Theorem hierarchical_operators_agree {double : Type}
  (a b : HierarchicalCostStructure double) :
  (h_size a <= h_size b)%nat ->
  exists l e g : bool,
    h_lt a b = Some l /\ h_eq a b = Some e /\ h_gt a b = Some g /\
    ((l = true /\ e = false /\ g = false) \/
     (l = false /\ e = true /\ g = false) \/
     (l = false /\ e = false /\ g = true)) /\
    h_le a b = Some (l || e) /\ h_ge a b = Some (g || e) /\
    h_ne a b = Some (negb e).
Proof.
  intros Hsz. unfold h_lt, h_le, h_ge, h_gt, h_ne, h_eq, h_size in *.
  rewrite hier_lt_loop_hier_loop.
  rewrite !hier_loop_lt_compare, !hier_loop_gt_compare, hier_eq_loop_compare by (simpl; lia).
  rewrite !drop_0.
  destruct (lex_compare (h_all_components a) (h_all_components b));
    do 3 eexists; repeat (split; [reflexivity|]); cbn; split; auto.
Qed.

Lemma hierarchical_operators_agree_ex :
  (h_size ex_short <= h_size ex_long)%nat /\
  exists l e g : bool,
    h_lt ex_short ex_long = Some l /\ h_eq ex_short ex_long = Some e /\
    h_gt ex_short ex_long = Some g /\
    ((l = true /\ e = false /\ g = false) \/
     (l = false /\ e = true /\ g = false) \/
     (l = false /\ e = false /\ g = true)) /\
    h_le ex_short ex_long = Some (l || e) /\ h_ge ex_short ex_long = Some (g || e) /\
    h_ne ex_short ex_long = Some (negb e).
Proof.
  assert (H : (h_size ex_short <= h_size ex_long)%nat) by (vm_compute; lia).
  split; [exact H | exact (hierarchical_operators_agree ex_short ex_long H)].
Defined.

(** X2. On cost structures with the same number of components [<] is a strict
    total order: irreflexive, transitive, and of two structures with
    different component vectors one is less than the other; [==] holds
    exactly for equal component vectors, and [a > b] is [b < a]. *)
Theorem hierarchical_strict_total_order {double : Type}
  (a b c : HierarchicalCostStructure double) :
  h_size a = h_size b -> h_size b = h_size c ->
  h_lt a a = Some false /\
  (h_lt a b = Some true -> h_lt b c = Some true -> h_lt a c = Some true) /\
  (h_eq a b = Some true <-> h_all_components a = h_all_components b) /\
  (h_all_components a <> h_all_components b ->
   h_lt a b = Some true \/ h_lt b a = Some true) /\
  h_gt a b = h_lt b a /\ h_ge a b = h_le b a /\ h_eq a b = h_eq b a.
Proof.
  intros Hab Hbc. unfold h_lt, h_le, h_ge, h_gt, h_eq, h_size in *.
  rewrite !hier_lt_loop_hier_loop.
  rewrite !hier_loop_lt_compare, !hier_loop_gt_compare, !hier_eq_loop_compare
    by (simpl; lia).
  rewrite !drop_0.
  set (ca := h_all_components a) in *. set (cb := h_all_components b) in *.
  set (cc := h_all_components c) in *.
  pose proof (lex_compare_antisym ca cb Hab) as Hanti.
  pose proof (lex_compare_Eq ca cb Hab) as Heq.
  pose proof (lex_compare_Eq ca ca eq_refl) as Hrefl.
  repeat split.
  - destruct (lex_compare ca ca) eqn:E; auto;
      assert (Eq = Eq) by reflexivity; destruct Hrefl as [_ Hr];
      specialize (Hr eq_refl); congruence.
  - intros H1 H2.
    assert (E1 : lex_compare ca cb = Lt) by (destruct (lex_compare ca cb); congruence).
    assert (E2 : lex_compare cb cc = Lt) by (destruct (lex_compare cb cc); congruence).
    now rewrite (lex_compare_Lt_trans ca cb cc Hab Hbc E1 E2).
  - intros H. apply Heq. destruct (lex_compare ca cb); congruence.
  - intros H. apply Heq in H. now rewrite H.
  - intros Hne. rewrite Hanti. destruct (lex_compare ca cb) eqn:E; simpl; auto.
    exfalso. apply Hne. now apply Heq.
  - rewrite Hanti. now destruct (lex_compare ca cb).
  - rewrite Hanti. now destruct (lex_compare ca cb).
  - rewrite Hanti. now destruct (lex_compare ca cb).
Qed.

Lemma hierarchical_strict_total_order_ex :
  h_lt ex_c ex_long = Some true /\ h_gt ex_long ex_c = h_lt ex_c ex_long.
Proof.
  pose proof (hierarchical_strict_total_order ex_long ex_c ex_c eq_refl eq_refl)
    as (_ & _ & _ & _ & H & _).
  split; [reflexivity | exact H].
Defined.

(** X3. Only the components of the left operand are compared: a structure
    whose components are the first components of another one is [==],
    [<=] and [>=] to it and neither [<] nor [>]; so is the
    default-constructed structure, which has no component, to every
    structure.  With the operands exchanged the comparisons read past the
    end of the shorter vector. *)
Theorem hierarchical_prefix_equal {double : Type}
  (a b : HierarchicalCostStructure double) (ext : list Z) :
  h_all_components b = h_all_components a ++ ext ->
  h_eq a b = Some true /\ h_le a b = Some true /\ h_ge a b = Some true /\
  h_lt a b = Some false /\ h_gt a b = Some false /\ h_ne a b = Some false /\
  (ext <> [] ->
   h_eq b a = None /\ h_lt b a = None /\ h_le b a = None /\
   h_gt b a = None /\ h_ge b a = None).
Proof.
  intros Hb. unfold h_lt, h_le, h_ge, h_gt, h_ne, h_eq, h_size.
  rewrite !hier_lt_loop_hier_loop. rewrite Hb.
  rewrite !hier_loop_lt_compare, !hier_loop_gt_compare, !hier_eq_loop_compare
    by (rewrite ?length_app; simpl; lia).
  rewrite !drop_0, lex_compare_prefix.
  do 6 (split; [reflexivity|]).
  intros Hext.
  assert (Hlen : (length (h_all_components a) < length (h_all_components a ++ ext))%nat)
    by (rewrite length_app; destruct ext; [congruence | simpl; lia]).
  assert (Hsame : forall j : nat, (0 <= j < length (h_all_components a))%nat ->
            (h_all_components a ++ ext) !! j = h_all_components a !! j)
    by (intros j Hj; now rewrite lookup_app_l by lia).
  assert (Hlt : forall x, (x <? x) = false) by (intros x; apply Z.ltb_irrefl).
  assert (Hgt : forall x, (x >? x) = false)
    by (intros x; rewrite Z.gtb_ltb; apply Z.ltb_irrefl).
  split; [apply hier_eq_loop_overrun; auto; lia|].
  repeat split; apply hier_loop_overrun; auto; lia.
Qed.

Lemma hierarchical_prefix_equal_ex :
  h_eq ex_short ex_long = Some true /\ h_eq ex_long ex_short = None.
Proof.
  pose proof (hierarchical_prefix_equal ex_short ex_long [7] eq_refl)
    as (H1 & _ & _ & _ & _ & _ & H2).
  split; [exact H1|]. apply H2. discriminate.
Defined.

(** *** The aggregated order across the two regimes *)

(** X4. [operator<] of [DefaultCostStructure] is not transitive when weighted
    and unweighted costs are mixed: two weighted costs are compared by
    their weighted scalars, a weighted and an unweighted one by their
    totals. *)
Theorem aggregated_lt_not_transitive {double : Type}
  (LessThan_double : double -> double -> bool)
  (a b c : DefaultCostStructure double) :
  is_weighted a = true -> is_weighted b = false -> is_weighted c = true ->
  LessThan_double (weighted a) (weighted c) = true ->
  total c < total b -> total b <= total a ->
  lt LessThan_double a c = true /\ lt LessThan_double c b = true /\
  lt LessThan_double a b = false.
Proof.
  intros Ha Hb Hc Hw H1 H2. unfold lt, LessThan. rewrite Ha, Hb, Hc. simpl.
  repeat split; auto.
  - apply Z.ltb_lt. lia.
  - apply Z.ltb_ge. lia.
Qed.

Lemma aggregated_lt_not_transitive_ex :
  lt Z.ltb ex_wa ex_wc = true /\ lt Z.ltb ex_wc ex_ub = true /\
  lt Z.ltb ex_wa ex_ub = false.
Proof.
  apply (aggregated_lt_not_transitive Z.ltb ex_wa ex_ub ex_wc);
    try reflexivity; vm_compute; congruence.
Defined.

End CostOrder.

(** ** The state manager (statemanager.hh) *)

(** Modelled from the spec: utils/Types.hh only declares [EqualTo]; on an
    integral cost type it is the equality test. *)
Definition EqualTo (value1 value2 : Z) : bool := value1 =? value2.

Module StateManager.

Import CostStructure.

(** [HARD_WEIGHT] *)
Definition HARD_WEIGHT : Z := 1000.

Section WithState.

(** The input is immutable: the components and the random state generator
    are taken with it applied.  [Rng] is the state of the random source. *)
Variables State Rng double : Type.

(** The arithmetic of [double] is abstract: the sum, the product and the
    conversion of an [int]. *)
Variable dzero : double.
Variables dadd dmul : double -> double -> double.
Variable d_of_Z : Z -> double.

(** [EqualTo<double>] *)
Variable EqualTo_double : double -> double -> bool.
Variable LessThan_double : double -> double -> bool.

(** What the state manager reads of a [CostComponent]: [Cost(in, st)],
    [IsHard()] and the member [hash] (a [size_t]). *)
Record CostComponent : Type := mkComponent {
  Cost : State -> Z;
  IsHard : bool;
  hash : nat
}.

(** The data members [cost_component] and [cost_component_index]. *)
Record StateManager : Type := mkStateManager {
  cost_component : list CostComponent;
  cost_component_index : gmap nat nat
}.

(** The manager before any component is added. *)
Definition empty_manager : StateManager := mkStateManager [] ∅.

(** [AddCostComponent] *)
Definition AddCostComponent (sm : StateManager) (cc : CostComponent) : StateManager :=
  let index := length (cost_component sm) in
  mkStateManager (cost_component sm ++ [cc])
                 (<[hash cc := index]> (cost_component_index sm)).

(** [CostComponents()] *)
Definition CostComponents (sm : StateManager) : nat := length (cost_component sm).

(** [GetCostComponent(i)]: [*cost_component[i]]. *)
Definition GetCostComponent (sm : StateManager) (i : nat) : option CostComponent :=
  cost_component sm !! i.

(** [CostComponentIndex(cc)]: [cost_component_index.at(cc.hash)], which
    throws [std::out_of_range] ([None]) on a missing key. *)
Definition CostComponentIndex (sm : StateManager) (cc : CostComponent) : option nat :=
  cost_component_index sm !! hash cc.

(** The local variables of [CostFunctionComponents]. *)
Record evaluation : Type := mkEvaluation {
  hard_cost : Z;
  soft_cost : Z;
  weighted_cost : double;
  cost_function : list Z
}.

(** One round of the loop of [CostFunctionComponents]. *)
Definition evaluate_component (sm : StateManager) (st : State) (weights : list double)
  (acc : option evaluation) (i : nat) : option evaluation :=
  match acc, cost_component sm !! i with
  | Some e, Some cc =>
      let current_cost := Cost cc st in
      let cost_function1 := <[i := current_cost]> (cost_function e) in
      if IsHard cc then
        match weights with
        | [] => Some (mkEvaluation (hard_cost e + current_cost) (soft_cost e)
                                   (weighted_cost e) cost_function1)
        | _ =>
            match weights !! i with
            | Some w =>
                Some (mkEvaluation (hard_cost e + current_cost) (soft_cost e)
                        (dadd (weighted_cost e)
                              (dmul (dmul (d_of_Z HARD_WEIGHT) w) (d_of_Z current_cost)))
                        cost_function1)
            | None => None
            end
        end
      else
        match weights with
        | [] => Some (mkEvaluation (hard_cost e) (soft_cost e + current_cost)
                                   (weighted_cost e) cost_function1)
        | _ =>
            match weights !! i with
            | Some w =>
                Some (mkEvaluation (hard_cost e) (soft_cost e + current_cost)
                        (dadd (weighted_cost e) (dmul w (d_of_Z current_cost)))
                        cost_function1)
            | None => None
            end
        end
  | _, _ => None
  end.

(** [CostFunctionComponents(in, st, weights)]; the constructor without the
    weighted scalar stores the total in it.  The sums are exact: they are
    the ones of the source as long as they fit [CFtype]. *)
Definition CostFunctionComponents (sm : StateManager) (st : State)
  (weights : list double) : option (DefaultCostStructure double) :=
  let start := mkEvaluation 0 0 dzero (replicate (CostComponents sm) 0) in
  match fold_left (evaluate_component sm st weights)
                  (seq 0 (length (cost_component sm))) (Some start) with
  | Some e =>
      let total := HARD_WEIGHT * hard_cost e + soft_cost e in
      match weights with
      | [] => Some (mkDefault total (hard_cost e) (soft_cost e) (cost_function e)
                              (d_of_Z total) false)
      | _ => Some (mkDefault total (hard_cost e) (soft_cost e) (cost_function e)
                             (weighted_cost e) true)
      end
  | None => None
  end.

(** [operator==(const DefaultCostStructure&, OtherType)] for an [int]
    right operand. *)
Definition eq_scalar (cs1 : DefaultCostStructure double) (c2 : Z) : bool :=
  if is_weighted cs1 then EqualTo_double (weighted cs1) (d_of_Z c2)
  else EqualTo (total cs1) c2.

(** [LowerBoundReached]: [costs == 0]. *)
Definition LowerBoundReached (costs : DefaultCostStructure double) : bool :=
  eq_scalar costs 0.

(** [OptimalStateReached] *)
Definition OptimalStateReached (sm : StateManager) (st : State) : option bool :=
  LowerBoundReached <$> CostFunctionComponents sm st [].

(** [RandomState] is pure virtual: it rewrites the state from the random
    source. *)
Variable RandomState : State -> Rng -> State * Rng.

(** The [while (s < samples)] loop of [SampleState] with [n] rounds
    left. *)
Fixpoint sample_loop (sm : StateManager) (n : nat) (st best_state : State)
  (best_cost : DefaultCostStructure double) (g : Rng)
  : option (State * DefaultCostStructure double * Rng) :=
  match n with
  | O => Some (best_state, best_cost, g)
  | S n' =>
      let (st1, g1) := RandomState st g in
      match CostFunctionComponents sm st1 [] with
      | Some cost =>
          if lt LessThan_double cost best_cost
          then sample_loop sm n' st1 st1 cost g1
          else sample_loop sm n' st1 best_state best_cost g1
      | None => None
      end
  end.

(** [SampleState(in, st, samples)]: the state written to [st], the cost
    returned and the random source left.  The loop counter [s] starts at
    1, so the loop runs [samples - 1] times (never for [samples = 0]). *)
Definition SampleState (sm : StateManager) (st : State) (samples : Z) (g : Rng)
  : option (State * DefaultCostStructure double * Rng) :=
  let (st1, g1) := RandomState st g in
  match CostFunctionComponents sm st1 [] with
  | Some cost => sample_loop sm (Z.to_nat (samples - 1)) st1 st1 cost g1
  | None => None
  end.

(** The states [RandomState] produces in [n] successive calls. *)
Fixpoint sampled (n : nat) (st : State) (g : Rng) : list State :=
  match n with
  | O => []
  | S n' => let (st1, g1) := RandomState st g in st1 :: sampled n' st1 g1
  end.

(** The manager after the components [ccs] have been added in turn. *)
Definition add_all (ccs : list CostComponent) : StateManager :=
  fold_left AddCostComponent ccs empty_manager.

(** The sum of the costs of the hard (respectively soft) components. *)
Definition sum_costs (hard : bool) (st : State) (ccs : list CostComponent) : Z :=
  foldr (fun cc acc => (if eqb (IsHard cc) hard then Cost cc st else 0) + acc) 0 ccs.

End WithState.

Arguments mkComponent {State} _ _ _.
Arguments Cost {State} _ _.
Arguments IsHard {State} _.
Arguments hash {State} _.
Arguments mkStateManager {State} _ _.
Arguments cost_component {State} _.
Arguments cost_component_index {State} _.
Arguments empty_manager {State}.
Arguments AddCostComponent {State} _ _.
Arguments CostComponents {State} _.
Arguments GetCostComponent {State} _ _.
Arguments CostComponentIndex {State} _ _.
Arguments CostFunctionComponents {State double} _ _ _ _ _ _ _.
Arguments OptimalStateReached {State double} _ _ _ _ _ _ _.
Arguments SampleState {State Rng double} _ _ _ _ _ _ _ _ _ _.
Arguments sampled {State Rng} _ _ _ _.
Arguments sum_costs {State} _ _ _.
Arguments add_all {State} _.

(** Two components over a state that is a pair of integers: a hard one
    and a soft one. *)
Definition ex_hard : CostComponent (Z * Z) := mkComponent fst true 11.
Definition ex_soft : CostComponent (Z * Z) := mkComponent snd false 22.

Definition ex_sm : StateManager (Z * Z) := add_all [ex_hard; ex_soft].

(** A random source that is the list of the states to come. *)
Definition ex_random (st : Z * Z) (g : list (Z * Z)) : (Z * Z) * list (Z * Z) :=
  match g with
  | s :: g' => (s, g')
  | [] => (st, [])
  end.

(** *** The evaluation loop *)

Section Evaluation.

Context {State double : Type}.
Variable dzero : double.
Variables dadd dmul : double -> double -> double.
Variable d_of_Z : Z -> double.

Lemma sum_costs_app (hard : bool) (st : State) (l1 l2 : list (CostComponent State)) :
  sum_costs hard st (l1 ++ l2) = sum_costs hard st l1 + sum_costs hard st l2.
Proof.
  unfold sum_costs. induction l1 as [|cc l1 IH]; simpl; [reflexivity|].
  rewrite IH. lia.
Qed.

Lemma evaluate_rounds (sm : StateManager State) (st : State) (weights : list double) :
  weights = [] \/ (length (cost_component sm) <= length weights)%nat ->
  forall k : nat, (k <= length (cost_component sm))%nat ->
  exists e : evaluation double,
    fold_left (evaluate_component State double dadd dmul d_of_Z sm st weights) (seq 0 k)
      (Some (mkEvaluation double 0 0 dzero (replicate (CostComponents sm) 0))) = Some e /\
    hard_cost double e = sum_costs true st (take k (cost_component sm)) /\
    soft_cost double e = sum_costs false st (take k (cost_component sm)) /\
    cost_function double e =
      ((fun cc => Cost cc st) <$> take k (cost_component sm))
      ++ replicate (length (cost_component sm) - k) 0.
Proof.
  intros Hw. induction k as [|k IH]; intros Hk.
  - eexists. split; [reflexivity|]. cbn. rewrite Nat.sub_0_r. auto.
  - destruct IH as (e & He & Hh & Hs & Hc); [lia|].
    rewrite seq_S, fold_left_app, He. cbn [fold_left Nat.add].
    destruct (lookup_lt_is_Some_2 (cost_component sm) k ltac:(lia)) as [cc Hcc].
    unfold evaluate_component. rewrite Hcc.
    rewrite (take_S_r _ _ _ Hcc), !sum_costs_app, fmap_app.
    assert (Hins : <[k := Cost cc st]> (cost_function double e) =
              (((fun cc => Cost cc st) <$> take k (cost_component sm)) ++ [Cost cc st])
              ++ replicate (length (cost_component sm) - S k) 0).
    { rewrite Hc.
      replace (length (cost_component sm) - k)%nat
        with (S (length (cost_component sm) - S k)) by lia.
      cbn [replicate].
      rewrite insert_app_r_alt by (rewrite length_fmap, length_take; lia).
      rewrite length_fmap, length_take.
      replace (k - k `min` length (cost_component sm))%nat with 0%nat by lia.
      cbn. now rewrite <- app_assoc. }
    assert (Hw' : weights = [] \/ exists w, weights !! k = Some w).
    { destruct Hw as [Hw|Hw]; [now left|right].
      apply lookup_lt_is_Some_2. lia. }
    unfold sum_costs at 2 4. cbn [foldr fmap list_fmap].
    destruct (IsHard cc) eqn:Ehard; cbn [eqb].
    + destruct Hw' as [->|(w & Hwk)].
      * eexists. split; [reflexivity|]. cbn. repeat split; try lia. exact Hins.
      * rewrite Hwk. destruct weights; [discriminate|].
        eexists. split; [reflexivity|]. cbn. repeat split; try lia. exact Hins.
    + destruct Hw' as [->|(w & Hwk)].
      * eexists. split; [reflexivity|]. cbn. repeat split; try lia. exact Hins.
      * rewrite Hwk. destruct weights; [discriminate|].
        eexists. split; [reflexivity|]. cbn. repeat split; try lia. exact Hins.
Qed.

Lemma sum_costs_components (st : State) (ccs : list (CostComponent State)) :
  foldr Z.add 0 ((fun cc => Cost cc st) <$> ccs)
  = sum_costs true st ccs + sum_costs false st ccs.
Proof.
  unfold sum_costs. induction ccs as [|cc ccs IH]; cbn; [reflexivity|].
  rewrite IH. destruct (IsHard cc); cbn; lia.
Qed.

(** The result of [CostFunctionComponents]. *)
Lemma CostFunctionComponents_eval (sm : StateManager State) (st : State)
  (weights : list double) :
  weights = [] \/ (length (cost_component sm) <= length weights)%nat ->
  exists (r : DefaultCostStructure double),
    CostFunctionComponents dzero dadd dmul d_of_Z sm st weights = Some r /\
    total r = HARD_WEIGHT * violations r + objective r /\
    violations r = sum_costs true st (cost_component sm) /\
    objective r = sum_costs false st (cost_component sm) /\
    all_components r = (fun cc => Cost cc st) <$> cost_component sm /\
    is_weighted r = match weights with [] => false | _ => true end.
Proof.
  intros Hw.
  destruct (evaluate_rounds sm st weights Hw (length (cost_component sm)) (le_n _))
    as (e & He & Hh & Hs & Hc).
  unfold CostFunctionComponents. rewrite He.
  rewrite firstn_all in Hh, Hs, Hc. rewrite Nat.sub_diag, app_nil_r in Hc.
  destruct weights; eexists; (split; [reflexivity|]); cbn; auto.
Qed.

(** X5. The total is [HARD_WEIGHT] times the violations plus the objective,
    the violations are the sum of the hard components, the objective the
    sum of the soft ones, the components are listed in the order of their
    insertion, and the result carries weights exactly when weights were
    given.  The relation between total, violations and objective carries
    over to the difference of two evaluations. *)
Theorem CostFunctionComponents_spec (sm : StateManager State) (st st' : State)
  (weights : list double) :
  weights = [] \/ (length (cost_component sm) <= length weights)%nat ->
  exists (r r' : DefaultCostStructure double),
    CostFunctionComponents dzero dadd dmul d_of_Z sm st weights = Some r /\
    CostFunctionComponents dzero dadd dmul d_of_Z sm st' weights = Some r' /\
    total r = HARD_WEIGHT * violations r + objective r /\
    violations r = sum_costs true st (cost_component sm) /\
    objective r = sum_costs false st (cost_component sm) /\
    all_components r = (fun cc => Cost cc st) <$> cost_component sm /\
    foldr Z.add 0 (all_components r) = violations r + objective r /\
    (is_weighted r = true <-> weights <> []) /\
    total (sub r' r) = HARD_WEIGHT * violations (sub r' r) + objective (sub r' r).
Proof.
  intros Hw.
  destruct (CostFunctionComponents_eval sm st weights Hw)
    as (r & Hr & Ht & Hv & Ho & Hc & Hiw).
  destruct (CostFunctionComponents_eval sm st' weights Hw)
    as (r' & Hr' & Ht' & _).
  exists r, r'. repeat (split; [assumption|]).
  split; [rewrite Hc, Hv, Ho; apply sum_costs_components|].
  split; [rewrite Hiw; destruct weights; split; congruence|].
  cbn. lia.
Qed.

End Evaluation.

Lemma CostFunctionComponents_spec_ex :
  exists r r' : DefaultCostStructure Z,
    CostFunctionComponents 0 Z.add Z.mul id ex_sm (2, 3) [] = Some r /\
    CostFunctionComponents 0 Z.add Z.mul id ex_sm (0, 1) [] = Some r' /\
    total r = HARD_WEIGHT * violations r + objective r /\
    violations r = sum_costs true (2, 3) (cost_component ex_sm) /\
    objective r = sum_costs false (2, 3) (cost_component ex_sm) /\
    all_components r = (fun cc => Cost cc (2, 3)) <$> cost_component ex_sm /\
    foldr Z.add 0 (all_components r) = violations r + objective r /\
    (is_weighted r = true <-> @nil Z <> []) /\
    total (sub r' r) = HARD_WEIGHT * violations (sub r' r) + objective (sub r' r).
Proof.
  apply (CostFunctionComponents_spec 0 Z.add Z.mul id ex_sm (2, 3) (0, 1) []).
  left. reflexivity.
Defined.

(** *** The lower bound *)

Lemma sum_costs_nonneg {State : Type} (hard : bool) (st : State)
  (ccs : list (CostComponent State)) :
  (forall cc, In cc ccs -> 0 <= Cost cc st) -> 0 <= sum_costs hard st ccs.
Proof.
  unfold sum_costs. induction ccs as [|c ccs IH]; intros Hpos; cbn [foldr]; [lia|].
  assert (0 <= Cost c st) by (apply Hpos; now left).
  specialize (IH ltac:(intros cc Hin; apply Hpos; now right)).
  destruct (eqb (IsHard c) hard); lia.
Qed.

Lemma sum_costs_zero {State : Type} (st : State) (ccs : list (CostComponent State)) :
  (forall cc, In cc ccs -> 0 <= Cost cc st) ->
  HARD_WEIGHT * sum_costs true st ccs + sum_costs false st ccs = 0 <->
  forall cc, In cc ccs -> Cost cc st = 0.
Proof.
  unfold HARD_WEIGHT. induction ccs as [|c ccs IH]; intros Hpos.
  - cbn. split; [intros _ cc []|reflexivity].
  - assert (Hc : 0 <= Cost c st) by (apply Hpos; now left).
    assert (Hrest : forall cc, In cc ccs -> 0 <= Cost cc st)
      by (intros cc Hin; apply Hpos; now right).
    specialize (IH Hrest).
    pose proof (sum_costs_nonneg true st ccs Hrest) as Hh1.
    pose proof (sum_costs_nonneg false st ccs Hrest) as Hh2.
    unfold sum_costs in *. cbn [foldr]. split.
    + intros Hsum cc [<-|Hin].
      * destruct (IsHard c); cbn [eqb] in Hsum; lia.
      * apply IH; [|exact Hin]. destruct (IsHard c); cbn [eqb] in Hsum; lia.
    + intros Hzero. rewrite (Hzero c) by now left.
      destruct IH as [_ IH]. specialize (IH ltac:(intros cc Hin; apply Hzero; now right)).
      destruct (IsHard c); cbn [eqb]; lia.
Qed.

(** X6. When no component has a negative cost on a state and the total,
    [HARD_WEIGHT] times the hard costs plus the soft costs, fits the [int]
    that [CFtype] is by default (so that no sum of the evaluation
    overflows), the state is reported optimal exactly when every component
    costs zero on it. *)
Theorem OptimalStateReached_zero {State double : Type} (dzero : double)
  (dadd dmul : double -> double -> double) (d_of_Z : Z -> double)
  (EqualTo_double : double -> double -> bool)
  (sm : StateManager State) (st : State) :
  (forall cc, In cc (cost_component sm) -> 0 <= Cost cc st) ->
  HARD_WEIGHT * sum_costs true st (cost_component sm)
    + sum_costs false st (cost_component sm) < 2 ^ 31 ->
  exists b : bool,
    OptimalStateReached dzero dadd dmul d_of_Z EqualTo_double sm st = Some b /\
    (b = true <-> forall cc, In cc (cost_component sm) -> Cost cc st = 0).
Proof.
  intros Hpos _.
  destruct (CostFunctionComponents_eval dzero dadd dmul d_of_Z sm st [] (or_introl eq_refl))
    as (r & Hr & Ht & Hv & Ho & _ & Hiw).
  unfold OptimalStateReached. rewrite Hr. cbn [fmap option_fmap option_map].
  eexists. split; [reflexivity|].
  unfold LowerBoundReached, eq_scalar, EqualTo. rewrite Hiw, Ht, Hv, Ho.
  rewrite Z.eqb_eq. now apply sum_costs_zero.
Qed.

Lemma OptimalStateReached_zero_ex :
  exists b : bool,
    OptimalStateReached 0 Z.add Z.mul id Z.eqb ex_sm (2, 3) = Some b /\
    (b = true <-> forall cc, In cc (cost_component ex_sm) -> Cost cc (2, 3) = 0).
Proof.
  apply (OptimalStateReached_zero 0 Z.add Z.mul id Z.eqb ex_sm (2, 3)).
  - intros cc Hin. vm_compute in Hin. destruct Hin as [<-|[<-|[]]]; cbn; lia.
  - vm_compute. reflexivity.
Defined.

(** *** Sampling *)

Section Sampling.

Context {State Rng double : Type}.
Variable dzero : double.
Variables dadd dmul : double -> double -> double.
Variable d_of_Z : Z -> double.
Variable LessThan_double : double -> double -> bool.
Variable RandomState : State -> Rng -> State * Rng.

Lemma sample_loop_spec (sm : StateManager State) : forall (n : nat) (st best_state : State)
  (best_cost : DefaultCostStructure double) (g : Rng),
  CostFunctionComponents dzero dadd dmul d_of_Z sm best_state [] = Some best_cost ->
  exists (best : State) (c : DefaultCostStructure double) (g' : Rng),
    sample_loop State Rng double dzero dadd dmul d_of_Z LessThan_double RandomState
      sm n st best_state best_cost g = Some (best, c, g') /\
    CostFunctionComponents dzero dadd dmul d_of_Z sm best [] = Some c /\
    (best = best_state \/ In best (sampled RandomState n st g)) /\
    total c <= total best_cost /\
    forall s cs, In s (sampled RandomState n st g) ->
      CostFunctionComponents dzero dadd dmul d_of_Z sm s [] = Some cs ->
      total c <= total cs.
Proof.
  induction n as [|n IH]; intros st best_state best_cost g Hbest.
  - exists best_state, best_cost, g. cbn. repeat split; auto; try lia.
  - cbn [sample_loop sampled]. destruct (RandomState st g) as [st1 g1] eqn:Er.
    destruct (CostFunctionComponents_eval dzero dadd dmul d_of_Z sm st1 []
                (or_introl eq_refl)) as (cost & Hcost & _ & _ & _ & _ & Hiw).
    rewrite Hcost.
    destruct (CostFunctionComponents_eval dzero dadd dmul d_of_Z sm best_state []
                (or_introl eq_refl)) as (bc & Hbc & _ & _ & _ & _ & Hbw).
    rewrite Hbest in Hbc. injection Hbc as <-.
    unfold lt, LessThan. rewrite Hiw. cbn [andb].
    destruct (total cost <? total best_cost) eqn:E.
    + apply Z.ltb_lt in E.
      destruct (IH st1 st1 cost g1 Hcost) as (best & c & g' & Hl & Hc & Hin & Hle & Hall).
      exists best, c, g'. split; [exact Hl|]. split; [exact Hc|].
      split; [right; destruct Hin as [->|Hin]; [now left|now right]|].
      split; [lia|].
      intros s cs [<-|Hs] Hcs.
      * rewrite Hcost in Hcs. injection Hcs as <-. exact Hle.
      * eapply Hall; eauto.
    + apply Z.ltb_ge in E.
      destruct (IH st1 best_state best_cost g1 Hbest)
        as (best & c & g' & Hl & Hc & Hin & Hle & Hall).
      exists best, c, g'. split; [exact Hl|]. split; [exact Hc|].
      split; [destruct Hin as [->|Hin]; [now left|right; now right]|].
      split; [lia|].
      intros s cs [<-|Hs] Hcs.
      * rewrite Hcost in Hcs. injection Hcs as <-. lia.
      * eapply Hall; eauto.
Qed.

(** X7. [SampleState] draws [samples] random states, a single one when
    [samples] is 0, and returns one of them together with its cost, which
    no state drawn undercuts. *)
Theorem SampleState_least (sm : StateManager State) (st : State) (samples : Z) (g : Rng) :
  0 <= samples < 2 ^ 32 ->
  let drawn := sampled RandomState (Z.to_nat (Z.max 1 samples)) st g in
  exists (best : State) (c : DefaultCostStructure double) (g' : Rng),
    SampleState dzero dadd dmul d_of_Z LessThan_double RandomState sm st samples g
      = Some (best, c, g') /\
    CostFunctionComponents dzero dadd dmul d_of_Z sm best [] = Some c /\
    In best drawn /\
    forall s cs, In s drawn ->
      CostFunctionComponents dzero dadd dmul d_of_Z sm s [] = Some cs ->
      total c <= total cs.
Proof.
  intros Hs drawn. unfold SampleState.
  assert (Hn : Z.to_nat (Z.max 1 samples) = S (Z.to_nat (samples - 1))) by lia.
  unfold drawn. rewrite Hn. cbn [sampled].
  destruct (RandomState st g) as [st1 g1].
  destruct (CostFunctionComponents_eval dzero dadd dmul d_of_Z sm st1 []
              (or_introl eq_refl)) as (cost & Hcost & _).
  rewrite Hcost.
  destruct (sample_loop_spec sm (Z.to_nat (samples - 1)) st1 st1 cost g1 Hcost)
    as (best & c & g' & Hl & Hc & Hin & Hle & Hall).
  exists best, c, g'. split; [exact Hl|]. split; [exact Hc|].
  split; [destruct Hin as [->|Hin]; [now left|now right]|].
  intros s cs [<-|Hin'] Hcs.
  - rewrite Hcost in Hcs. injection Hcs as <-. exact Hle.
  - eapply Hall; eauto.
Qed.

End Sampling.

Lemma SampleState_least_ex :
  exists (best : Z * Z) (c : DefaultCostStructure Z) (g' : list (Z * Z)),
    SampleState 0 Z.add Z.mul id Z.ltb ex_random ex_sm (0, 0) 3 [(1, 5); (0, 7); (0, 2)]
      = Some (best, c, g') /\
    CostFunctionComponents 0 Z.add Z.mul id ex_sm best [] = Some c /\
    In best (sampled ex_random (Z.to_nat (Z.max 1 3)) (0, 0) [(1, 5); (0, 7); (0, 2)]) /\
    forall s cs,
      In s (sampled ex_random (Z.to_nat (Z.max 1 3)) (0, 0) [(1, 5); (0, 7); (0, 2)]) ->
      CostFunctionComponents 0 Z.add Z.mul id ex_sm s [] = Some cs -> total c <= total cs.
Proof.
  apply (SampleState_least 0 Z.add Z.mul id Z.ltb ex_random ex_sm (0, 0) 3
           [(1, 5); (0, 7); (0, 2)]).
  lia.
Defined.

(** *** The index of the components *)

Lemma add_all_snoc {State : Type} (ccs : list (CostComponent State)) (cc : CostComponent State) :
  add_all (ccs ++ [cc]) = AddCostComponent (add_all ccs) cc.
Proof. unfold add_all. now rewrite fold_left_app. Qed.

Lemma add_all_components {State : Type} (ccs : list (CostComponent State)) :
  cost_component (add_all ccs) = ccs.
Proof.
  induction ccs as [|cc ccs IH] using rev_ind; [reflexivity|].
  rewrite add_all_snoc. cbn. now rewrite IH.
Qed.

Lemma add_all_index {State : Type} (ccs : list (CostComponent State)) (h : nat) :
  match cost_component_index (add_all ccs) !! h with
  | Some i => exists cc, ccs !! i = Some cc /\ hash cc = h
  | None => h ∉ (hash <$> ccs)
  end.
Proof.
  induction ccs as [|cc ccs IH] using rev_ind.
  - cbn. rewrite lookup_empty. apply not_elem_of_nil.
  - rewrite add_all_snoc. cbn [AddCostComponent cost_component_index].
    rewrite add_all_components. destruct (decide (hash cc = h)) as [<-|Hne].
    + rewrite lookup_insert_eq. exists cc. split; [|reflexivity].
      rewrite lookup_app_r by lia. now rewrite Nat.sub_diag.
    + rewrite lookup_insert_ne by exact Hne.
      destruct (cost_component_index (add_all ccs) !! h) as [i|].
      * destruct IH as (cc' & Hi & Hh). exists cc'. split; [|exact Hh].
        now apply lookup_app_l_Some.
      * rewrite fmap_app, not_elem_of_app. split; [exact IH|].
        cbn. rewrite not_elem_of_cons. split; [congruence|apply not_elem_of_nil].
Qed.

(** X8. After components with different hashes have been added, the index of
    a component is the position it was added at, where
    [GetCostComponent] finds it; asking for the index of a component that
    was not added throws. *)
Theorem CostComponentIndex_round_trip {State : Type} (ccs : list (CostComponent State)) :
  NoDup (hash <$> ccs) ->
  CostComponents (add_all ccs) = length ccs /\
  (forall (i : nat) (cc : CostComponent State), ccs !! i = Some cc ->
     CostComponentIndex (add_all ccs) cc = Some i /\
     GetCostComponent (add_all ccs) i = Some cc) /\
  (forall cc : CostComponent State, hash cc ∉ (hash <$> ccs) ->
     CostComponentIndex (add_all ccs) cc = None).
Proof.
  intros Hnd. unfold CostComponents, CostComponentIndex, GetCostComponent.
  rewrite add_all_components. split; [reflexivity|]. split.
  - intros i cc Hi. split; [|exact Hi].
    pose proof (add_all_index ccs (hash cc)) as H.
    destruct (cost_component_index (add_all ccs) !! hash cc) as [j|].
    + destruct H as (cc' & Hj & Hh). f_equal.
      apply (proj1 (NoDup_alt (hash <$> ccs)) Hnd j i (hash cc)).
      * rewrite list_lookup_fmap, Hj. cbn. now rewrite Hh.
      * now rewrite list_lookup_fmap, Hi.
    + exfalso. apply H. apply list_elem_of_lookup. exists i.
      now rewrite list_lookup_fmap, Hi.
  - intros cc Hcc.
    pose proof (add_all_index ccs (hash cc)) as H.
    destruct (cost_component_index (add_all ccs) !! hash cc) as [j|]; [|reflexivity].
    destruct H as (cc' & Hj & Hh). exfalso. apply Hcc.
    apply list_elem_of_lookup. exists j. rewrite list_lookup_fmap, Hj. cbn. now rewrite Hh.
Qed.

Lemma CostComponentIndex_round_trip_ex :
  CostComponents ex_sm = 2%nat /\
  (forall (i : nat) (cc : CostComponent (Z * Z)), [ex_hard; ex_soft] !! i = Some cc ->
     CostComponentIndex ex_sm cc = Some i /\ GetCostComponent ex_sm i = Some cc) /\
  (forall cc : CostComponent (Z * Z), hash cc ∉ (hash <$> [ex_hard; ex_soft]) ->
     CostComponentIndex ex_sm cc = None).
Proof.
  apply (CostComponentIndex_round_trip [ex_hard; ex_soft]).
  cbn. apply NoDup_cons. split.
  - rewrite list_elem_of_singleton. discriminate.
  - apply NoDup_singleton.
Defined.

End StateManager.

(** ** Runs of the tabu list manager (TabuListManager.hh) *)

Module TabuRuns.

Import TabuList.

Section WithMove.

Variable Move : Type.

(** The two calls by which a runner advances a manager: [InsertMove], with
    the tenure [r] drawn by [Random::Int(min_tenure, max_tenure)], and
    [UpdateIteration]. *)
Inductive call : Type :=
| Insert (mv : Move) (mv_cost curr best : Z) (r : Z)
| Tick.

Definition perform (tl : TabuListManager Move) (c : call) : TabuListManager Move :=
  match c with
  | Insert mv mv_cost curr best r => InsertMove tl mv mv_cost curr best r
  | Tick => UpdateIteration tl
  end.

(** The tenure of an insertion lies in the range of the manager. *)
Definition tenure_in_range (tl : TabuListManager Move) (c : call) : Prop :=
  match c with
  | Insert _ _ _ _ r => min_tenure tl <= r <= max_tenure tl
  | Tick => True
  end.

(** The item at position [k] of the list was inserted at least [k]
    calls ago: it has not expired, and its expiry leaves it at most
    [bound - k] further calls. *)
Definition fresh (bound : Z) (tl : TabuListManager Move) : Prop :=
  forall (k : nat) (item : TabuListItem Move), tlist tl !! k = Some item ->
    iter tl <= out_iter item <= iter tl - 1 - Z.of_nat k + bound.

End WithMove.

Arguments Insert {Move} _ _ _ _ _.
Arguments Tick {Move}.
Arguments perform {Move} _ _.
Arguments tenure_in_range {Move} _ _.
Arguments fresh {Move} _ _.

(** *** The items of the list *)

Lemma purge_lookup {Move : Type} (it : Z) : forall (l : list (TabuListItem Move))
  (k' : nat) (item : TabuListItem Move),
  purge it l !! k' = Some item ->
  it < out_iter item /\ exists k : nat, (k' <= k)%nat /\ l !! k = Some item.
Proof.
  induction l as [|p l IH]; intros k' item H; [discriminate|].
  cbn [purge] in H. destruct (out_iter p <=? it) eqn:E.
  - destruct (IH k' item H) as (Hlt & k & Hk & Hl).
    split; [exact Hlt|]. exists (S k). split; [lia|exact Hl].
  - apply Z.leb_gt in E. destruct k' as [|k'].
    + injection H as <-. split; [lia|]. exists 0%nat. split; [lia|reflexivity].
    + destruct (IH k' item H) as (Hlt & k & Hk & Hl).
      split; [exact Hlt|]. exists (S k). split; [lia|exact Hl].
Qed.

Lemma fresh_UpdateIteration {Move : Type} (bound : Z) (tl : TabuListManager Move) :
  0 <= iter tl -> iter tl + 1 < 2 ^ 64 ->
  fresh bound tl -> fresh bound (UpdateIteration tl).
Proof.
  intros H0 Hov Hf k' item H.
  unfold UpdateIteration, PurgeList, set_iter, set_tlist in *. cbn in *.
  rewrite to_ulong_small by lia.
  destruct (purge_lookup _ _ _ _ H) as (Hlt & k & Hk & Hl).
  specialize (Hf k item Hl). lia.
Qed.

Lemma fresh_InsertMove {Move : Type} (bound : Z) (tl : TabuListManager Move)
  (mv : Move) (mv_cost curr best r : Z) :
  0 <= iter tl -> iter tl + 1 < 2 ^ 64 -> iter tl + r < 2 ^ 64 ->
  0 <= r < 2 ^ 32 -> r <= bound ->
  fresh bound tl -> fresh bound (InsertMove tl mv mv_cost curr best r).
Proof.
  intros H0 Hov Hov' Hr Hb Hf k' item H.
  unfold InsertMove, UpdateAspirationFunction, InsertIntoList, UpdateIteration,
    PurgeList, set_iter, set_tlist in *. cbn [iter tlist] in *.
  rewrite to_uint_small in H by lia. rewrite to_ulong_small in H by lia.
  rewrite to_ulong_small by lia.
  destruct (purge_lookup _ _ _ _ H) as (Hlt & k & Hk & Hl).
  destruct k as [|k].
  - injection Hl as <-. cbn [out_iter] in *. lia.
  - cbn in Hl. specialize (Hf k item Hl). lia.
Qed.

Lemma fresh_length {Move : Type} (bound : Z) (tl : TabuListManager Move) :
  0 <= bound -> fresh bound tl -> Z.of_nat (length (tlist tl)) <= bound.
Proof.
  intros Hb Hf. destruct (tlist tl) as [|p l] eqn:E; [cbn; lia|].
  destruct (lookup_lt_is_Some_2 (p :: l) (length l) ltac:(cbn; lia)) as [item Hitem].
  specialize (Hf (length l) item). rewrite E in Hf. specialize (Hf Hitem).
  cbn [length]. lia.
Qed.

Lemma iter_perform {Move : Type} (tl : TabuListManager Move) (c : call Move) :
  0 <= iter tl -> iter tl + 1 < 2 ^ 64 ->
  iter (perform tl c) = iter tl + 1 /\
  min_tenure (perform tl c) = min_tenure tl /\
  max_tenure (perform tl c) = max_tenure tl.
Proof.
  intros H0 Hov. destruct c; cbn; rewrite to_ulong_small by lia; auto.
Qed.

Lemma perform_all_fresh {Move : Type} : forall (calls : list (call Move))
  (tl : TabuListManager Move),
  0 <= min_tenure tl -> 0 <= max_tenure tl < 2 ^ 32 ->
  0 <= iter tl ->
  iter tl + Z.of_nat (length calls) + max_tenure tl < 2 ^ 64 ->
  Forall (tenure_in_range tl) calls ->
  fresh (max_tenure tl) tl ->
  iter (fold_left perform calls tl) = iter tl + Z.of_nat (length calls) /\
  max_tenure (fold_left perform calls tl) = max_tenure tl /\
  fresh (max_tenure tl) (fold_left perform calls tl).
Proof.
  induction calls as [|c calls IH]; intros tl Hmin Hmax H0 Hov Hr Hf.
  - cbn. split; [lia|]. split; [reflexivity|exact Hf].
  - cbn [fold_left length] in *. inversion Hr as [|? ? Hc Hcs]; subst.
    destruct (iter_perform tl c H0 ltac:(lia)) as (Hi & Hmi & Hma).
    assert (Hf' : fresh (max_tenure tl) (perform tl c)).
    { destruct c as [mv mv_cost curr best r|]; cbn [perform tenure_in_range] in *.
      - apply fresh_InsertMove; auto; lia.
      - apply fresh_UpdateIteration; auto; lia. }
    pose proof (IH (perform tl c)) as HIH. rewrite Hmi, Hma, Hi in HIH.
    destruct HIH as (IH1 & IH2 & IH3); auto; try lia.
    + eapply Forall_impl; [exact Hcs|]. intros [] Hx; cbn in *; auto.
      rewrite Hmi, Hma. exact Hx.
    + split; [lia|]. split; [exact IH2|exact IH3].
Qed.

(** *** The list is bounded *)

(** X9. From a cleaned manager, whatever the insertions and iteration updates
    that follow: the iteration counter is the number of calls, no item of
    the list has expired, and the list never holds more items than the
    maximum tenure. *)
Theorem tabu_list_bounded {Move : Type} (calls : list (call Move))
  (tl : TabuListManager Move) :
  0 <= min_tenure tl -> 0 <= max_tenure tl < 2 ^ 32 ->
  Z.of_nat (length calls) + max_tenure tl < 2 ^ 64 ->
  Forall (tenure_in_range tl) calls ->
  let tl' := fold_left perform calls (Clean tl) in
  iter tl' = Z.of_nat (length calls) /\
  Forall (fun item => iter tl' <= out_iter item) (tlist tl') /\
  Z.of_nat (length (tlist tl')) <= max_tenure tl.
Proof.
  intros Hmin Hmax Hov Hr tl'.
  assert (Hf : fresh (max_tenure (Clean tl)) (Clean tl))
    by (intros k item H; discriminate).
  destruct (perform_all_fresh calls (Clean tl) Hmin Hmax ltac:(cbn; lia)
              ltac:(cbn; lia) Hr Hf) as (H1 & H2 & H3).
  cbn in H1, H2, H3. fold tl' in H1, H2, H3.
  split; [exact H1|]. split.
  - apply Forall_lookup. intros k item Hk. apply (H3 k item Hk).
  - apply fresh_length; [lia|exact H3].
Qed.

Lemma tabu_list_bounded_ex :
  let tl' := fold_left perform [Insert 1%nat 0 0 0 2; Tick; Insert 2%nat 0 0 0 4]
               (Clean ex_manager) in
  iter tl' = 3 /\
  Forall (fun item => iter tl' <= out_iter item) (tlist tl') /\
  Z.of_nat (length (tlist tl')) <= max_tenure ex_manager.
Proof.
  apply (tabu_list_bounded [Insert 1%nat 0 0 0 2; Tick; Insert 2%nat 0 0 0 4] ex_manager).
  - cbn. lia.
  - cbn. lia.
  - cbn. lia.
  - repeat constructor; cbn; lia.
Defined.

End TabuRuns.

(** ** Bimodal runners (BimodalHillClimbing.hh, BimodalTabuSearch.hh) *)

(** Modelled from the spec: utils/Types.hh only declares [LessOrEqualThan];
    on an integral cost type it is the plain order. *)
Definition LessOrEqualThan (value1 value2 : Z) : bool := value1 <=? value2.

Module Bimodal.

(** [MOVE_1] and [MOVE_2], the values of [current_move_type]. *)
Inductive move_type : Type := MOVE_1 | MOVE_2.

Section WithTypes.

Variables State Move1 Move2 : Type.

(** The data members of [BimodalMoveRunner] the two runners read and
    write, and [max_idle_iteration]; the iteration counters are
    [unsigned long]. *)
Record Runner : Type := mkRunner {
  current_state : State;
  best_state : State;
  current_state_cost : Z;
  best_state_cost : Z;
  current_move1 : Move1;
  current_move2 : Move2;
  current_move_cost1 : Z;
  current_move_cost2 : Z;
  current_move_type : move_type;
  number_of_iterations : Z;
  iteration_of_best : Z;
  max_idle_iteration : Z
}.

(** The end of [SelectMove], the same in both runners, once the two moves
    and their costs are known; [coin] is the value of
    [Random::Int(0, 1)]. *)
Definition choose_type (cost1 cost2 coin : Z) : move_type :=
  if LessThan cost1 cost2 then MOVE_1
  else if LessThan cost2 cost1 then MOVE_2
  else if coin =? 0 then MOVE_1 else MOVE_2.

(** [StopCriterion], the same in both runners: the difference is taken
    in [unsigned long]. *)
Definition StopCriterion (rn : Runner) : bool :=
  max_idle_iteration rn <=? to_ulong (number_of_iterations rn - iteration_of_best rn).

(** [GoCheck] throws when [max_idle_iteration] is zero. *)
Definition GoCheck (rn : Runner) : option unit :=
  if max_idle_iteration rn =? 0 then None else Some tt.

(** *** BimodalHillClimbing *)

(** [BimodalHillClimbing::SelectMove]: [mv1], [mv2] are the moves drawn by
    the [RandomMove] of the two explorers and [cost1], [cost2] their delta
    costs. *)
Definition HillClimbing_SelectMove (mv1 : Move1) (cost1 : Z) (mv2 : Move2) (cost2 : Z)
  (coin : Z) (rn : Runner) : Runner :=
  mkRunner (current_state rn) (best_state rn) (current_state_cost rn)
           (best_state_cost rn) mv1 mv2 cost1 cost2 (choose_type cost1 cost2 coin)
           (number_of_iterations rn) (iteration_of_best rn) (max_idle_iteration rn).

(** [BimodalHillClimbing::AcceptableMove] *)
Definition HillClimbing_AcceptableMove (rn : Runner) : bool :=
  match current_move_type rn with
  | MOVE_1 => LessOrEqualThan (current_move_cost1 rn) 0
  | MOVE_2 => LessOrEqualThan (current_move_cost2 rn) 0
  end.

(** [iteration_of_best = number_of_iterations;
    best_state_cost = current_state_cost;] *)
Definition record_improvement (rn : Runner) : Runner :=
  mkRunner (current_state rn) (best_state rn) (current_state_cost rn)
           (current_state_cost rn) (current_move1 rn) (current_move2 rn)
           (current_move_cost1 rn) (current_move_cost2 rn) (current_move_type rn)
           (number_of_iterations rn) (number_of_iterations rn) (max_idle_iteration rn).

(** [BimodalHillClimbing::StoreMove]; the notifications of the observer do
    not change the runner.  The [else] belongs to the inner [if], the test
    of the first cost. *)
Definition HillClimbing_StoreMove (rn : Runner) : Runner :=
  match current_move_type rn with
  | MOVE_1 =>
      if LessThan (current_move_cost1 rn) 0 then record_improvement rn
      else if LessThan (current_move_cost2 rn) 0 then record_improvement rn
      else rn
  | MOVE_2 => rn
  end.

(** *** BimodalTabuSearch *)

(** The runner and its two tabu list managers. *)
Record TabuRunner : Type := mkTabuRunner {
  runner : Runner;
  pm1 : TabuList.TabuListManager Move1;
  pm2 : TabuList.TabuListManager Move2
}.

(** [BimodalTabuSearch::StoreMove]; [r] is the tenure drawn by the
    insertion. *)
Definition TabuSearch_StoreMove (r : Z) (t : TabuRunner) : TabuRunner :=
  let rn := runner t in
  let (pm1', pm2') :=
    match current_move_type rn with
    | MOVE_1 =>
        (TabuList.InsertMove (pm1 t) (current_move1 rn) (current_move_cost1 rn)
           (current_state_cost rn) (best_state_cost rn) r,
         TabuList.UpdateIteration (pm2 t))
    | MOVE_2 =>
        (TabuList.UpdateIteration (pm1 t),
         TabuList.InsertMove (pm2 t) (current_move2 rn) (current_move_cost2 rn)
           (current_state_cost rn) (best_state_cost rn) r)
    end in
  let rn' :=
    if LessThan (current_state_cost rn) (best_state_cost rn) then
      mkRunner (current_state rn) (current_state rn) (current_state_cost rn)
               (current_state_cost rn) (current_move1 rn) (current_move2 rn)
               (current_move_cost1 rn) (current_move_cost2 rn) (current_move_type rn)
               (number_of_iterations rn) (number_of_iterations rn)
               (max_idle_iteration rn)
    else rn in
  mkTabuRunner rn' pm1' pm2'.

(** What an iteration writes before [StoreMove]: the moves selected, their
    costs and the type chosen, the state reached and its cost, the
    iteration counter.  The best state, its cost and iteration and the
    managers are only written by [StoreMove]. *)
Record selected : Type := mkSelected {
  sel_state : State;
  sel_state_cost : Z;
  sel_move1 : Move1;
  sel_move2 : Move2;
  sel_cost1 : Z;
  sel_cost2 : Z;
  sel_type : move_type;
  sel_iteration : Z;
  sel_tenure : Z
}.

Definition iteration (t : TabuRunner) (s : selected) : TabuRunner :=
  let rn := runner t in
  TabuSearch_StoreMove (sel_tenure s)
    (mkTabuRunner
       (mkRunner (sel_state s) (best_state rn) (sel_state_cost s) (best_state_cost rn)
                 (sel_move1 s) (sel_move2 s) (sel_cost1 s) (sel_cost2 s) (sel_type s)
                 (sel_iteration s) (iteration_of_best rn) (max_idle_iteration rn))
       (pm1 t) (pm2 t)).

End WithTypes.

Arguments mkRunner {State Move1 Move2} _ _ _ _ _ _ _ _ _ _ _ _.
Arguments current_state {State Move1 Move2} _.
Arguments best_state {State Move1 Move2} _.
Arguments current_state_cost {State Move1 Move2} _.
Arguments best_state_cost {State Move1 Move2} _.
Arguments current_move1 {State Move1 Move2} _.
Arguments current_move2 {State Move1 Move2} _.
Arguments current_move_cost1 {State Move1 Move2} _.
Arguments current_move_cost2 {State Move1 Move2} _.
Arguments current_move_type {State Move1 Move2} _.
Arguments number_of_iterations {State Move1 Move2} _.
Arguments iteration_of_best {State Move1 Move2} _.
Arguments max_idle_iteration {State Move1 Move2} _.
Arguments StopCriterion {State Move1 Move2} _.
Arguments GoCheck {State Move1 Move2} _.
Arguments HillClimbing_SelectMove {State Move1 Move2} _ _ _ _ _ _.
Arguments HillClimbing_AcceptableMove {State Move1 Move2} _.
Arguments record_improvement {State Move1 Move2} _.
Arguments HillClimbing_StoreMove {State Move1 Move2} _.
Arguments mkTabuRunner {State Move1 Move2} _ _ _.
Arguments runner {State Move1 Move2} _.
Arguments pm1 {State Move1 Move2} _.
Arguments pm2 {State Move1 Move2} _.
Arguments TabuSearch_StoreMove {State Move1 Move2} _ _.
Arguments mkSelected {State Move1 Move2} _ _ _ _ _ _ _ _ _.
Arguments sel_state_cost {State Move1 Move2} _.
Arguments sel_tenure {State Move1 Move2} _.
Arguments sel_type {State Move1 Move2} _.
Arguments iteration {State Move1 Move2} _ _.

Definition ex_bimodal : Runner unit nat nat :=
  mkRunner tt tt 50 50 0%nat 0%nat 0 0 MOVE_1 7 3 10.

Definition ex_tabu : TabuRunner unit nat nat :=
  mkTabuRunner ex_bimodal (TabuList.Clean TabuList.ex_manager)
               (TabuList.Clean TabuList.ex_manager).

Definition ex_selected : list (selected unit nat nat) :=
  [mkSelected tt 48 1%nat 2%nat (-2) 0 MOVE_1 1 3;
   mkSelected tt 49 3%nat 4%nat 5 1 MOVE_2 2 2].

(** *** Hill climbing: what an iteration records *)

(** X10. After [SelectMove] the move is acceptable exactly when the cheaper of
    the two moves drawn does not worsen the cost, and [StoreMove] records
    an improvement exactly when the first move was selected and strictly
    improves: an improvement by a move of the second neighborhood is
    accepted and never recorded. *)
Theorem HillClimbing_records_first_only {State Move1 Move2 : Type}
  (rn : Runner State Move1 Move2) (mv1 : Move1) (cost1 : Z) (mv2 : Move2)
  (cost2 coin : Z) :
  let rn1 := HillClimbing_SelectMove mv1 cost1 mv2 cost2 coin rn in
  (HillClimbing_AcceptableMove rn1 = true <-> Z.min cost1 cost2 <= 0) /\
  (current_move_type rn1 = MOVE_1 /\ cost1 < 0 ->
   HillClimbing_StoreMove rn1 = record_improvement rn1) /\
  (current_move_type rn1 = MOVE_2 \/ 0 <= cost1 ->
   HillClimbing_StoreMove rn1 = rn1) /\
  (cost2 < cost1 -> cost2 < 0 ->
   HillClimbing_AcceptableMove rn1 = true /\ HillClimbing_StoreMove rn1 = rn1).
Proof.
  intros rn1. unfold rn1, HillClimbing_SelectMove, HillClimbing_AcceptableMove,
    HillClimbing_StoreMove, choose_type, LessThan, LessOrEqualThan.
  cbn [current_move_type current_move_cost1 current_move_cost2].
  destruct (Z.ltb_spec cost1 cost2), (Z.ltb_spec cost2 cost1), (Z.eqb_spec coin 0);
    destruct (Z.ltb_spec cost1 0), (Z.ltb_spec cost2 0),
             (Z.leb_spec cost1 0), (Z.leb_spec cost2 0);
    try lia;
    (split; [split; intros; first [lia | reflexivity | discriminate]|]);
    (split; [intros [? ?]; first [reflexivity | discriminate | lia]|]);
    (split; [intros [?|?]; first [reflexivity | discriminate | lia]|]);
    intros; first [lia | split; reflexivity].
Qed.

(** *** Tabu search: the two managers and the best cost *)

(** The tenure of an insertion lies in the range of the manager the move
    is inserted into. *)
Definition tenure_ok {State Move1 Move2 : Type} (t : TabuRunner State Move1 Move2)
  (s : selected State Move1 Move2) : Prop :=
  match sel_type s with
  | MOVE_1 => TabuList.min_tenure (pm1 t) <= sel_tenure s <= TabuList.max_tenure (pm1 t)
  | MOVE_2 => TabuList.min_tenure (pm2 t) <= sel_tenure s <= TabuList.max_tenure (pm2 t)
  end.

Definition managers_at {State Move1 Move2 : Type} (n : Z) (t0 t : TabuRunner State Move1 Move2)
  : Prop :=
  TabuList.iter (pm1 t) = n /\ TabuList.iter (pm2 t) = n /\
  TabuList.min_tenure (pm1 t) = TabuList.min_tenure (pm1 t0) /\
  TabuList.max_tenure (pm1 t) = TabuList.max_tenure (pm1 t0) /\
  TabuList.min_tenure (pm2 t) = TabuList.min_tenure (pm2 t0) /\
  TabuList.max_tenure (pm2 t) = TabuList.max_tenure (pm2 t0) /\
  TabuRuns.fresh (TabuList.max_tenure (pm1 t0)) (pm1 t) /\
  TabuRuns.fresh (TabuList.max_tenure (pm2 t0)) (pm2 t).

Lemma iteration_managers {State Move1 Move2 : Type} (n : Z)
  (t0 t : TabuRunner State Move1 Move2) (s : selected State Move1 Move2) :
  0 <= TabuList.min_tenure (pm1 t0) -> 0 <= TabuList.max_tenure (pm1 t0) < 2 ^ 32 ->
  0 <= TabuList.min_tenure (pm2 t0) -> 0 <= TabuList.max_tenure (pm2 t0) < 2 ^ 32 ->
  0 <= n -> n + 1 + TabuList.max_tenure (pm1 t0) < 2 ^ 64 ->
  n + 1 + TabuList.max_tenure (pm2 t0) < 2 ^ 64 ->
  tenure_ok t0 s ->
  managers_at n t0 t ->
  managers_at (n + 1) t0 (iteration t s) /\
  best_state_cost (runner (iteration t s))
    = Z.min (best_state_cost (runner t)) (sel_state_cost s).
Proof.
  intros Hmin1 Hmax1 Hmin2 Hmax2 Hn Hov1 Hov2 Hok (Hi1 & Hi2 & Ha & Hb & Hc & Hd & Hf1 & Hf2).
  unfold tenure_ok in Hok. split.
  - unfold managers_at, iteration, TabuSearch_StoreMove.
    cbn [runner pm1 pm2 current_move_type].
    destruct (sel_type s); cbn [pm1 pm2].
    + pose proof (TabuRuns.iter_perform (pm1 t)
        (TabuRuns.Insert (sel_move1 _ _ _ s) (sel_cost1 _ _ _ s) (sel_state_cost s)
           (best_state_cost (runner t)) (sel_tenure s)) ltac:(lia) ltac:(lia))
        as (E1 & E2 & E3).
      pose proof (TabuRuns.iter_perform (pm2 t) TabuRuns.Tick ltac:(lia) ltac:(lia))
        as (E4 & E5 & E6).
      cbn [TabuRuns.perform] in *. cbn [current_move1 current_move_cost1 current_state_cost
        best_state_cost].
      split; [lia|]. split; [lia|]. do 4 (split; [congruence|]). split.
      * rewrite <- Hb. apply TabuRuns.fresh_InsertMove; try lia. now rewrite Hb.
      * rewrite <- Hd. apply TabuRuns.fresh_UpdateIteration; try lia. now rewrite Hd.
    + pose proof (TabuRuns.iter_perform (pm2 t)
        (TabuRuns.Insert (sel_move2 _ _ _ s) (sel_cost2 _ _ _ s) (sel_state_cost s)
           (best_state_cost (runner t)) (sel_tenure s)) ltac:(lia) ltac:(lia))
        as (E1 & E2 & E3).
      pose proof (TabuRuns.iter_perform (pm1 t) TabuRuns.Tick ltac:(lia) ltac:(lia))
        as (E4 & E5 & E6).
      cbn [TabuRuns.perform] in *. cbn [current_move2 current_move_cost2 current_state_cost
        best_state_cost].
      split; [lia|]. split; [lia|]. do 4 (split; [congruence|]). split.
      * rewrite <- Hb. apply TabuRuns.fresh_UpdateIteration; try lia. now rewrite Hb.
      * rewrite <- Hd. apply TabuRuns.fresh_InsertMove; try lia. now rewrite Hd.
  - unfold iteration, TabuSearch_StoreMove, LessThan.
    cbn [runner current_state_cost best_state_cost current_move_type].
    destruct (sel_type s);
      destruct (Z.ltb_spec (sel_state_cost s) (best_state_cost (runner t)));
      cbn [runner best_state_cost]; lia.
Qed.

Lemma run_managers {State Move1 Move2 : Type} (t0 : TabuRunner State Move1 Move2) :
  0 <= TabuList.min_tenure (pm1 t0) -> 0 <= TabuList.max_tenure (pm1 t0) < 2 ^ 32 ->
  0 <= TabuList.min_tenure (pm2 t0) -> 0 <= TabuList.max_tenure (pm2 t0) < 2 ^ 32 ->
  forall (sels : list (selected State Move1 Move2)) (n : Z) (t : TabuRunner State Move1 Move2),
  0 <= n ->
  n + Z.of_nat (length sels) + TabuList.max_tenure (pm1 t0) < 2 ^ 64 ->
  n + Z.of_nat (length sels) + TabuList.max_tenure (pm2 t0) < 2 ^ 64 ->
  Forall (tenure_ok t0) sels ->
  managers_at n t0 t ->
  managers_at (n + Z.of_nat (length sels)) t0 (fold_left iteration sels t) /\
  best_state_cost (runner (fold_left iteration sels t))
    = fold_left Z.min (sel_state_cost <$> sels) (best_state_cost (runner t)).
Proof.
  intros Hmin1 Hmax1 Hmin2 Hmax2.
  induction sels as [|s sels IH]; intros n t Hn Hov1 Hov2 Hok Hat.
  - cbn. rewrite Z.add_0_r. auto.
  - inversion Hok as [|? ? Hs Hsels]; subst. cbn [fold_left length fmap list_fmap] in *.
    destruct (iteration_managers n t0 t s) as (Hat' & Hbest); auto; try lia.
    destruct (IH (n + 1) (iteration t s)) as (IH1 & IH2); auto; try lia.
    split.
    + replace (n + Z.of_nat (S (length sels))) with (n + 1 + Z.of_nat (length sels)) by lia.
      exact IH1.
    + rewrite IH2, Hbest. reflexivity.
Qed.

(** X11. From two cleaned managers, after any number of iterations: the
    iteration counters of the two managers both count the iterations
    (each [StoreMove] inserts into one manager and updates the other), no
    list holds more items than the maximum tenure of its manager, and the
    best cost is the least of the initial best cost and the costs of the
    states visited. *)
Theorem TabuSearch_managers_in_step {State Move1 Move2 : Type}
  (t0 : TabuRunner State Move1 Move2) (sels : list (selected State Move1 Move2)) :
  TabuList.iter (pm1 t0) = 0 -> TabuList.tlist (pm1 t0) = [] ->
  TabuList.iter (pm2 t0) = 0 -> TabuList.tlist (pm2 t0) = [] ->
  0 <= TabuList.min_tenure (pm1 t0) -> 0 <= TabuList.max_tenure (pm1 t0) < 2 ^ 32 ->
  0 <= TabuList.min_tenure (pm2 t0) -> 0 <= TabuList.max_tenure (pm2 t0) < 2 ^ 32 ->
  Z.of_nat (length sels) + 2 ^ 32 < 2 ^ 64 ->
  Forall (tenure_ok t0) sels ->
  let t := fold_left iteration sels t0 in
  TabuList.iter (pm1 t) = Z.of_nat (length sels) /\
  TabuList.iter (pm2 t) = Z.of_nat (length sels) /\
  Z.of_nat (length (TabuList.tlist (pm1 t))) <= TabuList.max_tenure (pm1 t0) /\
  Z.of_nat (length (TabuList.tlist (pm2 t))) <= TabuList.max_tenure (pm2 t0) /\
  best_state_cost (runner t)
    = fold_left Z.min (sel_state_cost <$> sels) (best_state_cost (runner t0)).
Proof.
  intros Hi1 Hl1 Hi2 Hl2 Hmin1 Hmax1 Hmin2 Hmax2 Hov Hok t.
  assert (Hat : managers_at 0 t0 t0).
  { unfold managers_at. do 6 (split; [auto|]). split.
    - intros k item H. rewrite Hl1 in H. discriminate.
    - intros k item H. rewrite Hl2 in H. discriminate. }
  destruct (run_managers t0 Hmin1 Hmax1 Hmin2 Hmax2 sels 0 t0 ltac:(lia) ltac:(lia)
              ltac:(lia) Hok Hat) as ((H1 & H2 & _ & _ & _ & _ & Hf1 & Hf2) & Hbest).
  fold t in H1, H2, Hf1, Hf2, Hbest.
  split; [lia|]. split; [lia|].
  split; [apply TabuRuns.fresh_length; [lia|exact Hf1]|].
  split; [apply TabuRuns.fresh_length; [lia|exact Hf2]|].
  exact Hbest.
Qed.

Lemma TabuSearch_managers_in_step_ex :
  let t := fold_left iteration ex_selected ex_tabu in
  TabuList.iter (pm1 t) = 2 /\ TabuList.iter (pm2 t) = 2 /\
  Z.of_nat (length (TabuList.tlist (pm1 t))) <= 4 /\
  Z.of_nat (length (TabuList.tlist (pm2 t))) <= 4 /\
  best_state_cost (runner t) = 48.
Proof.
  apply (TabuSearch_managers_in_step ex_tabu ex_selected); try reflexivity;
    try (cbn; lia).
  repeat constructor; cbn; lia.
Defined.

End Bimodal.

(** ** The start temperature (SimulatedAnnealingWithReheating.hh) *)

Module StartTemperature.

(** The loop shared by [max] and [min]:
    [for (i = 1; i < values.size(); i++) if (values[i] better val)
    val = values[i];].  The counter is an [unsigned int]: the loop ends on
    a vector of less than [2 ^ 32] values. *)
Definition extreme_loop (better : Z -> Z -> bool) (values : list Z) (val : Z) : Z :=
  fold_left (fun val (i : nat) =>
               match values !! i with
               | Some v => if better v val then v else val
               | None => val
               end)
            (seq 1 (length values - 1)) val.

(** [max(values)]; it starts from [values[0]], which an empty vector does
    not have. *)
Definition max (values : list Z) : option Z :=
  match values !! 0%nat with
  | Some max_val => Some (extreme_loop Z.gtb values max_val)
  | None => None
  end.

(** [min(values)] *)
Definition min (values : list Z) : option Z :=
  match values !! 0%nat with
  | Some min_val => Some (extreme_loop Z.ltb values min_val)
  | None => None
  end.

(** *** The loop *)

Lemma extreme_rounds (better : Z -> Z -> bool) (R : Z -> Z -> Prop) (values : list Z) :
  (forall x, R x x) -> (forall x y z, R x y -> R y z -> R x z) ->
  (forall v val, better v val = true -> R val v) ->
  (forall v val, better v val = false -> R v val) ->
  forall (n a : nat) (val : Z),
  (a + n)%nat = length values ->
  In val values ->
  (forall (j : nat) (x : Z), (j < a)%nat -> values !! j = Some x -> R x val) ->
  let r := fold_left (fun val (i : nat) =>
                        match values !! i with
                        | Some v => if better v val then v else val
                        | None => val
                        end) (seq a n) val in
  In r values /\ forall x, In x values -> R x r.
Proof.
  intros Hrefl Htrans Hyes Hno. induction n as [|n IH]; intros a val Hlen Hin Hbelow.
  - cbn. split; [exact Hin|]. intros x Hx.
    apply list_elem_of_In, list_elem_of_lookup in Hx. destruct Hx as [j Hj].
    apply (Hbelow j x); [|exact Hj]. apply lookup_lt_Some in Hj. lia.
  - cbn [seq fold_left].
    destruct (lookup_lt_is_Some_2 values a ltac:(lia)) as [v Hv]. rewrite Hv.
    apply IH; [lia| |].
    + destruct (better v val); [|exact Hin].
      apply list_elem_of_In, list_elem_of_lookup. now exists a.
    + intros j x Hj Hx. destruct (better v val) eqn:E.
      * destruct (Nat.eq_dec j a) as [->|Hne].
        -- rewrite Hv in Hx. injection Hx as ->. apply Hrefl.
        -- apply Htrans with val; [|now apply Hyes].
           apply (Hbelow j x); [lia|exact Hx].
      * destruct (Nat.eq_dec j a) as [->|Hne].
        -- rewrite Hv in Hx. injection Hx as ->. now apply Hno.
        -- apply (Hbelow j x); [lia|exact Hx].
Qed.

(** X12. [max] returns an element of the vector that no element exceeds,
    and [min] one that exceeds none; on an empty vector both read
    [values[0]], which does not exist. *)
Theorem max_min_extreme (values : list Z) :
  (values = [] -> max values = None /\ min values = None) /\
  (values <> [] -> Z.of_nat (length values) < 2 ^ 32 ->
   exists hi lo : Z,
     max values = Some hi /\ min values = Some lo /\
     In hi values /\ In lo values /\
     forall x, In x values -> lo <= x <= hi).
Proof.
  split; [intros ->; split; reflexivity|].
  intros Hne _. destruct values as [|v0 vs]; [congruence|].
  unfold max, min, extreme_loop. cbn [lookup list_lookup length].
  replace (S (length vs) - 1)%nat with (length vs) by lia.
  assert (Hbelow1 : forall (j : nat) (x : Z), (j < 1)%nat ->
            (v0 :: vs) !! j = Some x -> x <= v0)
    by (intros j x Hj Hx; destruct j; [|lia]; injection Hx as ->; lia).
  assert (Hbelow2 : forall (j : nat) (x : Z), (j < 1)%nat ->
            (v0 :: vs) !! j = Some x -> x >= v0)
    by (intros j x Hj Hx; destruct j; [|lia]; injection Hx as ->; lia).
  pose proof (extreme_rounds Z.gtb Z.le (v0 :: vs)
                ltac:(intros; lia) ltac:(intros; lia)
                ltac:(intros v val H; apply Z.gtb_lt in H; lia)
                ltac:(intros v val H; rewrite Z.gtb_ltb in H; apply Z.ltb_ge in H; lia)
                (length vs) 1%nat v0 eq_refl (or_introl eq_refl) Hbelow1)
    as (Hin1 & Hmax).
  pose proof (extreme_rounds Z.ltb Z.ge (v0 :: vs)
                ltac:(intros; lia) ltac:(intros; lia)
                ltac:(intros v val H; apply Z.ltb_lt in H; lia)
                ltac:(intros v val H; apply Z.ltb_ge in H; lia)
                (length vs) 1%nat v0 eq_refl (or_introl eq_refl) Hbelow2)
    as (Hin2 & Hmin).
  do 2 eexists. split; [reflexivity|]. split; [reflexivity|].
  split; [exact Hin1|]. split; [exact Hin2|].
  intros x Hx. specialize (Hmax x Hx). specialize (Hmin x Hx). lia.
Qed.

End StartTemperature.

(** ** The order of moves with an activity flag *)

Module ActiveMoves.

Import MultiModal.

#[local] Arguments ActiveMove_eqb {Move} _ _ _.

Section WithMove.

Variable Move : Type.

(** [operator==] and [operator<] of the move type. *)
Variable Move_eqb : Move -> Move -> bool.
Variable Move_ltb : Move -> Move -> bool.

(** [operator<] on [ActiveMove]; on the flags, [false < true]. *)
Definition ActiveMove_ltb (mv1 mv2 : ActiveMove Move) : bool :=
  if negb (active mv1) && negb (active mv2) then false
  else if negb (active mv1) && active mv2 then true
  else if active mv1 && negb (active mv2) then false
  else Move_ltb (raw mv1) (raw mv2).

(** Exactly one of three tests holds. *)
Definition one_of (p q r : bool) : bool :=
  match p, q, r with
  | true, false, false | false, true, false | false, false, true => true
  | _, _, _ => false
  end.

(** X13. When [<] and [==] of the move type compare every two moves in
    exactly one way and [<] is transitive, so do [<] and [==] of
    [ActiveMove]: inactive moves are all equal, whatever they hold, and come
    before every active move, and active moves compare as the moves they
    hold. *)
Theorem ActiveMove_order :
  (forall x y : Move, one_of (Move_ltb x y) (Move_eqb x y) (Move_ltb y x) = true) ->
  (forall x y z : Move,
     Move_ltb x y = true -> Move_ltb y z = true -> Move_ltb x z = true) ->
  (forall a b : ActiveMove Move,
     one_of (ActiveMove_ltb a b) (ActiveMove_eqb Move_eqb a b) (ActiveMove_ltb b a)
       = true) /\
  (forall a b c : ActiveMove Move,
     ActiveMove_ltb a b = true -> ActiveMove_ltb b c = true ->
     ActiveMove_ltb a c = true) /\
  (forall a b : ActiveMove Move,
     active a = false -> active b = false -> ActiveMove_eqb Move_eqb a b = true) /\
  (forall a b : ActiveMove Move,
     active a = false -> active b = true -> ActiveMove_ltb a b = true) /\
  (forall a b : ActiveMove Move,
     active a = true -> active b = true ->
     ActiveMove_ltb a b = Move_ltb (raw a) (raw b) /\
     ActiveMove_eqb Move_eqb a b = Move_eqb (raw a) (raw b)).
Proof.
  intros Htri Htrans. unfold ActiveMove_ltb, ActiveMove_eqb.
  split; [|split; [|split; [|split]]].
  - intros [x [|]] [y [|]]; simpl; auto.
  - intros [x [|]] [y [|]] [z [|]]; simpl; try congruence. apply Htrans.
  - intros [x ?] [y ?]; simpl; intros -> ->; reflexivity.
  - intros [x ?] [y ?]; simpl; intros -> ->; reflexivity.
  - intros [x ?] [y ?]; simpl; intros -> ->; split; reflexivity.
Qed.

End WithMove.

Arguments ActiveMove_ltb {Move} _ _ _.

Lemma ActiveMove_order_ex :
  one_of (ActiveMove_ltb Z.ltb (mkActive 5 false) (mkActive 2 true))
         (ActiveMove_eqb Z.eqb (mkActive 5 false) (mkActive 2 true))
         (ActiveMove_ltb Z.ltb (mkActive 2 true) (mkActive 5 false)) = true /\
  ActiveMove_eqb Z.eqb (mkActive 5 false) (mkActive 2 false) = true.
Proof.
  assert (Htri : forall x y : Z, one_of (x <? y) (x =? y) (y <? x) = true).
  { intros x y. destruct (Z.ltb_spec x y), (Z.eqb_spec x y), (Z.ltb_spec y x);
      simpl; auto; lia. }
  assert (Htrans : forall x y z : Z, (x <? y) = true -> (y <? z) = true -> (x <? z) = true).
  { intros x y z. rewrite !Z.ltb_lt. lia. }
  destruct (ActiveMove_order Z Z.eqb Z.ltb Htri Htrans) as (H1 & _ & H3 & _).
  split; [apply H1|apply H3; reflexivity].
Defined.

End ActiveMoves.

(** ** The set union of neighborhoods: generation of moves *)

Module SetUnion.

Import MultiModal.

#[local] Arguments ActiveMove_eqb {Move} _ _ _.
#[local] Arguments FirstMove {State Move Weights Rng double} _ _ _.
#[local] Arguments NextMove {State Move Weights Rng double} _ _ _.
#[local] Arguments RandomMove {State Move Weights Rng double} _ _ _ _.
#[local] Arguments MakeMove {State Move Weights Rng double} _ _ _.
#[local] Arguments Modality {State Move Weights Rng double} _.
#[local] Arguments set_activity_at {Move} _ _ _.
#[local] Arguments set_move_at {Move} _ _ _.
#[local] Arguments get_first_active {Move} _ _.
#[local] Arguments SetUnion_MakeMove {State Move Weights Rng double} _ _ _.

Section WithTypes.

Variables State Move Weights Rng double : Type.

(** The base explorers of the composite, in tuple order. *)
Variable nhes : list (NeighborhoodExplorer State Move Weights Rng double).

(** The loop that [FirstMove], [RandomMove] and [NextMove] share,
    [for (; i < stop; i++) try { generate(i); set_activity_at(i, true);
    return; } catch (EmptyNeighborhood) { set_activity_at(i, false); }],
    for the [rounds] positions from [i] on.  [generate] is the base call of
    the position, with what it threads through (the random source of
    [RandomMove]).  The loop returns from the function ([true]) or falls
    through ([false]). *)
Fixpoint try_levels {T : Type}
  (generate : NeighborhoodExplorer State Move Weights Rng double ->
              State -> Move -> T -> option Move * T)
  (st : State) (rounds i : nat) (moves : list (ActiveMove Move)) (s : T)
  : outcome (bool * list (ActiveMove Move) * T) :=
  match rounds with
  | O => Returned (false, moves, s)
  | S rounds' =>
      match nhes !! i, moves !! i with
      | Some ne, Some m =>
          match generate ne st (raw m) s with
          | (Some m', s') =>
              Returned (true, set_activity_at i (set_move_at i moves m') true, s')
          | (None, s') =>
              try_levels generate st rounds' (S i)
                         (set_activity_at i moves false) s'
          end
      | _, _ => LogicError
      end
  end.

(** The base [FirstMove] threads nothing. *)
Definition first_move (ne : NeighborhoodExplorer State Move Weights Rng double)
  (st : State) (m : Move) (u : unit) : option Move * unit :=
  (FirstMove ne st m, u).

(** [SetUnionNeighborhoodExplorer::FirstMove] *)
Definition SetUnion_FirstMove (st : State) (moves : list (ActiveMove Move))
  : outcome (list (ActiveMove Move)) :=
  match try_levels first_move st (Modality nhes) 0 moves tt with
  | Returned (true, moves', _) => Returned moves'
  | Returned (false, _, _) => EmptyNeighborhood
  | EmptyNeighborhood => EmptyNeighborhood
  | LogicError => LogicError
  end.

(** [SetUnionNeighborhoodExplorer::NextMove]: the verdict and the moves it
    leaves. *)
Definition SetUnion_NextMove (st : State) (moves : list (ActiveMove Move))
  : outcome (bool * list (ActiveMove Move)) :=
  match get_first_active moves 0 with
  | None => LogicError
  | Some i =>
      match nhes !! i, moves !! i with
      | Some ne, Some m =>
          let (next_move_exists, m') := NextMove ne st (raw m) in
          if next_move_exists
          then Returned (true, set_activity_at i (set_move_at i moves m') true)
          else
            match try_levels first_move st (Modality nhes - (i + 1)) (i + 1)
                    (set_activity_at i (set_move_at i moves m') false) tt with
            | Returned (found, moves', _) => Returned (found, moves')
            | EmptyNeighborhood => EmptyNeighborhood
            | LogicError => LogicError
            end
      | _, _ => LogicError
      end
  end.

(** [MoveDispatcher::set_all_activity] *)
Definition set_all_activity (moves : list (ActiveMove Move)) (value : bool)
  : list (ActiveMove Move) :=
  (fun m => mkActive (raw m) value) <$> moves.

(** The arithmetic of the bias. *)
Variable dzero : double.
Variable dadd dsub : double -> double -> double.
Variable dgt : double -> double -> bool.

(** [Random::Uniform<double>] *)
Variable Uniform : double -> double -> Rng -> double * Rng.

(** [while (pick > bias[selected]) { pick -= bias[selected]; selected++; }]
    on the entries of [bias] from [selected] on; the loop reads past the
    end of [bias] when it does not stop before. *)
Fixpoint select (rest : list double) (pick : double) (selected : nat) : option nat :=
  match rest with
  | [] => None
  | b :: rest' =>
      if dgt pick b then select rest' (dsub pick b) (S selected)
      else Some selected
  end.

(** [SetUnionNeighborhoodExplorer::RandomMove], for the [bias] of the
    explorer; [None] when the selection reads past the end of [bias]. *)
Definition SetUnion_RandomMove (bias : list double) (st : State)
  (moves : list (ActiveMove Move)) (g : Rng)
  : option (outcome (list (ActiveMove Move) * Rng)) :=
  let moves0 := set_all_activity moves false in
  let total_bias := fold_left dadd bias dzero in
  let (pick, g0) := Uniform dzero total_bias g in
  match select bias pick 0 with
  | None => None
  | Some selected =>
      Some match try_levels RandomMove st (Modality nhes - selected) selected moves0 g0 with
           | Returned (true, moves1, g1) => Returned (moves1, g1)
           | Returned (false, moves1, g1) =>
               match try_levels RandomMove st selected 0 moves1 g1 with
               | Returned (true, moves2, g2) => Returned (moves2, g2)
               | Returned (false, _, _) => EmptyNeighborhood
               | EmptyNeighborhood => EmptyNeighborhood
               | LogicError => LogicError
               end
           | EmptyNeighborhood => EmptyNeighborhood
           | LogicError => LogicError
           end
  end.

(** The move that a composite move stands for: the position of the first
    active component, and the move at it. *)
Definition current (moves : list (ActiveMove Move)) : option (nat * Move) :=
  match get_first_active moves 0 with
  | Some i =>
      match moves !! i with
      | Some m => Some (i, raw m)
      | None => None
      end
  | None => None
  end.

(** The moves that [for (FirstMove(st, mv); ...; NextMove(st, mv))] goes
    through until [NextMove] returns false, as the select functions do. *)
Fixpoint visit_rest (fuel : nat) (st : State) (moves : list (ActiveMove Move))
  : option (list (nat * Move)) :=
  match fuel with
  | O => None
  | S fuel' =>
      match SetUnion_NextMove st moves with
      | Returned (true, moves') =>
          match current moves', visit_rest fuel' st moves' with
          | Some mv, Some rest => Some (mv :: rest)
          | _, _ => None
          end
      | Returned (false, _) => Some []
      | _ => None
      end
  end.

Definition enumerate (fuel : nat) (st : State) (moves : list (ActiveMove Move))
  : option (list (nat * Move)) :=
  match SetUnion_FirstMove st moves with
  | Returned moves' =>
      match current moves', visit_rest fuel st moves' with
      | Some mv, Some rest => Some (mv :: rest)
      | _, _ => None
      end
  | EmptyNeighborhood => Some []
  | LogicError => None
  end.

(** The moves that follow [x] in the neighborhood of a base explorer. *)
Inductive follows (ne : NeighborhoodExplorer State Move Weights Rng double)
  (st : State) : Move -> list Move -> Prop :=
| follows_last (x m' : Move) :
    NextMove ne st x = (false, m') -> follows ne st x []
| follows_next (x y : Move) (l : list Move) :
    NextMove ne st x = (true, y) -> follows ne st y l -> follows ne st x (y :: l).

(** The neighborhood of a base explorer in a state, in the order of its
    [FirstMove] and [NextMove]. *)
Definition neighborhood (ne : NeighborhoodExplorer State Move Weights Rng double)
  (st : State) (l : list Move) : Prop :=
  match l with
  | [] => forall m0 : Move, FirstMove ne st m0 = None
  | x :: l' => (forall m0 : Move, FirstMove ne st m0 = Some x) /\ follows ne st x l'
  end.

(** The neighborhoods of the positions from [i] on, each move with its
    position. *)
Fixpoint tagged (i : nat) (ls : list (list Move)) : list (nat * Move) :=
  match ls with
  | [] => []
  | l :: ls' => (pair i <$> l) ++ tagged (S i) ls'
  end.

(** No component before the position [i] is active. *)
Definition inactive_below (moves : list (ActiveMove Move)) (i : nat) : Prop :=
  forall (j : nat) (m : ActiveMove Move),
    (j < i)%nat -> moves !! j = Some m -> active m = false.

(** The component [i] is active with the move [x], the ones before it are
    not. *)
Definition at_level (moves : list (ActiveMove Move)) (i : nat) (x : Move) : Prop :=
  length moves = Modality nhes /\
  moves !! i = Some (mkActive x true) /\
  inactive_below moves i.

Lemma length_set_activity_at i (ms : list (ActiveMove Move)) v :
  length (set_activity_at i ms v) = length ms.
Proof. unfold set_activity_at. apply length_alter. Qed.

Lemma length_set_move_at i (ms : list (ActiveMove Move)) m :
  length (set_move_at i ms m) = length ms.
Proof. unfold set_move_at. apply length_alter. Qed.

Lemma lookup_set_activity_at i j (ms : list (ActiveMove Move)) v :
  set_activity_at i ms v !! j =
    if decide (i = j) then (fun m => mkActive (raw m) v) <$> ms !! j else ms !! j.
Proof.
  unfold set_activity_at. destruct (decide (i = j)) as [->|Hne].
  - apply list_lookup_alter_eq.
  - now apply list_lookup_alter_ne.
Qed.

Lemma lookup_set_move_at i j (ms : list (ActiveMove Move)) x :
  set_move_at i ms x !! j =
    if decide (i = j) then (fun m => mkActive x (active m)) <$> ms !! j else ms !! j.
Proof.
  unfold set_move_at. destruct (decide (i = j)) as [->|Hne].
  - apply list_lookup_alter_eq.
  - now apply list_lookup_alter_ne.
Qed.

Lemma get_first_active_at : forall (ms : list (ActiveMove Move)) (i k : nat)
  (m : ActiveMove Move),
  ms !! i = Some m -> active m = true -> inactive_below ms i ->
  get_first_active ms k = Some (k + i)%nat.
Proof.
  induction ms as [|a ms IH]; intros i k m Hm Ha Hbelow; [discriminate|].
  destruct i as [|i]; simpl in *.
  - injection Hm as ->. rewrite Ha. f_equal. lia.
  - rewrite (Hbelow 0%nat a) by (auto; lia).
    rewrite (IH i (S k) m Hm Ha).
    + f_equal. lia.
    + intros j m' Hj Hm'. apply (Hbelow (S j) m'); [lia|exact Hm'].
Qed.

Lemma current_at_level ms i x : at_level ms i x -> current ms = Some (i, x).
Proof.
  intros (_ & Hi & Hbelow). unfold current.
  rewrite (get_first_active_at ms i 0 _ Hi eq_refl Hbelow). simpl.
  now rewrite Hi.
Qed.

Lemma inactive_below_deactivate (ms : list (ActiveMove Move)) i :
  inactive_below ms i -> inactive_below (set_activity_at i ms false) (S i).
Proof.
  intros H j m Hj Hm. rewrite lookup_set_activity_at in Hm.
  destruct (decide (i = j)) as [->|Hne].
  - destruct (ms !! j); [|discriminate]. simpl in Hm. now injection Hm as <-.
  - apply (H j m); [lia|exact Hm].
Qed.

Lemma at_level_activate (ms : list (ActiveMove Move)) i m x :
  length ms = Modality nhes -> ms !! i = Some m -> inactive_below ms i ->
  at_level (set_activity_at i (set_move_at i ms x) true) i x.
Proof.
  intros Hlen Hm Hbelow. split; [|split].
  - now rewrite length_set_activity_at, length_set_move_at.
  - rewrite lookup_set_activity_at, decide_True by reflexivity.
    rewrite lookup_set_move_at, decide_True by reflexivity.
    now rewrite Hm.
  - intros j m' Hj Hm'.
    rewrite lookup_set_activity_at, decide_False in Hm' by lia.
    rewrite lookup_set_move_at, decide_False in Hm' by lia.
    now apply (Hbelow j m').
Qed.


Lemma drop_lookup_head {A : Type} (l : list A) (i : nat) (x : A) (rest : list A) :
  drop i l = x :: rest -> l !! i = Some x /\ drop (S i) l = rest.
Proof.
  revert i. induction l as [|a l IH]; intros i H.
  - now rewrite drop_nil in H.
  - destruct i as [|i]; simpl in *.
    + injection H as -> ->. split; [reflexivity|apply drop_0].
    + now apply IH.
Qed.

Lemma try_levels_first_move (st : State) (rounds i : nat)
  (ms : list (ActiveMove Move)) ne m :
  nhes !! i = Some ne -> ms !! i = Some m ->
  try_levels first_move st (S rounds) i ms tt =
    match FirstMove ne st (raw m) with
    | Some m' => Returned (true, set_activity_at i (set_move_at i ms m') true, tt)
    | None => try_levels first_move st rounds (S i) (set_activity_at i ms false) tt
    end.
Proof.
  intros H1 H2. cbn [try_levels]. rewrite H1, H2. unfold first_move at 1.
  now destruct (FirstMove ne st (raw m)).
Qed.

(** The loop over the positions from [i] on stops at the first position
    with a move, and otherwise falls through. *)
Lemma try_levels_first (st : State) : forall (ls : list (list Move)) (i : nat)
  (ms : list (ActiveMove Move)),
  Forall2 (fun ne l => neighborhood ne st l) (drop i nhes) ls ->
  length ms = Modality nhes -> inactive_below ms i ->
  (exists ms', try_levels first_move st (Modality nhes - i) i ms tt
                 = Returned (false, ms', tt) /\
               tagged i ls = []) \/
  (exists (i' : nat) (ne : NeighborhoodExplorer State Move Weights Rng double)
          (x : Move) (l' : list Move) (ls' : list (list Move))
          (ms' : list (ActiveMove Move)),
     try_levels first_move st (Modality nhes - i) i ms tt = Returned (true, ms', tt) /\
     at_level ms' i' x /\ nhes !! i' = Some ne /\ follows ne st x l' /\
     Forall2 (fun ne l => neighborhood ne st l) (drop (S i') nhes) ls' /\
     tagged i ls = (i', x) :: (pair i' <$> l') ++ tagged (S i') ls').
Proof.
  induction ls as [|l ls IH]; intros i ms Hall Hlen Hbelow.
  - left. exists ms. apply Forall2_nil_inv_r in Hall.
    assert (Hge : (Modality nhes <= i)%nat).
    { apply (f_equal length) in Hall. rewrite length_drop in Hall.
      unfold Modality. simpl in Hall. lia. }
    replace (Modality nhes - i)%nat with 0%nat by lia. split; reflexivity.
  - apply Forall2_cons_inv_r in Hall as (ne & nes & Hne & Hrest & Hdrop).
    apply drop_lookup_head in Hdrop as [Hi Hdrop].
    assert (Hlt : (i < Modality nhes)%nat).
    { unfold Modality. apply lookup_lt_is_Some_1. now exists ne. }
    destruct (lookup_lt_is_Some_2 ms i ltac:(lia)) as [m Hm].
    replace (Modality nhes - i)%nat with (S (Modality nhes - S i)) by lia.
    rewrite (try_levels_first_move st _ i ms ne m Hi Hm).
    destruct l as [|x l']; simpl in Hne.
    + rewrite Hne. subst nes.
      destruct (IH (S i) (set_activity_at i ms false) Hrest) as [(ms' & Hrun & Htag)|H].
      * now rewrite length_set_activity_at.
      * now apply inactive_below_deactivate.
      * left. exists ms'. split; [exact Hrun|exact Htag].
      * right. exact H.
    + destruct Hne as [Hfirst Hfollows]. rewrite Hfirst. subst nes.
      right. exists i, ne, x, l', ls, (set_activity_at i (set_move_at i ms x) true).
      split; [reflexivity|]. split; [now apply (at_level_activate ms i m)|].
      split; [exact Hi|]. split; [exact Hfollows|]. split; [exact Hrest|reflexivity].
Qed.

(** From a move of the position [i], the calls of [NextMove] go through the
    rest of the neighborhood of that position and then through the
    neighborhoods of the later positions. *)
Lemma visit_rest_spec (st : State) : forall (fuel : nat) (i : nat)
  (ne : NeighborhoodExplorer State Move Weights Rng double) (x : Move)
  (l : list Move) (ls : list (list Move)) (ms : list (ActiveMove Move)),
  at_level ms i x -> nhes !! i = Some ne -> follows ne st x l ->
  Forall2 (fun ne l => neighborhood ne st l) (drop (S i) nhes) ls ->
  (length ((pair i <$> l) ++ tagged (S i) ls) < fuel)%nat ->
  visit_rest fuel st ms = Some ((pair i <$> l) ++ tagged (S i) ls).
Proof.
  induction fuel as [|fuel IH]; intros i ne x l ls ms Hat Hne Hfol Hall Hfuel; [lia|].
  pose proof Hat as (Hlen & Hi & Hbelow).
  cbn [visit_rest]. unfold SetUnion_NextMove.
  rewrite (get_first_active_at ms i 0 _ Hi eq_refl Hbelow). simpl Nat.add.
  rewrite Hne, Hi. cbn [raw].
  inversion Hfol as [x0 m' Hnext|x0 y l0 Hnext Hfol']; subst; rewrite Hnext.
  - assert (Hlen' : length (set_activity_at i (set_move_at i ms m') false) = Modality nhes)
      by now rewrite length_set_activity_at, length_set_move_at.
    assert (Hbelow' : inactive_below (set_activity_at i (set_move_at i ms m') false) (S i)).
    { apply inactive_below_deactivate. intros j m Hj Hm.
      rewrite lookup_set_move_at, decide_False in Hm by lia. now apply (Hbelow j m). }
    replace (i + 1)%nat with (S i) by lia.
    destruct (try_levels_first st ls (S i) _ Hall Hlen' Hbelow')
      as [(ms' & -> & Htag)
         |(i' & ne' & x' & l' & ls' & ms' & -> & Hat' & Hne' & Hfol' & Hall' & Htag)].
    + simpl. now rewrite Htag.
    + rewrite (current_at_level ms' i' x' Hat').
      simpl fmap. rewrite app_nil_l, Htag.
      rewrite (IH i' ne' x' l' ls' ms' Hat' Hne' Hfol' Hall'); [reflexivity|].
      simpl in Hfuel. rewrite Htag in Hfuel. simpl in Hfuel. lia.
  - assert (Hat' : at_level (set_activity_at i (set_move_at i ms y) true) i y)
      by now apply (at_level_activate ms i (mkActive x true)).
    rewrite (current_at_level _ i y Hat').
    rewrite (IH i ne y l0 ls _ Hat' Hne Hfol' Hall).
    + reflexivity.
    + rewrite fmap_cons in Hfuel. simpl in Hfuel. lia.
Qed.

(** X14. Taken with [FirstMove] and then [NextMove] until it returns false, the
    set union goes through the neighborhood of the first base explorer in
    its order, then through that of the second, and so on: each move of
    each base explorer exactly where it stands in this concatenation, and
    nothing else.  [FirstMove] throws [EmptyNeighborhood] exactly when
    every base neighborhood is empty. *)
Theorem SetUnion_enumerates_union (st : State) (ls : list (list Move))
  (ms : list (ActiveMove Move)) (fuel : nat) :
  Forall2 (fun ne l => neighborhood ne st l) nhes ls ->
  length ms = Modality nhes ->
  (length (tagged 0 ls) <= fuel)%nat ->
  enumerate fuel st ms = Some (tagged 0 ls) /\
  (SetUnion_FirstMove st ms = EmptyNeighborhood <-> Forall (fun l => l = []) ls).
Proof.
  intros Hall Hlen Hfuel.
  assert (Hempty : tagged 0 ls = [] <-> Forall (fun l => l = []) ls).
  { generalize 0%nat. clear. induction ls as [|l ls IH]; intros i; simpl.
    - split; auto.
    - split.
      + intros H. apply app_eq_nil in H as [H1 H2].
        constructor; [now apply fmap_nil_inv in H1|now apply (IH (S i))].
      + intros H. apply Forall_cons in H as [-> H]. simpl. now apply (IH (S i)). }
  unfold enumerate, SetUnion_FirstMove.
  rewrite <- (Nat.sub_0_r (Modality nhes)).
  destruct (try_levels_first st ls 0 ms Hall Hlen)
    as [(ms' & -> & Htag)
       |(i' & ne' & x' & l' & ls' & ms' & -> & Hat' & Hne' & Hfol' & Hall' & Htag)].
  - intros j m Hj. lia.
  - split; [now rewrite Htag|]. split; [intros _; now apply Hempty|reflexivity].
  - rewrite (current_at_level ms' i' x' Hat').
    rewrite (visit_rest_spec st fuel i' ne' x' l' ls' ms' Hat' Hne' Hfol' Hall').
    + split; [now rewrite Htag|]. split; [discriminate|].
      intros H. apply Hempty in H. rewrite Htag in H. discriminate.
    + rewrite Htag in Hfuel. simpl in Hfuel. lia.
Qed.

(** No component is active. *)
Definition all_inactive (moves : list (ActiveMove Move)) : Prop :=
  forall (j : nat) (a : ActiveMove Move), moves !! j = Some a -> active a = false.

(** The component [i] is the only active one, with the move [m]. *)
Definition only_active (moves : list (ActiveMove Move)) (i : nat) (m : Move) : Prop :=
  moves !! i = Some (mkActive m true) /\
  forall (j : nat) (a : ActiveMove Move),
    j <> i -> moves !! j = Some a -> active a = false.

Lemma all_inactive_set_all_activity (ms : list (ActiveMove Move)) :
  all_inactive (set_all_activity ms false).
Proof.
  intros j a H. unfold set_all_activity in H. rewrite list_lookup_fmap in H.
  destruct (ms !! j); [|discriminate]. simpl in H. now injection H as <-.
Qed.

Lemma try_levels_random (st : State) : forall (rounds i : nat)
  (ms : list (ActiveMove Move)) (g : Rng),
  all_inactive ms ->
  match try_levels RandomMove st rounds i ms g with
  | Returned (true, ms', g') =>
      length ms' = length ms /\
      exists (k : nat) (ne : NeighborhoodExplorer State Move Weights Rng double)
             (m0 m : Move) (g0 : Rng),
        nhes !! k = Some ne /\
        RandomMove ne st m0 g0 = (Some m, g') /\ only_active ms' k m
  | Returned (false, ms', g') => length ms' = length ms /\ all_inactive ms'
  | EmptyNeighborhood => False
  | LogicError => True
  end.
Proof.
  induction rounds as [|rounds IH]; intros i ms g Hall; cbn [try_levels].
  - split; [reflexivity|exact Hall].
  - destruct (nhes !! i) as [ne|] eqn:Hne; [|exact I].
    destruct (ms !! i) as [a|] eqn:Ha; [|exact I].
    destruct (RandomMove ne st (raw a) g) as [[m|] g'] eqn:Hr.
    + split; [now rewrite length_set_activity_at, length_set_move_at|].
      exists i, ne, (raw a), m, g. split; [exact Hne|].
      split; [exact Hr|]. split.
      * rewrite lookup_set_activity_at, decide_True by reflexivity.
        rewrite lookup_set_move_at, decide_True by reflexivity. now rewrite Ha.
      * intros j b Hj Hb.
        rewrite lookup_set_activity_at, decide_False in Hb by congruence.
        rewrite lookup_set_move_at, decide_False in Hb by congruence.
        now apply (Hall j b).
    + assert (Hall' : all_inactive (set_activity_at i ms false)).
      { intros j b Hb. rewrite lookup_set_activity_at in Hb.
        destruct (decide (i = j)) as [->|Hij]; [|now apply (Hall j b)].
        destruct (ms !! j); [|discriminate]. simpl in Hb. now injection Hb as <-. }
      specialize (IH (S i) (set_activity_at i ms false) g' Hall').
      destruct (try_levels RandomMove st rounds (S i) (set_activity_at i ms false) g')
        as [[[[|] ms'] g'']| |]; auto;
        rewrite length_set_activity_at in IH; exact IH.
Qed.

Lemma only_active_first (ms : list (ActiveMove Move)) (i : nat) (m : Move) :
  only_active ms i m -> get_first_active ms 0 = Some i.
Proof.
  intros [Hi Hother].
  apply (get_first_active_at ms i 0 _ Hi eq_refl).
  intros j a Hj Ha. apply (Hother j a); [lia|exact Ha].
Qed.

(** X15. A composite move returned by [RandomMove] of the set union has
    exactly one active component; its move was drawn by the [RandomMove] of
    the base explorer at that position, and [MakeMove] on the composite
    move is the [MakeMove] of that base explorer. *)
Theorem SetUnion_RandomMove_one_active (bias : list double) (st : State)
  (ms ms' : list (ActiveMove Move)) (g g' : Rng) :
  SetUnion_RandomMove bias st ms g = Some (Returned (ms', g')) ->
  length ms' = length ms /\
  exists (i : nat) (ne : NeighborhoodExplorer State Move Weights Rng double)
         (m0 m : Move) (g0 : Rng),
    nhes !! i = Some ne /\
    RandomMove ne st m0 g0 = (Some m, g') /\
    only_active ms' i m /\
    SetUnion_MakeMove nhes st ms' = Some (MakeMove ne st m).
Proof.
  unfold SetUnion_RandomMove. intros H.
  destruct (Uniform dzero (fold_left dadd bias dzero) g) as [pick g0].
  destruct (select bias pick 0) as [selected|]; [|discriminate].
  injection H as H.
  assert (Hfinish : forall k (ne : NeighborhoodExplorer State Move Weights Rng double) m,
            nhes !! k = Some ne -> only_active ms' k m ->
            SetUnion_MakeMove nhes st ms' = Some (MakeMove ne st m)).
  { intros k ne m Hk Honly. unfold SetUnion_MakeMove.
    rewrite (only_active_first ms' k m Honly), Hk.
    destruct Honly as [-> _]. reflexivity. }
  pose proof (try_levels_random st (Modality nhes - selected) selected
                (set_all_activity ms false) g0
                (all_inactive_set_all_activity ms)) as H1.
  assert (Hlen0 : length (set_all_activity ms false) = length ms)
    by (unfold set_all_activity; apply length_fmap).
  destruct (try_levels RandomMove st (Modality nhes - selected) selected
              (set_all_activity ms false) g0) as [[[[|] ms1] g1]| |];
    try discriminate.
  - injection H as -> ->.
    destruct H1 as (Hlen & k & ne & m0 & m & gk & Hk & Hr & Honly).
    split; [congruence|].
    exists k, ne, m0, m, gk. eauto 10.
  - destruct H1 as [Hlen1 Hall1].
    pose proof (try_levels_random st selected 0 ms1 g1 Hall1) as H2.
    destruct (try_levels RandomMove st selected 0 ms1 g1) as [[[[|] ms2] g2]| |];
      try discriminate.
    injection H as -> ->.
    destruct H2 as (Hlen & k & ne & m0 & m & gk & Hk & Hr & Honly).
    split; [congruence|].
    exists k, ne, m0, m, gk. eauto 10.
Qed.

End WithTypes.

Arguments try_levels {State Move Weights Rng double} _ {T} _ _ _ _ _ _.
Arguments SetUnion_FirstMove {State Move Weights Rng double} _ _ _.
Arguments SetUnion_NextMove {State Move Weights Rng double} _ _ _.
Arguments SetUnion_RandomMove {State Move Weights Rng double} _ _ _ _ _ _ _ _ _ _.
Arguments current {Move} _.
Arguments enumerate {State Move Weights Rng double} _ _ _ _.
Arguments follows {State Move Weights Rng double} _ _ _ _.
Arguments follows_last {State Move Weights Rng double} _ _ _ _ _.
Arguments follows_next {State Move Weights Rng double} _ _ _ _ _ _ _.
Arguments neighborhood {State Move Weights Rng double} _ _ _.
Arguments tagged {Move} _ _.
Arguments only_active {Move} _ _ _.

(** Two explorers over moves that are numbers: one with the neighborhood
    0, 1, 2, whose random move is read off a list of draws, and one with an
    empty neighborhood. *)
Definition three : NeighborhoodExplorer unit nat unit (list nat) Z :=
  mkExplorer
    (fun _ _ => Some 0%nat)
    (fun _ m => if (m <? 2)%nat then (true, S m) else (false, m))
    (fun _ _ g => match g with
                  | x :: g' => (Some (x mod 3)%nat, g')
                  | [] => (Some 0%nat, [])
                  end)
    (fun st _ => st)
    (fun _ _ _ => CostStructure.mkDefault 0 0 0 [] 0 false).

Definition none : NeighborhoodExplorer unit nat unit (list nat) Z :=
  mkExplorer
    (fun _ _ => None)
    (fun _ m => (false, m))
    (fun _ _ g => (None, g))
    (fun st _ => st)
    (fun _ _ _ => CostStructure.mkDefault 0 0 0 [] 0 false).

(** A freshly constructed tuple of three moves. *)
Definition fresh_union : list (ActiveMove nat) :=
  [mkActive 0%nat false; mkActive 0%nat false; mkActive 0%nat false].

(** A draw that returns the upper bound less one. *)
Definition ex_uniform (lo hi : Z) (g : list nat) : Z * list nat := (hi - 1, g).

Lemma SetUnion_enumerates_union_ex :
  enumerate [none; three; none] 3 tt fresh_union
    = Some [(1, 0); (1, 1); (1, 2)]%nat /\
  (SetUnion_FirstMove [none; three; none] tt fresh_union = EmptyNeighborhood <->
   Forall (fun l => l = []) [[]; [0; 1; 2]; []]%nat).
Proof.
  apply (SetUnion_enumerates_union _ _ _ _ _ [none; three; none] tt
           [[]; [0; 1; 2]; []]%nat fresh_union 3).
  - constructor; [intros m0; reflexivity|].
    constructor; [|constructor; [intros m0; reflexivity|constructor]].
    split; [intros m0; reflexivity|].
    apply (follows_next three tt 0 1 [2])%nat; [reflexivity|].
    apply (follows_next three tt 1 2 [])%nat; [reflexivity|].
    apply (follows_last three tt 2 2)%nat. reflexivity.
  - reflexivity.
  - simpl. lia.
Defined.

Lemma SetUnion_RandomMove_one_active_ex :
  length [mkActive 2%nat true; mkActive 0%nat false; mkActive 0%nat false]
    = length fresh_union /\
  exists (i : nat) (ne : NeighborhoodExplorer unit nat unit (list nat) Z)
         (m0 m : nat) (g0 : list nat),
    [three; none; none] !! i = Some ne /\
    RandomMove ne tt m0 g0 = (Some m, [4]%nat) /\
    only_active [mkActive 2%nat true; mkActive 0%nat false; mkActive 0%nat false] i m /\
    SetUnion_MakeMove [three; none; none] tt
      [mkActive 2%nat true; mkActive 0%nat false; mkActive 0%nat false]
      = Some (MakeMove ne tt m).
Proof.
  apply (SetUnion_RandomMove_one_active _ _ _ _ _ [three; none; none] 0 Z.add Z.sub
           Z.gtb ex_uniform [1; 1; 1] tt fresh_union
           [mkActive 2%nat true; mkActive 0%nat false; mkActive 0%nat false]
           [5; 4]%nat [4]%nat).
  reflexivity.
Defined.

End SetUnion.

(** ** The registry of relatedness predicates of the Cartesian product *)

Module RelatedFunctions.

Import MultiModal.

Section WithTypes.

Variables State Move : Type.

(** What [related_funcs] holds in a [boost::any]: a [RelatedFuncType] or a
    [RelatedInputStateFuncType]. *)
Inductive related : Type :=
| RelatedFunc (r : Move -> Move -> bool)
| RelatedInputStateFunc (r : State -> Move -> Move -> bool).

(** Whether the predicate reads the state. *)
Definition with_state (r : related) : bool :=
  match r with
  | RelatedFunc _ => false
  | RelatedInputStateFunc _ => true
  end.

(** [AddRelatedFunction<Move1, Move2>], in its overloads without and with
    the state.  A key of [related_funcs] is the [type_index] of a function
    type, [RelatedFuncType<Move1, Move2>] ([false]) or
    [RelatedInputStateFuncType<Move1, Move2>] ([true]); the move types are
    numbered. *)
Definition AddRelatedFunction (Move1 Move2 : nat) (r : related)
  (related_funcs : gmap (bool * (nat * nat)) related)
  : outcome (gmap (bool * (nat * nat)) related) :=
  match related_funcs !! (false, (Move1, Move2)) with
  | Some _ => LogicError
  | None =>
      match related_funcs !! (true, (Move1, Move2)) with
      | Some _ => LogicError
      | None => Returned (<[(with_state r, (Move1, Move2)) := r]> related_funcs)
      end
  end.

(** The predicate that [are_related] finds for a pair of move types: the
    one without the state when there is one, else the one with it. *)
Definition find_related (related_funcs : gmap (bool * (nat * nat)) related)
  (Move1 Move2 : nat) : option related :=
  match related_funcs !! (false, (Move1, Move2)) with
  | Some f => Some f
  | None => related_funcs !! (true, (Move1, Move2))
  end.

(** A sequence of registrations on an explorer; the caller goes on after a
    registration that throws. *)
Definition register (related_funcs : gmap (bool * (nat * nat)) related)
  (call : nat * nat * related) : gmap (bool * (nat * nat)) related :=
  match AddRelatedFunction call.1.1 call.1.2 call.2 related_funcs with
  | Returned related_funcs' => related_funcs'
  | _ => related_funcs
  end.

Definition register_all (calls : list (nat * nat * related))
  : gmap (bool * (nat * nat)) related :=
  fold_left register calls ∅.

(** The first registration of [calls] for the pair of move types. *)
Fixpoint first_for (Move1 Move2 : nat) (calls : list (nat * nat * related))
  : option related :=
  match calls with
  | [] => None
  | (t1, t2, r) :: calls' =>
      if decide ((t1, t2) = (Move1, Move2)) then Some r
      else first_for Move1 Move2 calls'
  end.

(** Every entry is of the function type of its key, and no pair of move
    types has both an entry without and an entry with the state. *)
Definition well_formed (related_funcs : gmap (bool * (nat * nat)) related) : Prop :=
  (forall (k : bool) (p : nat * nat) (r : related),
     related_funcs !! (k, p) = Some r -> with_state r = k) /\
  (forall p : nat * nat,
     related_funcs !! (false, p) = None \/ related_funcs !! (true, p) = None).

Lemma find_related_insert (reg : gmap (bool * (nat * nat)) related)
  (t1 t2 m1 m2 : nat) (r : related) :
  find_related reg t1 t2 = None ->
  find_related (<[(with_state r, (t1, t2)) := r]> reg) m1 m2 =
    if decide ((t1, t2) = (m1, m2)) then Some r else find_related reg m1 m2.
Proof.
  unfold find_related. intros Hnone.
  destruct (reg !! (false, (t1, t2))) eqn:E1; [discriminate|].
  destruct (decide ((t1, t2) = (m1, m2))) as [Heq|Hne].
  - injection Heq as <- <-. destruct r; cbn [with_state].
    + now rewrite lookup_insert_eq.
    + rewrite lookup_insert_ne by congruence. rewrite E1. now rewrite lookup_insert_eq.
  - rewrite !lookup_insert_ne by congruence. reflexivity.
Qed.

Lemma find_related_None (reg : gmap (bool * (nat * nat)) related) (t1 t2 : nat) :
  find_related reg t1 t2 = None <->
  reg !! (false, (t1, t2)) = None /\ reg !! (true, (t1, t2)) = None.
Proof.
  unfold find_related. destruct (reg !! (false, (t1, t2))); split; intros H.
  - discriminate.
  - now destruct H.
  - now split.
  - now destruct H.
Qed.

Lemma register_spec (reg : gmap (bool * (nat * nat)) related) (t1 t2 : nat) (r : related) :
  register reg (t1, t2, r) =
    match find_related reg t1 t2 with
    | Some _ => reg
    | None => <[(with_state r, (t1, t2)) := r]> reg
    end.
Proof.
  unfold register, AddRelatedFunction, find_related. simpl.
  destruct (reg !! (false, (t1, t2))); [reflexivity|].
  destruct (reg !! (true, (t1, t2))); reflexivity.
Qed.

Lemma well_formed_register (reg : gmap (bool * (nat * nat)) related)
  (call : nat * nat * related) :
  well_formed reg -> well_formed (register reg call).
Proof.
  destruct call as [[t1 t2] r]. intros [Hkind Hone]. rewrite register_spec.
  destruct (find_related reg t1 t2) eqn:E; [now split|].
  apply find_related_None in E as [E1 E2]. split.
  - intros k p r' H. destruct (decide ((with_state r, (t1, t2)) = (k, p))) as [Heq|Hne].
    + rewrite Heq, lookup_insert_eq in H. injection H as <-. congruence.
    + rewrite lookup_insert_ne in H by exact Hne. eauto.
  - intros p. destruct (decide (p = (t1, t2))) as [->|Hne].
    + destruct r; cbn [with_state]; [right|left];
        rewrite lookup_insert_ne by congruence; auto.
    + rewrite !lookup_insert_ne by congruence. apply Hone.
Qed.

Lemma register_all_from (calls : list (nat * nat * related)) :
  forall reg : gmap (bool * (nat * nat)) related,
  well_formed reg ->
  well_formed (fold_left register calls reg) /\
  forall m1 m2 : nat,
    find_related (fold_left register calls reg) m1 m2 =
      match find_related reg m1 m2 with
      | Some f => Some f
      | None => first_for m1 m2 calls
      end.
Proof.
  induction calls as [|[[t1 t2] r] calls IH]; intros reg Hwf; cbn [fold_left first_for].
  - split; [exact Hwf|]. intros m1 m2. now destruct (find_related reg m1 m2).
  - destruct (IH (register reg (t1, t2, r)) (well_formed_register reg _ Hwf))
      as [Hwf' Hfind].
    split; [exact Hwf'|]. intros m1 m2. rewrite Hfind, register_spec.
    destruct (find_related reg t1 t2) eqn:E.
    + destruct (find_related reg m1 m2) eqn:E'; [reflexivity|].
      destruct (decide ((t1, t2) = (m1, m2))) as [Heq|Hne]; [|reflexivity].
      injection Heq as -> ->. congruence.
    + rewrite (find_related_insert reg t1 t2 m1 m2 r E).
      destruct (decide ((t1, t2) = (m1, m2))) as [Heq|Hne].
      * injection Heq as <- <-. now rewrite E.
      * now destruct (find_related reg m1 m2).
Qed.

(** X16. Whatever registrations are made on an explorer, a pair of move types
    never has both a predicate without the state and one with it, every
    entry is of the function type of its key (the cast in [are_related]
    does not fail), and the predicate in force for a pair is the first one
    registered for it: a later registration for the same pair throws and
    changes nothing. *)
Theorem AddRelatedFunction_first_wins (calls : list (nat * nat * related)) :
  well_formed (register_all calls) /\
  (forall Move1 Move2 : nat,
     find_related (register_all calls) Move1 Move2 = first_for Move1 Move2 calls) /\
  (forall (Move1 Move2 : nat) (r : related),
     is_Some (first_for Move1 Move2 calls) ->
     AddRelatedFunction Move1 Move2 r (register_all calls) = LogicError).
Proof.
  assert (Hempty : well_formed (∅ : gmap (bool * (nat * nat)) related)).
  { split; [intros k p r H; now rewrite lookup_empty in H|].
    intros p. left. apply lookup_empty. }
  destruct (register_all_from calls ∅ Hempty) as [Hwf Hfind].
  assert (Hfind' : forall m1 m2 : nat,
            find_related (register_all calls) m1 m2 = first_for m1 m2 calls).
  { intros m1 m2. unfold register_all. rewrite Hfind. unfold find_related.
    now rewrite !lookup_empty. }
  split; [exact Hwf|]. split; [exact Hfind'|].
  intros m1 m2 r [f Hf]. rewrite <- Hfind' in Hf.
  unfold AddRelatedFunction. unfold find_related in Hf.
  destruct (register_all calls !! (false, (m1, m2))); [reflexivity|].
  now rewrite Hf.
Qed.

End WithTypes.

End RelatedFunctions.

(** ** The Cartesian product of neighborhoods: the next chain *)

Module CartesianNext.

Import MultiModal.

#[local] Arguments Modality {State Move Weights Rng double} _.
#[local] Arguments NextMove {State Move Weights Rng double} _ _ _.
#[local] Arguments FirstMove {State Move Weights Rng double} _ _ _.
#[local] Arguments set_activity_at {Move} _ _ _.
#[local] Arguments set_move_at {Move} _ _ _.
#[local] Arguments cur {State Move} _.
#[local] Arguments backtracking {State Move} _.
#[local] Arguments moves {State Move} _.
#[local] Arguments states {State Move} _.
#[local] Arguments at_label {State Move} _.
#[local] Arguments level {State Move} _.
#[local] Arguments reset_state {State Move} _ _.
#[local] Arguments backtrack {State Move} _.
#[local] Arguments advance {State Move Weights Rng double} _ {A} _.
#[local] Arguments not_related {State Move} _ _ _.
#[local] Arguments are_related {State Move} _ _ _ _ _.
#[local] Arguments same_prefix {Move} _ _ _.
#[local] Arguments FirstMove_step {State Move Weights Rng double} _ _ _ _ _.
#[local] Arguments chain_related {State Move Weights Rng double} _ _ _ _ _.
#[local] Arguments state_at {State Move Weights Rng double} _ _ _ _.

Section WithTypes.

Variables State Move Weights Rng double : Type.

(** The base explorers of the composite, in tuple order, and the entries of
    [related_funcs]. *)
Variable nhes : list (NeighborhoodExplorer State Move Weights Rng double).
Variable related_funcs : nat -> option (Move -> Move -> bool).
Variable related_state_funcs : nat -> option (State -> Move -> Move -> bool).

(** [std::vector<State> states(length, st); long cur = length - 1;
    bool backtracking = true;] *)
Definition next_frame (st : State) (moves0 : list (ActiveMove Move))
  : frame State Move :=
  mkFrame (Z.of_nat (Modality nhes) - 1) true moves0
          (replicate (Modality nhes) st) AtLoop.

(** [CartesianProductNeighborhoodExplorer::NextMove].  From the label
    [loop:] on, its text is the one of [FirstMove], with [return false] for
    [throw EmptyNeighborhood()] and [return true] at the end: the moves
    when the call returns true, [None] when it returns false. *)
Definition CartesianProduct_NextMove (fuel : nat) (st : State)
  (moves0 : list (ActiveMove Move)) : option (outcome (option (list (ActiveMove Move)))) :=
  match run (FirstMove_step nhes related_funcs related_state_funcs st) fuel
            (next_frame st moves0) with
  | Some (Returned ms) => Some (Returned (Some ms))
  | Some EmptyNeighborhood => Some (Returned None)
  | Some LogicError => Some LogicError
  | None => None
  end.

(** Every pair of neighbouring moves below the level [k] is related, by a
    predicate that does not read the state. *)
Definition related_upto (k : nat) (st : State) (ms : list (ActiveMove Move)) : Prop :=
  forall j : nat, (S j < k)%nat ->
    are_related related_funcs related_state_funcs j st ms = Some true.

Definition NextInv (st : State) (c : frame State Move) : Prop :=
  -1 <= cur c /\
  related_upto (level c) st (moves c) /\
  (at_label c <> AtLoop -> 0 <= cur c).

Hypothesis no_state_funcs : forall i : nat, related_state_funcs i = None.

Lemma are_related_any_state (j : nat) (s s' : State) (ms : list (ActiveMove Move)) :
  are_related related_funcs related_state_funcs j s ms =
  are_related related_funcs related_state_funcs j s' ms.
Proof.
  unfold MultiModal.are_related. rewrite no_state_funcs.
  destruct (ms !! j), (ms !! S j); try reflexivity.
Qed.

Lemma related_upto_transport (k k' : nat) (st : State) (ms ms' : list (ActiveMove Move)) :
  (k' <= k)%nat -> same_prefix k' ms ms' ->
  related_upto k st ms -> related_upto k' st ms'.
Proof.
  intros Hle Hpre H j Hj. rewrite <- (H j) by lia. symmetry.
  apply are_related_prefix. eapply same_prefix_le; [|exact Hpre]. lia.
Qed.

Lemma NextInv_backtrack st (c : frame State Move) :
  0 <= cur c -> related_upto (level c) st (moves c) -> NextInv st (backtrack c).
Proof.
  intros H0 Hc. unfold NextInv, MultiModal.backtrack, MultiModal.level in *.
  cbn [MultiModal.cur MultiModal.moves MultiModal.at_label].
  split; [lia|]. split; [|congruence].
  eapply related_upto_transport; [| |exact Hc].
  - lia.
  - apply same_prefix_set_activity_at.
Qed.

Lemma NextInv_set (st : State) (c : frame State Move) b ms' sts lbl :
  NextInv st c -> 0 <= cur c -> same_prefix (level c) (moves c) ms' ->
  related_upto (level c) st ms' /\
  NextInv st (mkFrame (cur c) b ms' sts lbl).
Proof.
  intros (Hge & Hc & _) H0 Hpre.
  assert (Hc' : related_upto (level c) st ms')
    by (eapply related_upto_transport; [| |exact Hc]; auto).
  split; [exact Hc'|]. unfold NextInv.
  cbn [MultiModal.cur MultiModal.moves MultiModal.at_label].
  split; [lia|]. split; [exact Hc'|]. intros _. exact H0.
Qed.

Lemma NextInv_advance st (c c' : frame State Move) :
  NextInv st c -> at_label c <> AtLoop ->
  not_related related_funcs related_state_funcs c = Some false ->
  advance nhes (A := list (ActiveMove Move)) c = inl c' -> NextInv st c'.
Proof.
  intros (Hge & Hc & Hin) Hlbl Hrel Hadv. pose proof (Hin Hlbl) as H0.
  unfold MultiModal.advance, dispatch in Hadv.
  destruct (nhes !! level c) as [ne|] eqn:Ene; [|discriminate].
  destruct (moves c !! level c) as [m|] eqn:Em; [|discriminate].
  destruct (states c !! level c) as [s|] eqn:Es; [|discriminate].
  injection Hadv as <-.
  assert (Hlvl : Z.to_nat (cur c + 1) = S (level c))
    by (unfold MultiModal.level; lia).
  unfold NextInv. cbn [MultiModal.cur MultiModal.moves MultiModal.at_label].
  unfold MultiModal.level at 1. cbn [MultiModal.cur]. rewrite Hlvl.
  split; [lia|]. split; [|congruence].
  eapply (related_upto_transport (S (level c)) (S (level c)) st (moves c));
    [lia | apply same_prefix_set_activity_at |].
  intros j Hj. destruct (decide (S j = level c)) as [Heq|Hne].
  - unfold MultiModal.not_related in Hrel.
    assert (Hpos : (0 <? cur c) = true)
      by (apply Z.ltb_lt; unfold MultiModal.level in Heq; lia).
    rewrite Hpos in Hrel.
    replace (level c - 1)%nat with j in Hrel by lia.
    destruct (states c !! j) as [s1|] eqn:Es1; [|discriminate].
    rewrite (are_related_any_state j st s1).
    destruct (are_related related_funcs related_state_funcs j s1 (moves c)) as [[|]|];
      simpl in Hrel; congruence.
  - apply Hc. lia.
Qed.

Ltac break_match H :=
  match type of H with
  | context [match ?x with _ => _ end] => destruct x eqn:?
  end.

Lemma FirstMove_step_NextInv st (c c' : frame State Move) :
  NextInv st c ->
  FirstMove_step nhes related_funcs related_state_funcs st c = inl c' ->
  NextInv st c'.
Proof.
  intros HI Hstep. pose proof HI as (Hge & Hc & Hin).
  unfold MultiModal.FirstMove_step, dispatch in Hstep.
  destruct (at_label c) eqn:Elbl.
  - destruct (cur c <? Z.of_nat (Modality nhes)); [|discriminate].
    destruct (cur c =? -1) eqn:Em1; [discriminate|]. apply Z.eqb_neq in Em1.
    assert (H0 : 0 <= cur c) by lia.
    destruct (reset_state st c) as [states1|] eqn:Er; [|discriminate].
    destruct (negb (backtracking c)).
    + destruct (nhes !! level c) as [ne|]; [|discriminate].
      destruct (moves c !! level c) as [m|]; [|discriminate].
      destruct (FirstMove ne st (raw m)) as [m'|]; injection Hstep as <-.
      * apply (NextInv_set st c _ _ _ _ HI H0), same_prefix_set_move_at.
      * apply NextInv_backtrack; [exact H0|exact Hc].
    + injection Hstep as <-.
      apply (NextInv_set st c _ _ _ _ HI H0). intros j _; reflexivity.
  - pose proof (Hin ltac:(congruence)) as H0.
    destruct (not_related related_funcs related_state_funcs c) as [[|]|] eqn:Eg;
      [| |discriminate].
    + destruct (nhes !! level c) as [ne|]; [|discriminate].
      destruct (moves c !! level c) as [m|]; [|discriminate].
      destruct (states c !! level c) as [s|]; [|discriminate].
      destruct (NextMove ne s (raw m)) as [ok m'].
      destruct (NextInv_set st c (backtracking c)
                  (set_move_at (level c) (moves c) m') (states c) AtWhile HI H0
                  (same_prefix_set_move_at _ _ _ _)) as [Hc' HI'].
      destruct ok; injection Hstep as <-.
      * exact HI'.
      * apply NextInv_backtrack; [exact H0|exact Hc'].
    + eapply NextInv_advance; eauto. congruence.
  - pose proof (Hin ltac:(congruence)) as H0.
    destruct (nhes !! level c) as [ne|]; [|discriminate].
    destruct (moves c !! level c) as [m|]; [|discriminate].
    destruct (states c !! level c) as [s|]; [|discriminate].
    destruct (NextMove ne s (raw m)) as [ok m'].
    destruct (NextInv_set st c (backtracking c)
                (set_move_at (level c) (moves c) m') (states c) AtDoWhile HI H0
                (same_prefix_set_move_at _ _ _ _)) as [Hc' HI'].
    destruct ok.
    + match type of Hstep with
      | context [not_related ?f ?g ?c1] =>
          destruct (not_related f g c1) as [[|]|] eqn:Eg
      end; [| |discriminate].
      * injection Hstep as <-. exact HI'.
      * eapply NextInv_advance; [exact HI'| |exact Eg|exact Hstep]. simpl. congruence.
    + injection Hstep as <-. apply NextInv_backtrack; [exact H0|exact Hc'].
Qed.

Lemma FirstMove_step_NextInv_Returned st (c : frame State Move) ms :
  NextInv st c ->
  FirstMove_step nhes related_funcs related_state_funcs st c = inr (Returned ms) ->
  related_upto (Modality nhes) st ms.
Proof.
  intros (_ & Hc & _) Hstep. unfold MultiModal.FirstMove_step, dispatch in Hstep.
  destruct (at_label c).
  - destruct (cur c <? Z.of_nat (Modality nhes)) eqn:Ecur.
    + repeat (break_match Hstep; try discriminate).
    + injection Hstep as <-. apply Z.ltb_ge in Ecur.
      intros j Hj. apply Hc. unfold MultiModal.level. lia.
  - repeat (break_match Hstep; try discriminate);
      now apply advance_not_Returned in Hstep.
  - repeat (break_match Hstep; try discriminate);
      now apply advance_not_Returned in Hstep.
Qed.

(** X17. With predicates that do not read the state, [NextMove] of the
    Cartesian product turns a chain in which every move is related to the
    one before it into such a chain again, whenever it returns true. *)
Theorem CartesianProduct_NextMove_related (st : State)
  (moves0 ms : list (ActiveMove Move)) (fuel : nat) :
  chain_related nhes related_funcs related_state_funcs st moves0 ->
  CartesianProduct_NextMove fuel st moves0 = Some (Returned (Some ms)) ->
  chain_related nhes related_funcs related_state_funcs st ms.
Proof.
  intros Hin Hrun. unfold CartesianProduct_NextMove in Hrun.
  destruct (run (FirstMove_step nhes related_funcs related_state_funcs st) fuel
                (next_frame st moves0)) as [[ms1| |]|] eqn:E; try discriminate.
  injection Hrun as <-.
  assert (H : related_upto (Modality nhes) st ms1).
  { apply (run_invariant (FirstMove_step nhes related_funcs related_state_funcs st)
             (NextInv st) (related_upto (Modality nhes) st)
             (FirstMove_step_NextInv st) (FirstMove_step_NextInv_Returned st)
             fuel (next_frame st moves0) ms1); [|exact E].
    unfold NextInv, next_frame.
    cbn [MultiModal.cur MultiModal.moves MultiModal.at_label].
    split; [lia|]. split; [|congruence].
    intros j Hj. unfold MultiModal.level in Hj. cbn [MultiModal.cur] in Hj.
    rewrite <- (Hin j) by lia. apply are_related_any_state. }
  intros j Hj. rewrite <- (H j Hj). apply are_related_any_state.
Qed.

End WithTypes.

Arguments CartesianProduct_NextMove {State Move Weights Rng double} _ _ _ _ _ _.

(** The chain that follows [s4_chain] in the product of the two flips. *)
Definition s4_next : list (ActiveMove nat) :=
  [mkActive 0%nat true; mkActive 2%nat true].

Lemma CartesianProduct_NextMove_related_ex :
  CartesianProduct_NextMove [flip; flip] s4_related no_related_state 20 s4_state s4_chain
    = Some (Returned (Some s4_next)) /\
  chain_related [flip; flip] s4_related no_related_state s4_state s4_next.
Proof.
  assert (H : CartesianProduct_NextMove [flip; flip] s4_related no_related_state 20
                s4_state s4_chain = Some (Returned (Some s4_next))) by reflexivity.
  split; [exact H|].
  apply (CartesianProduct_NextMove_related _ _ _ _ _ [flip; flip] s4_related
           no_related_state (fun i => eq_refl) s4_state s4_chain s4_next 20);
    [|exact H].
  intros j Hj. destruct j as [|j]; [reflexivity|]. simpl in Hj. lia.
Defined.

End CartesianNext.

(** ** The URL codec (url.hh) *)

Module URL.

(** A [std::string] is the list of its bytes; they are read through a
    [const unsigned char *]. *)

(** The value [*pSrc] of a byte. *)
Definition code (c : Byte.byte) : Z := Z.of_N (Byte.to_N c).

(** The conversion of an [int] to the [char] it is stored in: the value
    modulo 256. *)
Definition to_char (x : Z) : Byte.byte :=
  match Byte.of_N (Z.to_N (x mod 256)) with
  | Some b => b
  | None => Byte.x00
  end.

(** [table[i]] *)
Definition at_index {A : Type} (table : list A) (i : Z) (d : A) : A :=
  nth (Z.to_nat i) table d.

(** The table [HEX2DEC] of [URLDecode]; [char] is signed, an entry [-1] is
    read back as [-1]. *)
Definition HEX2DEC : list Z :=
  [ (* 0 *) -1;-1;-1;-1; -1;-1;-1;-1; -1;-1;-1;-1; -1;-1;-1;-1;
    (* 1 *) -1;-1;-1;-1; -1;-1;-1;-1; -1;-1;-1;-1; -1;-1;-1;-1;
    (* 2 *) -1;-1;-1;-1; -1;-1;-1;-1; -1;-1;-1;-1; -1;-1;-1;-1;
    (* 3 *)  0; 1; 2; 3;  4; 5; 6; 7;  8; 9;-1;-1; -1;-1;-1;-1;
    (* 4 *) -1;10;11;12; 13;14;15;-1; -1;-1;-1;-1; -1;-1;-1;-1;
    (* 5 *) -1;-1;-1;-1; -1;-1;-1;-1; -1;-1;-1;-1; -1;-1;-1;-1;
    (* 6 *) -1;10;11;12; 13;14;15;-1; -1;-1;-1;-1; -1;-1;-1;-1;
    (* 7 *) -1;-1;-1;-1; -1;-1;-1;-1; -1;-1;-1;-1; -1;-1;-1;-1;
    (* 8 *) -1;-1;-1;-1; -1;-1;-1;-1; -1;-1;-1;-1; -1;-1;-1;-1;
    (* 9 *) -1;-1;-1;-1; -1;-1;-1;-1; -1;-1;-1;-1; -1;-1;-1;-1;
    (* A *) -1;-1;-1;-1; -1;-1;-1;-1; -1;-1;-1;-1; -1;-1;-1;-1;
    (* B *) -1;-1;-1;-1; -1;-1;-1;-1; -1;-1;-1;-1; -1;-1;-1;-1;
    (* C *) -1;-1;-1;-1; -1;-1;-1;-1; -1;-1;-1;-1; -1;-1;-1;-1;
    (* D *) -1;-1;-1;-1; -1;-1;-1;-1; -1;-1;-1;-1; -1;-1;-1;-1;
    (* E *) -1;-1;-1;-1; -1;-1;-1;-1; -1;-1;-1;-1; -1;-1;-1;-1;
    (* F *) -1;-1;-1;-1; -1;-1;-1;-1; -1;-1;-1;-1; -1;-1;-1;-1 ].

(** The table [SAFE] of [URLEncode]. *)
Definition SAFE : list Z :=
  [ (* 0 *) 0;0;0;0; 0;0;0;0; 0;0;0;0; 0;0;0;0;
    (* 1 *) 0;0;0;0; 0;0;0;0; 0;0;0;0; 0;0;0;0;
    (* 2 *) 0;0;0;0; 0;0;0;0; 0;0;0;0; 0;0;0;0;
    (* 3 *) 1;1;1;1; 1;1;1;1; 1;1;0;0; 0;0;0;0;
    (* 4 *) 0;1;1;1; 1;1;1;1; 1;1;1;1; 1;1;1;1;
    (* 5 *) 1;1;1;1; 1;1;1;1; 1;1;1;0; 0;0;0;0;
    (* 6 *) 0;1;1;1; 1;1;1;1; 1;1;1;1; 1;1;1;1;
    (* 7 *) 1;1;1;1; 1;1;1;1; 1;1;1;0; 0;0;0;0;
    (* 8 *) 0;0;0;0; 0;0;0;0; 0;0;0;0; 0;0;0;0;
    (* 9 *) 0;0;0;0; 0;0;0;0; 0;0;0;0; 0;0;0;0;
    (* A *) 0;0;0;0; 0;0;0;0; 0;0;0;0; 0;0;0;0;
    (* B *) 0;0;0;0; 0;0;0;0; 0;0;0;0; 0;0;0;0;
    (* C *) 0;0;0;0; 0;0;0;0; 0;0;0;0; 0;0;0;0;
    (* D *) 0;0;0;0; 0;0;0;0; 0;0;0;0; 0;0;0;0;
    (* E *) 0;0;0;0; 0;0;0;0; 0;0;0;0; 0;0;0;0;
    (* F *) 0;0;0;0; 0;0;0;0; 0;0;0;0; 0;0;0;0 ].

(** [DEC2HEX], the digits 0123456789ABCDEF. *)
Definition DEC2HEX : list Byte.byte :=
  [ Byte.x30; Byte.x31; Byte.x32; Byte.x33; Byte.x34; Byte.x35; Byte.x36; Byte.x37;
    Byte.x38; Byte.x39; Byte.x41; Byte.x42; Byte.x43; Byte.x44; Byte.x45; Byte.x46 ].

(** The character '%'. *)
Definition percent : Byte.byte := Byte.x25.

(** The two loops of [URLDecode] on what is left of the source from [pSrc]
    on.  [pSrc < SRC_LAST_DEC] holds when more than two bytes are left; once
    it fails the bytes left ("the last 2- chars") are copied. *)
Fixpoint decode_loop (pSrc : list Byte.byte) : list Byte.byte :=
  match pSrc with
  | c :: ((h1 :: h2 :: after) as rest) =>
      let dec1 := at_index HEX2DEC (code h1) 0 in
      let dec2 := at_index HEX2DEC (code h2) 0 in
      if Byte.eqb c percent && negb (-1 =? dec1) && negb (-1 =? dec2)
      then to_char (Z.shiftl dec1 4 + dec2) :: decode_loop after
      else c :: decode_loop rest
  | _ => pSrc
  end.

(** [URLDecode]; [SRC_LEN] is an [int]. *)
Definition URLDecode (sSrc : list Byte.byte) : option (list Byte.byte) :=
  if Z.of_nat (length sSrc) <? 2 ^ 31 then Some (decode_loop sSrc) else None.

(** The loop of [URLEncode]. *)
Fixpoint encode_loop (pSrc : list Byte.byte) : list Byte.byte :=
  match pSrc with
  | [] => []
  | c :: rest =>
      (if negb (at_index SAFE (code c) 0 =? 0) then [c]
       else [percent;
             at_index DEC2HEX (Z.shiftr (code c) 4) Byte.x00;
             at_index DEC2HEX (Z.land (code c) 15) Byte.x00])
      ++ encode_loop rest
  end.

(** [URLEncode]; the buffer holds [SRC_LEN * 3] bytes, an [int]
    product. *)
Definition URLEncode (sSrc : list Byte.byte) : option (list Byte.byte) :=
  if Z.of_nat (length sSrc) * 3 <? 2 ^ 31 then Some (encode_loop sSrc) else None.

(** Letters and digits of ASCII. *)
Definition is_alnum (c : Byte.byte) : bool :=
  ((48 <=? code c) && (code c <=? 57))
  || ((65 <=? code c) && (code c <=? 90))
  || ((97 <=? code c) && (code c <=? 122)).

(** The bytes that [URLEncode] escapes. *)
Definition escaped (s : list Byte.byte) : list Byte.byte :=
  List.filter (fun c => negb (is_alnum c)) s.

Definition ex_text : list Byte.byte :=
  [Byte.x61; Byte.x20; Byte.x62; Byte.x2f; Byte.x25; Byte.xe9].

(** *** Tables *)

Lemma SAFE_alnum (c : Byte.byte) : negb (at_index SAFE (code c) 0 =? 0) = is_alnum c.
Proof. destruct c; reflexivity. Qed.

Lemma hex_digits (c : Byte.byte) :
  let hi := at_index DEC2HEX (Z.shiftr (code c) 4) Byte.x00 in
  let lo := at_index DEC2HEX (Z.land (code c) 15) Byte.x00 in
  (-1 =? at_index HEX2DEC (code hi) 0) = false /\
  (-1 =? at_index HEX2DEC (code lo) 0) = false /\
  to_char (Z.shiftl (at_index HEX2DEC (code hi) 0) 4 + at_index HEX2DEC (code lo) 0) = c /\
  is_alnum hi = true /\ is_alnum lo = true.
Proof. destruct c; vm_compute; repeat split. Qed.

Lemma alnum_not_percent (c : Byte.byte) : is_alnum c = true -> Byte.eqb c percent = false.
Proof. destruct c; vm_compute; congruence. Qed.

Lemma decode_loop_long (c h1 h2 : Byte.byte) (after : list Byte.byte) :
  decode_loop (c :: h1 :: h2 :: after) =
  let dec1 := at_index HEX2DEC (code h1) 0 in
  let dec2 := at_index HEX2DEC (code h2) 0 in
  if Byte.eqb c percent && negb (-1 =? dec1) && negb (-1 =? dec2)
  then to_char (Z.shiftl dec1 4 + dec2) :: decode_loop after
  else c :: decode_loop (h1 :: h2 :: after).
Proof. reflexivity. Qed.

Lemma decode_loop_copy (c : Byte.byte) (rest : list Byte.byte) :
  Byte.eqb c percent = false -> decode_loop (c :: rest) = c :: decode_loop rest.
Proof.
  intros Hc. destruct rest as [|h1 [|h2 after]]; try reflexivity.
  rewrite decode_loop_long. cbv zeta. now rewrite Hc.
Qed.

Lemma decode_encode_loop (s : list Byte.byte) : decode_loop (encode_loop s) = s.
Proof.
  induction s as [|c s IH]; [reflexivity|].
  cbn [encode_loop]. rewrite SAFE_alnum.
  destruct (is_alnum c) eqn:E.
  - cbn [app]. rewrite decode_loop_copy by now apply alnum_not_percent.
    now rewrite IH.
  - destruct (hex_digits c) as (H1 & H2 & H3 & _).
    cbn [app]. rewrite decode_loop_long. cbv zeta in *.
    rewrite H1, H2, H3. cbn [negb andb]. 
    replace (Byte.eqb percent percent) with true by reflexivity.
    now rewrite IH.
Qed.

Lemma length_encode_loop (s : list Byte.byte) :
  length (encode_loop s) = (length s + 2 * length (escaped s))%nat.
Proof.
  induction s as [|c s IH]; [reflexivity|].
  unfold escaped in *. cbn [encode_loop List.filter].
  rewrite SAFE_alnum, length_app, IH.
  destruct (is_alnum c); cbn [negb length]; lia.
Qed.

Lemma length_escaped (s : list Byte.byte) : (length (escaped s) <= length s)%nat.
Proof.
  unfold escaped. induction s as [|c s IH]; cbn [List.filter length]; [lia|].
  destruct (is_alnum c); cbn [negb length]; lia.
Qed.

Lemma length_decode_loop_upto (n : nat) : forall s : list Byte.byte,
  (length s <= n)%nat -> (length (decode_loop s) <= length s)%nat.
Proof.
  induction n as [|n IH]; intros s Hs.
  - destruct s; [cbn; lia | cbn in Hs; lia].
  - destruct s as [|c [|h1 [|h2 after]]]; try (cbn; lia).
    rewrite decode_loop_long. cbv zeta.
    destruct (Byte.eqb c percent && _ && _).
    + cbn [length] in *. specialize (IH after). lia.
    + cbn [length] in *. specialize (IH (h1 :: h2 :: after)). cbn [length] in IH. lia.
Qed.

Lemma decode_loop_no_percent (s : list Byte.byte) :
  ~ In percent s -> decode_loop s = s.
Proof.
  induction s as [|c s IH]; intros Hin; [reflexivity|].
  rewrite decode_loop_copy.
  - rewrite IH; [reflexivity|]. intros H. apply Hin. now right.
  - destruct (Byte.eqb c percent) eqn:E; [|reflexivity].
    apply Byte.byte_dec_bl in E. exfalso. apply Hin. now left.
Qed.

(** X18. Decoding an encoded string gives the string back, whatever its
    bytes, as long as three times its length fits an [int]. *)
Theorem URLDecode_URLEncode (s : list Byte.byte) :
  Z.of_nat (length s) * 3 < 2 ^ 31 ->
  exists e : list Byte.byte, URLEncode s = Some e /\ URLDecode e = Some s.
Proof.
  intros Hlen. exists (encode_loop s). unfold URLEncode, URLDecode.
  pose proof (length_encode_loop s) as Hl. pose proof (length_escaped s) as He.
  replace (Z.of_nat (length s) * 3 <? 2 ^ 31) with true by (symmetry; apply Z.ltb_lt; lia).
  replace (Z.of_nat (length (encode_loop s)) <? 2 ^ 31) with true
    by (symmetry; apply Z.ltb_lt; lia).
  now rewrite decode_encode_loop.
Qed.

Lemma URLDecode_URLEncode_ex :
  Z.of_nat (length ex_text) * 3 < 2 ^ 31 /\
  exists e : list Byte.byte, URLEncode ex_text = Some e /\ URLDecode e = Some ex_text.
Proof.
  assert (H : Z.of_nat (length ex_text) * 3 < 2 ^ 31) by (vm_compute; reflexivity).
  split; [exact H | exact (URLDecode_URLEncode ex_text H)].
Defined.

(** X19. The output buffers are large enough: an encoded string has three
    bytes for every byte that is not a letter or a digit and one for every
    other, at most the [SRC_LEN * 3] allocated, and a decoded string is
    never longer than its source. *)
Theorem URL_buffer_bounds (s : list Byte.byte) :
  (forall e : list Byte.byte, URLEncode s = Some e ->
     length e = (length s + 2 * length (escaped s))%nat /\
     Z.of_nat (length e) <= Z.of_nat (length s) * 3 < 2 ^ 31) /\
  (forall d : list Byte.byte, URLDecode s = Some d ->
     (length d <= length s)%nat /\ Z.of_nat (length s) < 2 ^ 31).
Proof.
  split.
  - intros e. unfold URLEncode.
    destruct (Z.of_nat (length s) * 3 <? 2 ^ 31) eqn:E; [|discriminate].
    intros [= <-]. apply Z.ltb_lt in E.
    pose proof (length_encode_loop s). pose proof (length_escaped s). lia.
  - intros d. unfold URLDecode.
    destruct (Z.of_nat (length s) <? 2 ^ 31) eqn:E; [|discriminate].
    intros [= <-]. apply Z.ltb_lt in E. split; [|exact E].
    now apply (length_decode_loop_upto (length s)).
Qed.

Lemma Forall_alnum_escaped (s : list Byte.byte) :
  Forall (fun c => is_alnum c = true) s <-> escaped s = [].
Proof.
  unfold escaped. induction s as [|c s IH]; cbn [List.filter].
  - split; auto.
  - destruct (is_alnum c) eqn:E; cbn [negb].
    + rewrite <- IH. split.
      * intros H. now inversion H.
      * intros H. now constructor.
    + split; [|discriminate]. intros H. inversion H. congruence.
Qed.

(** X20. The encoded string is made of letters, digits and '%', and only
    the strings of letters and digits are left as they are. *)
Theorem URLEncode_alphabet (s e : list Byte.byte) :
  URLEncode s = Some e ->
  Forall (fun c => is_alnum c = true \/ c = percent) e /\
  (e = s <-> Forall (fun c => is_alnum c = true) s).
Proof.
  unfold URLEncode. destruct (Z.of_nat (length s) * 3 <? 2 ^ 31); [|discriminate].
  intros [= <-]. split.
  - induction s as [|c s IH]; [constructor|].
    cbn [encode_loop]. rewrite SAFE_alnum. apply Forall_app. split; [|exact IH].
    destruct (is_alnum c) eqn:E.
    + constructor; [now left | constructor].
    + destruct (hex_digits c) as (_ & _ & _ & H4 & H5). cbv zeta in H4, H5.
      constructor; [now right|]. constructor; [now left|].
      constructor; [now left | constructor].
  - rewrite Forall_alnum_escaped. split.
    + intros H. pose proof (length_encode_loop s) as Hl. rewrite H in Hl.
      destruct (escaped s); [reflexivity | cbn in Hl; lia].
    + rewrite <- Forall_alnum_escaped. intros H.
      induction H as [|c s Hc Hs IH]; [reflexivity|].
      cbn [encode_loop]. rewrite SAFE_alnum, Hc. cbn. now rewrite IH.
Qed.

Lemma URLEncode_alphabet_ex :
  URLEncode ex_text = Some (encode_loop ex_text) /\
  Forall (fun c => is_alnum c = true \/ c = percent) (encode_loop ex_text) /\
  (encode_loop ex_text = ex_text <-> Forall (fun c => is_alnum c = true) ex_text).
Proof.
  assert (H : URLEncode ex_text = Some (encode_loop ex_text)) by reflexivity.
  split; [exact H | exact (URLEncode_alphabet ex_text _ H)].
Defined.

(** X21. A string of fewer than three bytes, or without '%', is decoded to
    itself: a '%' among the last two bytes is never an escape. *)
Theorem URLDecode_literal (s : list Byte.byte) :
  Z.of_nat (length s) < 2 ^ 31 ->
  (length s < 3)%nat \/ ~ In percent s ->
  URLDecode s = Some s.
Proof.
  intros Hlen H. unfold URLDecode.
  replace (Z.of_nat (length s) <? 2 ^ 31) with true by (symmetry; apply Z.ltb_lt; lia).
  f_equal. destruct H as [H|H].
  - destruct s as [|c [|h1 [|h2 after]]]; try reflexivity. cbn in H. lia.
  - now apply decode_loop_no_percent.
Qed.

Lemma URLDecode_literal_ex :
  URLDecode [percent; Byte.x34] = Some [percent; Byte.x34].
Proof.
  apply URLDecode_literal.
  - vm_compute. reflexivity.
  - left. cbn. lia.
Defined.

End URL.

(** ** Neighborhood iterators (parallelneighborhoodexplorer.hh) *)

Module NeighborhoodIterators.

Import MultiModal.

#[local] Arguments FirstMove {State Move Weights Rng double} _ _ _.
#[local] Arguments NextMove {State Move Weights Rng double} _ _ _.
#[local] Arguments RandomMove {State Move Weights Rng double} _ _ _ _.

Section WithTypes.

Variables State Move Weights Rng double : Type.

(** The explorer the iterators run on, the default-constructed move, and
    the state: [state_ref] stands for its address, which the comparisons
    read. *)
Variable ne : NeighborhoodExplorer State Move Weights Rng double.
Variable default_move : Move.

(** The data members of [FullNeighborhoodIterator]; of [computed_move] the
    move is kept, [move_count] is a [size_t]. *)
Record FullNeighborhoodIterator : Type := mkFull {
  state_ref : nat;
  state : State;
  current_move : Move;
  computed_move : Move;
  move_count : Z;
  end_ : bool
}.

(** The constructor of [FullNeighborhoodIterator].  Its parameter [end]
    hides the member of the same name: the member is initialised from it,
    and [end = true] in the handler of [EmptyNeighborhood] writes the
    parameter, so the member stays false.  [computed_move] is not assigned
    when [FirstMove] throws, and the move a throwing [FirstMove] leaves is
    taken to be the one it was given. *)
Definition create_full_neighborhood_iterator (ref : nat) (st : State) (e : bool)
  : FullNeighborhoodIterator :=
  if e then mkFull ref st default_move default_move 0 true
  else match FirstMove ne st default_move with
       | Some m => mkFull ref st m m 0 false
       | None => mkFull ref st default_move default_move 0 false
       end.

(** [begin(st)] and [end(st)] *)
Definition begin_ (ref : nat) (st : State) : FullNeighborhoodIterator :=
  create_full_neighborhood_iterator ref st false.

Definition end_of (ref : nat) (st : State) : FullNeighborhoodIterator :=
  create_full_neighborhood_iterator ref st true.

(** [operator++] of [FullNeighborhoodIterator]; [LogicError] past the
    end. *)
Definition full_next (it : FullNeighborhoodIterator) : outcome FullNeighborhoodIterator :=
  if end_ it then LogicError
  else
    let (ok, m) := NextMove ne (state it) (current_move it) in
    Returned (mkFull (state_ref it) (state it) m m (to_ulong (move_count it + 1))
                     (negb ok)).

(** [operator==] and [operator!=] of [FullNeighborhoodIterator]. *)
Definition full_eq (it it2 : FullNeighborhoodIterator) : bool :=
  if end_ it && end_ it2 then true
  else eqb (end_ it) (end_ it2) && (move_count it =? move_count it2)
       && (state_ref it =? state_ref it2)%nat.

Definition full_ne (it it2 : FullNeighborhoodIterator) : bool :=
  if end_ it && end_ it2 then false
  else negb (eqb (end_ it) (end_ it2)) || negb (move_count it =? move_count it2)
       || negb (state_ref it =? state_ref it2)%nat.

(** The moves that [for (; it != last; ++it)] reads through [*it]. *)
Fixpoint full_range (fuel : nat) (it last : FullNeighborhoodIterator)
  : option (list Move) :=
  match fuel with
  | O => None
  | S fuel' =>
      if full_ne it last then
        match full_next it with
        | Returned it' => cons (computed_move it) <$> full_range fuel' it' last
        | _ => None
        end
      else Some []
  end.

(** The data members of [SampleNeighborhoodIterator]; [samples] is a
    [size_t]. *)
Record SampleNeighborhoodIterator : Type := mkSample {
  s_state_ref : nat;
  s_state : State;
  s_current_move : Move;
  s_computed_move : Move;
  s_move_count : Z;
  samples : Z;
  s_end : bool
}.

(** The constructor of [SampleNeighborhoodIterator], with the random
    source.  As in the full iterator, the handler of [EmptyNeighborhood]
    writes the parameter [end], and the member stays false. *)
Definition create_sample_neighborhood_iterator (ref : nat) (st : State) (n : Z)
  (e : bool) (g : Rng) : SampleNeighborhoodIterator * Rng :=
  if e then (mkSample ref st default_move default_move 0 n true, g)
  else match RandomMove ne st default_move g with
       | (Some m, g') => (mkSample ref st m m 0 n false, g')
       | (None, g') => (mkSample ref st default_move default_move 0 n false, g')
       end.

(** [sample_end(st, samples)] and [sample_begin(st, samples)] *)
Definition sample_end (ref : nat) (st : State) (n : Z) (g : Rng)
  : SampleNeighborhoodIterator * Rng :=
  create_sample_neighborhood_iterator ref st n true g.

Definition sample_begin (ref : nat) (st : State) (n : Z) (g : Rng)
  : SampleNeighborhoodIterator * Rng :=
  if 0 <? n then create_sample_neighborhood_iterator ref st n false g
  else sample_end ref st n g.

(** [operator++] of [SampleNeighborhoodIterator]; an [EmptyNeighborhood]
    of [RandomMove] is not caught. *)
Definition sample_next (it : SampleNeighborhoodIterator) (g : Rng)
  : outcome (SampleNeighborhoodIterator * Rng) :=
  if s_end it then LogicError
  else
    let move_count1 := to_ulong (s_move_count it + 1) in
    if samples it <=? move_count1
    then Returned (mkSample (s_state_ref it) (s_state it) (s_current_move it)
                            (s_computed_move it) move_count1 (samples it) true, g)
    else match RandomMove ne (s_state it) (s_current_move it) g with
         | (Some m, g') =>
             Returned (mkSample (s_state_ref it) (s_state it) m m move_count1
                                (samples it) false, g')
         | (None, _) => EmptyNeighborhood
         end.

(** [operator!=] of [SampleNeighborhoodIterator]. *)
Definition sample_ne (it it2 : SampleNeighborhoodIterator) : bool :=
  if s_end it && s_end it2 then false
  else negb (eqb (s_end it) (s_end it2)) || negb (s_move_count it =? s_move_count it2)
       || negb (s_state_ref it =? s_state_ref it2)%nat.

(** The moves that [for (; it != last; ++it)] reads through [*it]. *)
Fixpoint sample_range (fuel : nat) (it last : SampleNeighborhoodIterator) (g : Rng)
  : option (list Move) :=
  match fuel with
  | O => None
  | S fuel' =>
      if sample_ne it last then
        match sample_next it g with
        | Returned (it', g') => cons (s_computed_move it) <$> sample_range fuel' it' last g'
        | _ => None
        end
      else Some []
  end.

(** The moves that [n] successive calls of [RandomMove] on the state
    write into a move, from the move [m] and the random source [g]. *)
Fixpoint draws (st : State) (n : nat) (m : Move) (g : Rng) : list Move :=
  match n with
  | O => []
  | S n' =>
      match RandomMove ne st m g with
      | (Some m', g') => m' :: draws st n' m' g'
      | (None, _) => []
      end
  end.

Lemma length_draws (st : State) :
  (forall (m : Move) (g : Rng), (RandomMove ne st m g).1 <> None) ->
  forall (k : nat) (m : Move) (g : Rng), length (draws st k m g) = k.
Proof.
  intros Hnever. induction k as [|k IH]; intros m g; cbn [draws]; [reflexivity|].
  pose proof (Hnever m g) as H1.
  destruct (RandomMove ne st m g) as [[m'|] g']; [|now contradiction H1].
  cbn [length]. now rewrite IH.
Qed.

Lemma full_ne_end (it last : FullNeighborhoodIterator) :
  end_ last = true -> full_ne it last = negb (end_ it).
Proof.
  intros Hlast. unfold full_ne. rewrite Hlast.
  destruct (end_ it); reflexivity.
Qed.

Lemma full_range_follows (st : State) (last : FullNeighborhoodIterator) :
  end_ last = true ->
  forall (fuel : nat) (it : FullNeighborhoodIterator) (l : list Move),
    end_ it = false -> state it = st -> computed_move it = current_move it ->
    SetUnion.follows ne st (current_move it) l ->
    (S (length l) < fuel)%nat ->
    full_range fuel it last = Some (current_move it :: l).
Proof.
  intros Hlast. induction fuel as [|fuel IH]; intros it l He Hst Hc Hfol Hfuel; [lia|].
  cbn [full_range]. rewrite (full_ne_end it last Hlast), He. cbn [negb].
  unfold full_next. rewrite He, Hst, Hc.
  inversion Hfol as [x m' Hnext|x y l' Hnext Hfol']; subst l; rewrite Hnext.
  - destruct fuel as [|fuel]; [simpl in Hfuel; lia|].
    cbn [full_range]. rewrite (full_ne_end _ last Hlast). reflexivity.
  - rewrite (IH _ l'); auto. simpl in Hfuel. lia.
Qed.

Lemma sample_ne_end (it last : SampleNeighborhoodIterator) :
  s_end last = true -> sample_ne it last = negb (s_end it).
Proof.
  intros Hlast. unfold sample_ne. rewrite Hlast.
  destruct (s_end it); reflexivity.
Qed.

Lemma sample_range_draws (st : State) (last : SampleNeighborhoodIterator) :
  s_end last = true ->
  (forall (m : Move) (g : Rng), (RandomMove ne st m g).1 <> None) ->
  forall (k fuel : nat) (it : SampleNeighborhoodIterator) (g : Rng),
    s_end it = false -> s_state it = st ->
    s_computed_move it = s_current_move it ->
    0 <= s_move_count it -> samples it < 2 ^ 64 ->
    s_move_count it = samples it - 1 - Z.of_nat k ->
    (S k < fuel)%nat ->
    sample_range fuel it last g
      = Some (s_current_move it :: draws st k (s_current_move it) g).
Proof.
  intros Hlast Hnever. induction k as [|k IH]; intros fuel it g He Hst Hc H0 Hn Hcount Hfuel.
  - destruct fuel as [|[|fuel]]; try lia.
    cbn [sample_range]. rewrite (sample_ne_end it last Hlast), He. cbn [negb].
    unfold sample_next. rewrite He, to_ulong_small by lia.
    replace (samples it <=? s_move_count it + 1) with true
      by (symmetry; apply Z.leb_le; lia).
    rewrite (sample_ne_end _ last Hlast). cbn. now rewrite Hc.
  - destruct fuel as [|fuel]; [lia|].
    cbn [sample_range draws]. rewrite (sample_ne_end it last Hlast), He. cbn [negb].
    unfold sample_next. rewrite He, to_ulong_small by lia.
    replace (samples it <=? s_move_count it + 1) with false
      by (symmetry; apply Z.leb_gt; lia).
    rewrite Hst. specialize (Hnever (s_current_move it) g).
    destruct (RandomMove ne st (s_current_move it) g) as [[m'|] g'];
      [|now contradiction Hnever].
    rewrite (IH fuel _ g'); cbn; auto; try lia. now rewrite Hc.
Qed.

(** X22. On a state with a move, the range from [begin(st)] to [end(st)]
    holds the moves of the neighborhood, in the order of [FirstMove] and
    [NextMove].  When [FirstMove] throws [EmptyNeighborhood] the range is
    not empty: [begin(st)] is not at the end and differs from [end(st)],
    and the move it hands out is the default-constructed one.
    whatever the loop over the range reads starts with it.
    [operator!=] is the negation of [operator==], and incrementing an
    iterator at the end throws. *)
Theorem full_range_neighborhood (ref : nat) (st : State) (l : list Move) (fuel : nat) :
  SetUnion.neighborhood ne st l ->
  (length l < fuel)%nat ->
  (l <> [] -> full_range fuel (begin_ ref st) (end_of ref st) = Some l) /\
  (l = [] ->
   end_ (begin_ ref st) = false /\
   full_ne (begin_ ref st) (end_of ref st) = true /\
   full_eq (begin_ ref st) (end_of ref st) = false /\
   computed_move (begin_ ref st) = default_move /\
   forall (n : nat) (l' : list Move),
     full_range n (begin_ ref st) (end_of ref st) = Some l' ->
     exists l'' : list Move, l' = default_move :: l'') /\
  (forall it it2 : FullNeighborhoodIterator, full_ne it it2 = negb (full_eq it it2)) /\
  full_next (end_of ref st) = LogicError.
Proof.
  intros Hl Hfuel. split; [|split; [|split]].
  - intros Hne. unfold begin_, end_of, create_full_neighborhood_iterator.
    destruct l as [|x l]; [congruence|]. cbn [SetUnion.neighborhood] in Hl.
    destruct Hl as [Hfirst Hfol]. rewrite Hfirst.
    apply (full_range_follows st); auto; simpl in *; lia.
  - intros ->. cbn [SetUnion.neighborhood] in Hl.
    unfold begin_, end_of, create_full_neighborhood_iterator. rewrite Hl.
    split; [reflexivity|]. split; [reflexivity|]. split; [reflexivity|].
    split; [reflexivity|]. intros n l' Hr.
    destruct n as [|n]; [discriminate|]. cbn in Hr.
    destruct (NextMove ne st default_move) as [ok m]. cbn in Hr.
    destruct (full_range n _ _) as [l''|]; [|discriminate].
    injection Hr as <-. exists l''. reflexivity.
  - intros it it2. unfold full_ne, full_eq.
    destruct (end_ it), (end_ it2), (move_count it =? move_count it2),
      (state_ref it =? state_ref it2)%nat; reflexivity.
  - reflexivity.
Qed.

(** X23. When [RandomMove] never throws on the state, the range from
    [sample_begin(st, samples)] to [sample_end(st, samples)] holds exactly
    [samples] moves, the ones that successive calls of [RandomMove] draw;
    it is empty for [samples = 0]. *)
Theorem sample_range_samples (ref : nat) (st : State) (n : Z) (g : Rng) (fuel : nat) :
  (forall (m : Move) (g0 : Rng), (RandomMove ne st m g0).1 <> None) ->
  0 <= n < 2 ^ 64 ->
  (Z.to_nat n < fuel)%nat ->
  let first := sample_begin ref st n g in
  let last := sample_end ref st n first.2 in
  sample_range fuel first.1 last.1 first.2 = Some (draws st (Z.to_nat n) default_move g) /\
  length (draws st (Z.to_nat n) default_move g) = Z.to_nat n.
Proof.
  intros Hnever Hn Hfuel first last. split.
  - unfold first, last, sample_begin, sample_end, create_sample_neighborhood_iterator.
    destruct (0 <? n) eqn:E.
    + apply Z.ltb_lt in E.
      replace (Z.to_nat n) with (S (Z.to_nat (n - 1))) in * by lia.
      cbn [draws]. pose proof (Hnever default_move g) as H1.
      destruct (RandomMove ne st default_move g) as [[m|] g1]; [|now contradiction H1].
      cbn [fst snd].
      apply (sample_range_draws st (mkSample ref st default_move default_move 0 n true)
               eq_refl Hnever (Z.to_nat (n - 1)) fuel
               (mkSample ref st m m 0 n false) g1); cbn; auto; lia.
    + apply Z.ltb_ge in E. replace (Z.to_nat n) with 0%nat in * by lia.
      cbn. destruct fuel; [lia|]. reflexivity.
  - now apply length_draws.
Qed.

End WithTypes.

Arguments begin_ {State Move Weights Rng double} _ _ _ _.
Arguments end_of {State Move Weights Rng double} _ _ _ _.
Arguments full_next {State Move Weights Rng double} _ _.
Arguments full_eq {State Move} _ _.
Arguments full_ne {State Move} _ _.
Arguments full_range {State Move Weights Rng double} _ _ _ _.
Arguments sample_begin {State Move Weights Rng double} _ _ _ _ _ _.
Arguments sample_end {State Move Weights Rng double} _ _ _ _ _ _.
Arguments sample_range {State Move Weights Rng double} _ _ _ _ _.
Arguments draws {State Move Weights Rng double} _ _ _ _ _.

Lemma full_range_neighborhood_ex :
  full_range SetUnion.three 4 (begin_ SetUnion.three 7%nat 0%nat tt)
             (end_of SetUnion.three 7%nat 0%nat tt)
    = Some [0; 1; 2]%nat /\
  full_ne (begin_ SetUnion.none 7%nat 0%nat tt) (end_of SetUnion.none 7%nat 0%nat tt)
    = true /\
  computed_move _ _ (begin_ SetUnion.none 7%nat 0%nat tt) = 7%nat /\
  full_range SetUnion.none 2 (begin_ SetUnion.none 7%nat 0%nat tt)
             (end_of SetUnion.none 7%nat 0%nat tt)
    = Some [7%nat].
Proof.
  destruct (full_range_neighborhood _ _ _ _ _ SetUnion.three 7%nat 0%nat tt
              [0; 1; 2]%nat 4) as (H1 & _).
  - split; [intros m0; reflexivity|].
    apply (SetUnion.follows_next SetUnion.three tt 0 1 [2])%nat; [reflexivity|].
    apply (SetUnion.follows_next SetUnion.three tt 1 2 [])%nat; [reflexivity|].
    apply (SetUnion.follows_last SetUnion.three tt 2 2)%nat. reflexivity.
  - simpl. lia.
  - destruct (full_range_neighborhood _ _ _ _ _ SetUnion.none 7%nat 0%nat tt [] 1)
      as (_ & H2 & _).
    + intros m0. reflexivity.
    + simpl. lia.
    + destruct (H2 eq_refl) as (_ & Hne & _ & Hc & _).
      split; [apply H1; discriminate|]. split; [exact Hne|].
      split; [exact Hc|reflexivity].
Defined.

Lemma sample_range_samples_ex :
  let first := sample_begin SetUnion.three 7%nat 0%nat tt 2 [5; 4; 9]%nat in
  let last := sample_end SetUnion.three 7%nat 0%nat tt 2 first.2 in
  sample_range SetUnion.three 3 first.1 last.1 first.2
    = Some (draws SetUnion.three tt (Z.to_nat 2) 7%nat [5; 4; 9]%nat) /\
  length (draws SetUnion.three tt (Z.to_nat 2) 7%nat [5; 4; 9]%nat) = Z.to_nat 2.
Proof.
  apply (sample_range_samples _ _ _ _ _ SetUnion.three 7%nat 0%nat tt 2 [5; 4; 9]%nat 3).
  - intros m g0. destruct g0; discriminate.
  - lia.
  - simpl. lia.
Defined.

End NeighborhoodIterators.
